(** * brainstorm: peephole LSTM layer and training loop

    A shallow embedding of

      - [brainstorm/layers/lstm_peephole.py]: [setup], [forward_pass] and
        [backward_pass] of [LstmPeepholeLayerImpl];
      - [brainstorm/training/trainer.py]: [Trainer.add_hook],
        [Trainer.__init_from_description__], [Trainer._add_log],
        [Trainer._call_hook], [Trainer._emit_hooks], [Trainer._start_hooks],
        [Trainer.train] and the two data feeders [run_network] and
        [run_network_double_buffer].

    Part I holds the definitions, Part II the lemmas and theorems.

    Conventions.  Python's unbounded integers are [Z].  Tensors are nested
    lists ([list K] for rank 1, [list (list K)] for rank 2, a list of rank-2
    slots for the time-major rank-3 buffers).  The scalar carrier [K] and the
    scalar primitives of the numeric handler are a type class, because the
    handler is injected into the layer at run time; arithmetic on [K] is
    exact.  Code that raises returns an error value. *)

From Stdlib Require Import ZArith Reals Lra Lia Ring.
From stdpp Require Import base option list sorting gmap strings.

Open Scope string_scope.
Open Scope list_scope.
Open Scope Z_scope.

(* ================================================================== *)
(** * Part I: definitions *)
(* ================================================================== *)

(** ** Python values that reach [setup] through [kwargs] *)

Inductive pyobj :=
  | PyNone
  | PyBool (b : bool)
  | PyInt (n : Z)
  | PyFloat (num den : Z)
  | PyStr (s : string).

(** [isinstance(v, int)]: [bool] is a subclass of [int]. *)
Definition isinstance_int (v : pyobj) : bool :=
  match v with
  | PyBool _ | PyInt _ => true
  | _ => false
  end.

(** The integer an [int] instance denotes ([True] is 1, [False] is 0). *)
Definition int_value (v : pyobj) : Z :=
  match v with
  | PyInt n => n
  | PyBool b => Z.b2z b
  | _ => 0
  end.

(** "a positive integer", the wording of the specification. *)
Definition is_positive_int (v : pyobj) : Prop :=
  ∃ n, v = PyInt n ∧ 0 < n.

(** ** Shape declarations *)

(** Modelled from the spec: [BufferStructure] is declared outside the
    sources at hand.  The specification describes it as a declaration of a
    tensor's symbolic and concrete axis sizes together with an optional
    [context_size] and an [is_backward_only] flag, which is what this record
    holds; building one does not validate anything. *)
Inductive axis :=
  | AxisT
  | AxisB
  | AxisN (n : Z).

Record BufferStructure := mkBufferStructure {
  bs_shape : list axis;
  context_size : Z;
  is_backward_only : bool
}.

Definition BufferStructure1 (a : Z) : BufferStructure :=
  mkBufferStructure [AxisN a] 0 false.
Definition BufferStructure2 (a b : Z) : BufferStructure :=
  mkBufferStructure [AxisN a; AxisN b] 0 false.
Definition BufferStructureTB (n : Z) (ctx : Z) (bwd : bool) : BufferStructure :=
  mkBufferStructure [AxisT; AxisB; AxisN n] ctx bwd.

(** Number of scalars of a declaration without symbolic axes. *)
Definition axis_size (a : axis) : Z :=
  match a with
  | AxisN n => n
  | _ => 1
  end.

Definition element_count (s : BufferStructure) : Z :=
  foldr (λ a acc, axis_size a * acc) 1 (bs_shape s).

Definition total_element_count (d : list (string * BufferStructure)) : Z :=
  foldr (λ e acc, element_count e.2 + acc) 0 d.

(** ** [LstmPeepholeLayerImpl.setup] *)

Inductive setup_result :=
  | SetupOk (outputs parameters internals : list (string * BufferStructure))
  | LayerValidationError (size : pyobj).

(** [kwargs.get('size', in_size)] *)
Definition requested_size (kwargs : gmap string pyobj) (in_size : Z) : pyobj :=
  default (PyInt in_size) (kwargs !! "size").

Definition setup (kwargs : gmap string pyobj) (in_size : Z) : setup_result :=
  let size_obj := requested_size kwargs in_size in
  if negb (isinstance_int size_obj) then LayerValidationError size_obj
  else
    let size := int_value size_obj in
    let outputs := [("default", BufferStructureTB size 1 false)] in
    let parameters :=
      [("Wz", BufferStructure2 size in_size);
       ("Wi", BufferStructure2 size in_size);
       ("Wf", BufferStructure2 size in_size);
       ("Wo", BufferStructure2 size in_size);
       ("Wci", BufferStructure1 size);
       ("Wcf", BufferStructure1 size);
       ("Wco", BufferStructure1 size);
       ("Rz", BufferStructure2 size size);
       ("Ri", BufferStructure2 size size);
       ("Rf", BufferStructure2 size size);
       ("Ro", BufferStructure2 size size);
       ("bz", BufferStructure1 size);
       ("bi", BufferStructure1 size);
       ("bf", BufferStructure1 size);
       ("bo", BufferStructure1 size)] in
    let internals :=
      [("Za", BufferStructureTB size 1 false);
       ("Zb", BufferStructureTB size 1 false);
       ("Ia", BufferStructureTB size 1 false);
       ("Ib", BufferStructureTB size 1 false);
       ("Fa", BufferStructureTB size 1 false);
       ("Fb", BufferStructureTB size 1 false);
       ("Oa", BufferStructureTB size 1 false);
       ("Ob", BufferStructureTB size 1 false);
       ("Ca", BufferStructureTB size 1 false);
       ("Cb", BufferStructureTB size 1 false);
       ("dZa", BufferStructureTB size 1 true);
       ("dZb", BufferStructureTB size 1 true);
       ("dIa", BufferStructureTB size 1 true);
       ("dIb", BufferStructureTB size 1 true);
       ("dFa", BufferStructureTB size 1 true);
       ("dFb", BufferStructureTB size 1 true);
       ("dOa", BufferStructureTB size 1 true);
       ("dOb", BufferStructureTB size 1 true);
       ("dCa", BufferStructureTB size 1 true);
       ("dCb", BufferStructureTB size 1 true)] in
    SetupOk outputs parameters internals.

Definition setup_parameters (r : setup_result) : list (string * BufferStructure) :=
  match r with
  | SetupOk _ p _ => p
  | LayerValidationError _ => []
  end.

Definition setup_raises (r : setup_result) : Prop :=
  match r with
  | SetupOk _ _ _ => False
  | LayerValidationError _ => True
  end.

(* ------------------------------------------------------------------ *)
(** ** The trainer: [brainstorm/training/trainer.py] *)
(* ------------------------------------------------------------------ *)

(** What a hook hands back: [None], a mapping from names to such values,
    or anything else (a number, an array, ...), which [_add_log] treats
    as one scalar of type [V]. *)
Inductive hookval (V : Type) :=
  | HNone
  | HScalar (v : V)
  | HDict (items : list (string * hookval V)).
Arguments HNone {V}.
Arguments HScalar {V} v.
Arguments HDict {V} items.

(** [Trainer.logs]: a name maps to the list of values seen so far or to a
    nested log of the same kind. *)
Inductive log (V : Type) :=
  | LList (l : list V)
  | LDict (d : gmap string (log V)).
Arguments LList {V} l.
Arguments LDict {V} d.

(** [Trainer._add_log(name, val, verbose, logs, indent)], without the
    printing.  [None] stands for the [TypeError] or [AttributeError] Python
    raises when the entry found under a name is of the other kind. *)
Fixpoint add_log {V} (name : string) (val : hookval V)
    (logs : gmap string (log V)) {struct val} : option (gmap string (log V)) :=
  match val with
  | HNone => Some logs
  | HDict items =>
      (* logs[name] = dict() if name not in logs else logs[name] *)
      let entry := default (LDict ∅) (logs !! name) in
      (* for k, v in val.items(): self._add_log(k, v, ..., logs[name], ...) *)
      let fix each (items : list (string * hookval V)) (entry : log V)
          : option (log V) :=
        match items with
        | [] => Some entry
        | (k, v) :: rest =>
            match entry with
            | LDict d =>
                match add_log k v d with
                | Some d' => each rest (LDict d')
                | None => None
                end
            | LList l =>
                (* a list cannot be indexed by a name; only the early
                   return on [None] leaves it alone *)
                match v with
                | HNone => each rest (LList l)
                | _ => None
                end
            end
        end in
      match each items entry with
      | Some entry' => Some (<[name := entry']> logs)
      | None => None
      end
  | HScalar v =>
      (* logs[name] = [] if name not in logs else logs[name] *)
      match default (LList []) (logs !! name) with
      | LList l => Some (<[name := LList (l ++ [v])]> logs)
      | LDict _ => None          (* a dict has no append *)
      end
  end.

(** [_add_log(k, v, ..., d)] for every item of a mapping, in order. *)
Fixpoint add_log_all {V} (items : list (string * hookval V))
    (d : gmap string (log V)) : option (gmap string (log V)) :=
  match items with
  | [] => Some d
  | (k, v) :: rest => add_log k v d ≫= add_log_all rest
  end.

(** [_add_log(name, v)] for one scalar after the other. *)
Definition add_scalars {V} (name : string) (vs : list V)
    (logs : gmap string (log V)) : option (gmap string (log V)) :=
  foldl (λ o v, o ≫= add_log name (HScalar v)) (Some logs) vs.

(** The list, or the mapping, found under a name; empty when the name is
    absent. *)
Definition list_of {V} (o : option (log V)) : list V :=
  match o with
  | Some (LList l) => l
  | _ => []
  end.

Definition dict_of {V} (o : option (log V)) : gmap string (log V) :=
  match o with
  | Some (LDict d) => d
  | _ => ∅
  end.

(** The merge rule in the words of the specification: a scalar is
    appended to the list under the name, a mapping is merged key by key
    into the mapping under the name, and what is not named stays. *)
Inductive merged {V} : hookval V → option (log V) → option (log V) → Prop :=
  | merged_none o :
      merged HNone o o
  | merged_scalar_new v :
      merged (HScalar v) None (Some (LList [v]))
  | merged_scalar_append v l :
      merged (HScalar v) (Some (LList l)) (Some (LList (l ++ [v])))
  | merged_dict_new items d' :
      (∀ k v, (k, v) ∈ items → merged v None (d' !! k)) →
      (∀ k, k ∉ items.*1 → d' !! k = None) →
      merged (HDict items) None (Some (LDict d'))
  | merged_dict_into items d d' :
      (∀ k v, (k, v) ∈ items → merged v (d !! k) (d' !! k)) →
      (∀ k, k ∉ items.*1 → d' !! k = d !! k) →
      merged (HDict items) (Some (LDict d)) (Some (LDict d')).

(** A value fits what the log holds under its name: a scalar meets a
    list or nothing, a mapping meets a mapping or nothing, and so on
    inside; the keys of a mapping are distinct. *)
Fixpoint fits {V} (val : hookval V) (o : option (log V)) {struct val} : Prop :=
  match val with
  | HNone => True
  | HScalar _ =>
      match o with
      | Some (LDict _) => False
      | _ => True
      end
  | HDict items =>
      NoDup items.*1 ∧
      match o with
      | Some (LList _) => False
      | _ =>
          (fix all (items : list (string * hookval V)) : Prop :=
             match items with
             | [] => True
             | (k, v) :: rest => fits v (dict_of o !! k) ∧ all rest
             end) items
      end
  end.

(** What can go wrong inside the trainer. *)
Inductive exn :=
  | AssertionError
  | ZeroDivisionError
  | HookError (name : string)
  | LogError (name : string).

(** How a method ends: it returns, it raises, or the model's bound on the
    number of epochs is used up. *)
Inductive outcome (A : Type) :=
  | Done (a : A)
  | Raised (e : exn)
  | OutOfFuel.
Arguments Done {A} a.
Arguments Raised {A} e.
Arguments OutOfFuel {A}.

Section Training.
Context {World V Batch : Type}.

(** What a call of a hook does: it returns a value, raises
    [StopIteration] (whose [value] attribute may be [None]), or raises
    something else. *)
Inductive call_result :=
  | Returned (val : hookval V)
  | StopIteration (val : hookval V)
  | HookRaised.

(** A hook.  [hook_start] is [None] when the hook has no [start]
    attribute; a [start] that raises yields [None].  The network and
    the stepper live in [World]. *)
Record Hook := mkHook {
  timescale : string;
  interval : Z;
  hook_verbose : bool;
  hook_start : option (World → option World);
  hook_call : Z → Z → gmap string (log V) → World → call_result * World
}.

(** The collaborators of the trainer that are not part of it: stepper,
    network and data source. *)
Class Collaborators := {
  data_names_match : World → bool;
  stepper_start : World → World;
  stepper_run : World → V * World;
  apply_weight_modifiers : World → World;
  training_data_getter : World → list Batch;
  provide_external_data : Batch → World → World;
  np_mean : list V → V;
  nan : V
}.

(** Observable steps, recorded so that what is called, and in which
    order, can be stated.  A call of a hook is recorded with
    the counters it is given and with whether it signalled a stop. *)
Inductive event :=
  | EvStepperStart
  | EvHookStart (name : string)
  | EvEmit (ts : string) (count : Z)
  | EvHookCall (name : string) (epoch_nr update_nr : Z) (stop : bool)
  | EvEpoch (epoch_nr : Z)
  | EvProvide (data : Batch)
  | EvYield (i : nat)
  | EvStep (update_nr : Z).

(** The trainer object, the world it acts on, [train]'s local
    [train_loss] and the recorded events. *)
Record Trainer := mkTrainer {
  verbose : bool;
  double_buffering : bool;
  hooks : list (string * Hook);
  current_epoch_nr : Z;
  current_update_nr : Z;
  logs : gmap string (log V);
  world : World;
  train_loss : list V;
  trace : list event
}.

Definition set_epoch_nr (n : Z) (s : Trainer) : Trainer :=
  mkTrainer (verbose s) (double_buffering s) (hooks s) n
    (current_update_nr s) (logs s) (world s) (train_loss s) (trace s).
Definition set_update_nr (n : Z) (s : Trainer) : Trainer :=
  mkTrainer (verbose s) (double_buffering s) (hooks s) (current_epoch_nr s)
    n (logs s) (world s) (train_loss s) (trace s).
Definition set_logs (l : gmap string (log V)) (s : Trainer) : Trainer :=
  mkTrainer (verbose s) (double_buffering s) (hooks s) (current_epoch_nr s)
    (current_update_nr s) l (world s) (train_loss s) (trace s).
Definition set_world (w : World) (s : Trainer) : Trainer :=
  mkTrainer (verbose s) (double_buffering s) (hooks s) (current_epoch_nr s)
    (current_update_nr s) (logs s) w (train_loss s) (trace s).
Definition set_train_loss (l : list V) (s : Trainer) : Trainer :=
  mkTrainer (verbose s) (double_buffering s) (hooks s) (current_epoch_nr s)
    (current_update_nr s) (logs s) (world s) l (trace s).
Definition record (e : event) (s : Trainer) : Trainer :=
  mkTrainer (verbose s) (double_buffering s) (hooks s) (current_epoch_nr s)
    (current_update_nr s) (logs s) (world s) (train_loss s) (trace s ++ [e]).

(** *** A state and exception monad for the methods of [Trainer] *)

Definition M (A : Type) : Type := Trainer → outcome A * Trainer.

Definition ret {A} (a : A) : M A := λ s, (Done a, s).
Definition bind {A B} (m : M A) (k : A → M B) : M B :=
  λ s, match m s with
       | (Done a, s') => k a s'
       | (Raised e, s') => (Raised e, s')
       | (OutOfFuel, s') => (OutOfFuel, s')
       end.
Definition raise {A} (e : exn) : M A := λ s, (Raised e, s).
Definition get : M Trainer := λ s, (Done s, s).
Definition modify (f : Trainer → Trainer) : M unit := λ s, (Done tt, f s).
Definition tell (e : event) : M unit := modify (record e).

Notation "'let*' x ':=' m 'in' k" := (bind m (λ x, k))
  (at level 10, x name, m at level 200, k at level 200).
Notation "m ';;;' k" := (bind m (λ _, k))
  (at level 100, right associativity).

Context `{Collaborators}.

(** [Trainer._call_hook] *)
Definition call_hook (name : string) (hook : Hook) : M (hookval V * bool) :=
  let* s := get in
  let '(r, w) := hook_call hook (current_epoch_nr s) (current_update_nr s)
                   (logs s) (world s) in
  modify (set_world w) ;;;
  match r with
  | Returned val =>
      tell (EvHookCall name (current_epoch_nr s) (current_update_nr s) false) ;;;
      ret (val, false)
  | StopIteration val =>
      tell (EvHookCall name (current_epoch_nr s) (current_update_nr s) true) ;;;
      ret (val, true)
  | HookRaised =>
      tell (EvHookCall name (current_epoch_nr s) (current_update_nr s) false) ;;;
      raise (HookError name)
  end.

(** [self._add_log(name, val, verbose)] on [self.logs] *)
Definition add_log_self (name : string) (val : hookval V) : M unit :=
  let* s := get in
  match add_log name val (logs s) with
  | Some l => modify (set_logs l)
  | None => raise (LogError name)
  end.

(** The loop of [Trainer._emit_hooks] over [self.hooks.items()]. *)
Fixpoint emit_loop (ts : string) (count : Z) (hs : list (string * Hook))
    (should_stop : bool) : M bool :=
  match hs with
  | [] => ret should_stop
  | (name, hook) :: rest =>
      if negb (String.eqb (timescale hook) ts) then
        emit_loop ts count rest should_stop
      else if Z.eqb (interval hook) 0 then raise ZeroDivisionError
      else if negb (Z.eqb (count `mod` interval hook) 0) then
        emit_loop ts count rest should_stop
      else
        let* r := call_hook name hook in
        add_log_self name r.1 ;;;
        emit_loop ts count rest (should_stop || r.2)
  end.

(** [Trainer._emit_hooks(net, timescale)] *)
Definition emit_hooks (ts : string) : M bool :=
  let* s := get in
  let count := if String.eqb ts "epoch" then current_epoch_nr s
               else current_update_nr s in
  tell (EvEmit ts count) ;;;
  emit_loop ts count (hooks s) false.

(** [Trainer._start_hooks] *)
Fixpoint start_loop (hs : list (string * Hook)) : M unit :=
  match hs with
  | [] => ret tt
  | (name, hook) :: rest =>
      match hook_start hook with
      | None => start_loop rest
      | Some start =>
          let* s := get in
          tell (EvHookStart name) ;;;
          match start (world s) with
          | Some w => modify (set_world w) ;;; start_loop rest
          | None => raise (HookError name)
          end
      end
  end.

Definition start_hooks : M unit :=
  modify (set_logs {["training_loss" := LList [nan]]}) ;;;
  let* s := get in
  start_loop (hooks s).

(** [net.provide_external_data(data)] *)
Definition provide (data : Batch) : M unit :=
  tell (EvProvide data) ;;;
  let* s := get in
  modify (set_world (provide_external_data data (world s))).

(** *** The two feeders

    Both are generators; the consumer's loop body runs at each [yield]
    and says whether it leaves the loop ([break]), which closes the
    generator there.  A finite deterministic iterator is the list of
    batches it will produce. *)

(** [run_network]: [for i, data in enumerate(iterator)]. *)
Fixpoint run_network_from (body : nat → M bool) (i : nat)
    (iterator : list Batch) : M unit :=
  match iterator with
  | [] => ret tt
  | data :: rest =>
      provide data ;;;
      let* brk := body i in
      if brk then ret tt else run_network_from body (S i) rest
  end.

Definition run_network (body : nat → M bool) (iterator : list Batch) : M unit :=
  run_network_from body 0 iterator.

(** [run_it]: fetch and provide the next batch, or set [run_it.stop]. *)
Definition run_it (iterator : list Batch) : M unit :=
  match iterator with
  | [] => ret tt
  | data :: _ => provide data
  end.

(** The [while not run_it.stop] loop of [run_network_double_buffer].
    The fetching thread is started before the [yield] and joined after
    it, so that its [run_it] runs next to the consumer's body; [sched i]
    says on which side of body [i] its effect lands. *)
Fixpoint double_buffer_loop (sched : nat → bool) (body : nat → M bool)
    (i : nat) (iterator : list Batch) : M unit :=
  let* brk :=
    (if sched i then run_it iterator ;;; body i
     else let* brk := body i in run_it iterator ;;; ret brk) in
  if brk then ret tt
  else match iterator with
       | [] => ret tt
       | _ :: rest => double_buffer_loop sched body (S i) rest
       end.

Definition run_network_double_buffer (sched : nat → bool)
    (body : nat → M bool) (iterator : list Batch) : M unit :=
  match iterator with
  | [] => ret tt
  | data :: rest => provide data ;;; double_buffer_loop sched body 0 rest
  end.

(** *** [Trainer.train] *)

(** The body of [for _ in run(net, iterator)]. *)
Definition update_step (_ : nat) : M bool :=
  let* s := get in
  modify (set_update_nr (current_update_nr s + 1)) ;;;
  tell (EvStep (current_update_nr s + 1)) ;;;
  let '(loss, w) := stepper_run (world s) in
  modify (set_world w) ;;;
  let* s1 := get in
  modify (set_train_loss (train_loss s1 ++ [loss])) ;;;
  modify (set_world (apply_weight_modifiers w)) ;;;
  emit_hooks "update".

(** One pass of the [while True] loop after the epoch counter is
    incremented (lines 82 to 97); the result says whether the
    ['epoch'] hooks signalled a stop. *)
Definition train_epoch (sched : nat → bool) : M bool :=
  let* s := get in
  modify (set_train_loss []) ;;;
  let iterator := training_data_getter (world s) in
  (if double_buffering s
   then run_network_double_buffer sched update_step iterator
   else run_network update_step iterator) ;;;
  let* s1 := get in
  add_log_self "training_loss" (HScalar (np_mean (train_loss s1))) ;;;
  emit_hooks "epoch".

(** The [while True] loop; [fuel] bounds the number of epochs. *)
Fixpoint train_epochs (sched : nat → bool) (fuel : nat) : M unit :=
  match fuel with
  | O => λ s, (OutOfFuel, s)
  | S fuel' =>
      let* s := get in
      modify (set_epoch_nr (current_epoch_nr s + 1)) ;;;
      tell (EvEpoch (current_epoch_nr s + 1)) ;;;
      let* stop := train_epoch sched in
      if stop then ret tt else train_epochs sched fuel'
  end.

(** Lines 64 to 73: the check of the data names, [stepper.start] and
    the hooks' [start] callbacks. *)
Definition train_start : M unit :=
  let* s := get in
  if negb (data_names_match (world s)) then raise AssertionError
  else
    tell EvStepperStart ;;;
    modify (set_world (stepper_start (world s))) ;;;
    start_hooks.

Definition train (sched : nat → bool) (fuel : nat) : M unit :=
  train_start ;;;
  (* if self._emit_hooks(net, 'epoch') or self._emit_hooks(net, 'update') *)
  let* stop_e := emit_hooks "epoch" in
  if stop_e then ret tt
  else
    let* stop_u := emit_hooks "update" in
    if stop_u then ret tt
    else train_epochs sched fuel.

(** Whether a hook is due in a dispatch at [ts] with counter [count]. *)
Definition is_due (ts : string) (count : Z) (hook : Hook) : bool :=
  String.eqb (timescale hook) ts && Z.eqb (count `mod` interval hook) 0.

(** What a call of a hook hands to [_add_log], and whether it signalled
    a stop: the value returned, or the [value] of the [StopIteration]. *)
Definition hook_value (r : call_result) : option (hookval V * bool) :=
  match r with
  | Returned val => Some (val, false)
  | StopIteration val => Some (val, true)
  | HookRaised => None
  end.

(** The logs and the world after the given hooks have been called one
    after the other at the counters [e] and [u], in the words of the
    specification: each hook is handed the logs as they stand, and what
    it returns is logged under its name, by the merge rule when it fits
    what the log holds there; no other entry changes. *)
Inductive dispatched (e u : Z) :
    list (string * Hook) → gmap string (log V) → World →
    gmap string (log V) → World → Prop :=
  | dispatched_nil l w : dispatched e u [] l w l w
  | dispatched_cons name hook rest l w r w1 val stop l1 l' w' :
      hook_call hook e u l w = (r, w1) →
      hook_value r = Some (val, stop) →
      add_log name val l = Some l1 →
      (fits val (l !! name) → merged val (l !! name) (l1 !! name)) →
      (∀ k, k ≠ name → l1 !! k = l !! k) →
      dispatched e u rest l1 w1 l' w' →
      dispatched e u ((name, hook) :: rest) l w l' w'.

(** The counter a dispatch at [ts] looks at. *)
Definition counter (ts : string) (s : Trainer) : Z :=
  if String.eqb ts "epoch" then current_epoch_nr s else current_update_nr s.

(** Events of the training proper, events of a [start] callback and
    events of a hook call. *)
Definition is_training_event (e : event) : bool :=
  match e with
  | EvEpoch _ | EvProvide _ | EvYield _ | EvStep _ => true
  | _ => false
  end.
Definition is_start_event (e : event) : bool :=
  match e with
  | EvHookStart _ => true
  | _ => false
  end.
Definition is_call_event (e : event) : bool :=
  match e with
  | EvHookCall _ _ _ _ => true
  | _ => false
  end.

(** The hooks called, in order, and whether one of them signalled a
    stop. *)
Definition calls_of (tr : list event) : list string :=
  omap (λ e, match e with EvHookCall name _ _ _ => Some name | _ => None end) tr.
Definition signals_stop (tr : list event) : bool :=
  existsb (λ e, match e with EvHookCall _ _ _ stop => stop | _ => false end) tr.

(** The names of the hooks that are due in a dispatch at [ts], in the
    order of [self.hooks]. *)
Definition due_names (ts : string) (s : Trainer) : list string :=
  (filter (λ nh, is_due ts (counter ts s) nh.2) (hooks s)).*1.

(** The batches provided and the indices yielded, in order. *)
Definition provided (tr : list event) : list Batch :=
  omap (λ e, match e with EvProvide data => Some data | _ => None end) tr.
Definition yielded (tr : list event) : list nat :=
  omap (λ e, match e with EvYield i => Some i | _ => None end) tr.

(** The hooks started, the update numbers of the optimisation steps
    and the numbers of the epochs begun, in order. *)
Definition starts_of (tr : list event) : list string :=
  omap (λ e, match e with EvHookStart name => Some name | _ => None end) tr.
Definition steps_of (tr : list event) : list Z :=
  omap (λ e, match e with EvStep update_nr => Some update_nr | _ => None end) tr.
Definition epochs_of (tr : list event) : list Z :=
  omap (λ e, match e with EvEpoch epoch_nr => Some epoch_nr | _ => None end) tr.

(** Whether a hook has raised [StopIteration] since the last epoch was
    begun, and whether every optimisation step of a record of events
    was run while none had. *)
Fixpoint stopped_after (stopped : bool) (tr : list event) : bool :=
  match tr with
  | [] => stopped
  | EvHookCall _ _ _ true :: rest => stopped_after true rest
  | EvEpoch _ :: rest => stopped_after false rest
  | _ :: rest => stopped_after stopped rest
  end.
Fixpoint steps_respect_stops (stopped : bool) (tr : list event) : bool :=
  match tr with
  | [] => true
  | EvHookCall _ _ _ true :: rest => steps_respect_stops true rest
  | EvEpoch _ :: rest => steps_respect_stops false rest
  | EvStep _ :: rest => negb stopped && steps_respect_stops stopped rest
  | _ :: rest => steps_respect_stops stopped rest
  end.

(** [hasattr(hook, 'start')] *)
Definition has_start (hook : Hook) : bool :=
  match hook_start hook with
  | Some _ => true
  | None => false
  end.

(** The consumer that takes every item and does nothing with it. *)
Definition consume_all (i : nat) : M bool := tell (EvYield i) ;;; ret false.

(** The consumer that leaves the loop ([break]) at item [k]. *)
Definition consume_until (k : nat) (i : nat) : M bool :=
  tell (EvYield i) ;;; ret (bool_decide (i = k)).

End Training.

Arguments Hook : clear implicits.
Arguments Trainer : clear implicits.
Arguments event : clear implicits.
Arguments Collaborators : clear implicits.

(** *** Registering hooks

    A hook as [add_hook] and [__init_from_description__] see it: its
    [__name__], its [priority] ([None] when the attribute is missing)
    and the rest of it. *)
Record Registered (H : Type) := mkRegistered {
  reg_name : string;
  reg_priority : option Z;
  reg_hook : H
}.
Arguments mkRegistered {H} _ _ _.
Arguments reg_name {H} _.
Arguments reg_priority {H} _.
Arguments reg_hook {H} _.

Definition set_priority {H} (p : Z) (hook : Registered H) : Registered H :=
  mkRegistered (reg_name hook) (Some p) (reg_hook hook).
Definition set_name {H} (name : string) (hook : Registered H) : Registered H :=
  mkRegistered name (reg_priority hook) (reg_hook hook).

(** Python's [max] on a list of integers; the empty list is an error. *)
Definition pymax (l : list Z) : option Z :=
  match l with
  | [] => None
  | x :: rest => Some (foldl Z.max x rest)
  end.

(** How [add_hook] ends.  The hook is stored before the priorities are
    read, so that an [AttributeError] leaves it in [self.hooks]. *)
Inductive add_hook_result (H : Type) :=
  | Added (hooks : list (string * Registered H))
  | ValueError
  | AttributeError (hooks : list (string * Registered H)).
Arguments Added {H} hooks.
Arguments ValueError {H}.
Arguments AttributeError {H} hooks.

(** [Trainer.add_hook]; [self.hooks] is an [OrderedDict]. *)
Definition add_hook {H} (hook : Registered H)
    (hooks : list (string * Registered H)) : add_hook_result H :=
  if bool_decide (reg_name hook ∈ hooks.*1) then ValueError
  else
    let hooks1 := hooks ++ [(reg_name hook, hook)] in
    match mapM (λ nh, reg_priority nh.2) hooks1 ≫= pymax with
    | Some top =>
        Added (hooks ++ [(reg_name hook, set_priority (top + 1) hook)])
    | None => AttributeError hooks1
    end.

(** [add_hook] for one hook after the other, from an empty trainer. *)
Definition add_hooks {H} (new : list (Registered H))
    : add_hook_result H :=
  foldl (λ r hook, match r with
                   | Added hooks => add_hook hook hooks
                   | _ => r
                   end) (Added []) new.

(** Python's [sorted(items, key=key)], which is stable: of two items
    with the same key the one that came first stays first. *)
Fixpoint insert_sorted {A} (key : A → Z) (x : A) (l : list A) : list A :=
  match l with
  | [] => [x]
  | y :: rest =>
      if key x <=? key y then x :: y :: rest
      else y :: insert_sorted key x rest
  end.
Definition sorted {A} (key : A → Z) (l : list A) : list A :=
  foldr (insert_sorted key) [] l.

(** [get_priority]: [getattr(x[1], 'priority', 0)] *)
Definition get_priority {H} (x : string * Registered H) : Z :=
  default 0 (reg_priority x.2).

(** [Trainer.__init_from_description__]: the hooks are put back in the
    order of their priorities and named after their keys. *)
Definition init_from_description {H} (hooks : list (string * Registered H))
    : list (string * Registered H) :=
  (λ x, (x.1, set_name x.1 x.2)) <$> sorted get_priority hooks.

(** *** A scripted run

    A data source of ten batches, a stepper that reports the number of
    the batch it was given as its loss, a hook at every second update and
    a hook that stops the training after the first epoch. *)
#[local] Instance script : Collaborators (list nat) Z nat := {|
  data_names_match _ := true;
  stepper_start w := w;
  stepper_run w := (Z.of_nat (default 0%nat (last w)), w);
  apply_weight_modifiers w := w;
  training_data_getter _ := seq 0 10;
  provide_external_data data w := w ++ [data];
  np_mean l := foldr Z.add 0 l `div` Z.of_nat (length l);
  nan := -1
|}.

Definition every_second_update : Hook (list nat) Z :=
  mkHook "update" 2 false None (λ _ update_nr _ w, (Returned (HScalar update_nr), w)).

Definition stop_after_first_epoch : Hook (list nat) Z :=
  mkHook "epoch" 1 false None
    (λ epoch_nr _ _ w,
       (if 1 <=? epoch_nr then StopIteration HNone else Returned HNone, w)).

Definition stop_at_once : Hook (list nat) Z :=
  mkHook "epoch" 1 false None (λ _ _ _ w, (StopIteration HNone, w)).

Definition script_trainer (double_buffering : bool)
    (hooks : list (string * Hook (list nat) Z)) : Trainer (list nat) Z nat :=
  mkTrainer false double_buffering hooks 0 0 ∅ [] [] [].

(** The update counts at which the named hook was called. *)
Definition called_at (name : string) (tr : list (event nat)) : list Z :=
  omap (λ e, match e with
             | EvHookCall n _ update_nr _ =>
                 if String.eqb n name then Some update_nr else None
             | _ => None
             end) tr.

(* ------------------------------------------------------------------ *)
(** ** The numeric handler *)
(* ------------------------------------------------------------------ *)

(** Scalars and the scalar primitives of the handler.  The handler is
    supplied by the network at run time ([set_handler]); its activation
    functions and their derivative-given-output forms, which map
    [(x, y, dy)] to [dx], are taken as they come. *)
Class Backend (K : Type) := {
  kzero : K;
  kone : K;
  kadd : K → K → K;
  kmul : K → K → K;
  ksub : K → K → K;
  kopp : K → K;
  sigmoid1 : K → K;
  tanh1 : K → K;
  rel1 : K → K;
  sigmoid_deriv1 : K → K → K → K;
  tanh_deriv1 : K → K → K → K;
  rel_deriv1 : K → K → K → K
}.

Declare Scope K_scope.
Delimit Scope K_scope with K.
Infix "+" := kadd : K_scope.
Infix "*" := kmul : K_scope.
Infix "-" := ksub : K_scope.

(** Rank-1 and rank-2 tensors. *)
Abbreviation vec K := (list K).
Abbreviation mat K := (list (list K)).

Section Tensors.
Context {K : Type} `{Backend K}.

Definition vget (v : vec K) (j : nat) : K := default kzero (v !! j).
Definition mget (m : mat K) (i j : nat) : K := vget (default [] (m !! i)) j.
Definition ncols (m : mat K) : nat := length (default [] (m !! 0%nat)).

(** [ksum n f] is [f 0 + (f 1 + ... (f (n-1) + 0))]. *)
Definition ksum (n : nat) (f : nat → K) : K :=
  foldr (λ k acc, (f k + acc)%K) kzero (seq 0 n).

(** Every operation of the handler writes into a destination it is
    given; its last argument here is the destination's old content and
    its result the new content, of the same shape. *)
Definition each1 (f : nat → K → K) (out : vec K) : vec K := imap f out.
Definition each2 (f : nat → nat → K → K) (out : mat K) : mat K :=
  imap (λ i, imap (f i)) out.

(** Modelled from the spec: the handler's methods are not among the
    sources.  "matrix multiply with optional operand transpose and
    optional add-into-destination": *)
Definition dot_entry (a b : mat K) (transa transb : bool) (i j : nat) : K :=
  ksum (if transa then length a else ncols a)
       (λ k, ((if transa then mget a k i else mget a i k) *
              (if transb then mget b j k else mget b k j))%K).

Definition dot_mm (a b : mat K) (transa transb : bool) (out : mat K) : mat K :=
  each2 (λ i j _, dot_entry a b transa transb i j) out.

Definition dot_add_mm (a b : mat K) (transa transb : bool) (out : mat K) : mat K :=
  each2 (λ i j o, (o + dot_entry a b transa transb i j)%K) out.

(** "elementwise add/multiply and their add-into-destination variants": *)
Definition add_tt (a b : mat K) (out : mat K) : mat K :=
  each2 (λ i j _, (mget a i j + mget b i j)%K) out.
Definition mult_tt (a b : mat K) (out : mat K) : mat K :=
  each2 (λ i j _, (mget a i j * mget b i j)%K) out.
Definition mult_add_tt (a b : mat K) (out : mat K) : mat K :=
  each2 (λ i j o, (o + mget a i j * mget b i j)%K) out.

(** "broadcasted add/multiply of a vector against a matrix's rows"; the
    vector comes as a matrix of one row. *)
Definition add_mv (a v : mat K) (out : mat K) : mat K :=
  each2 (λ i j _, (mget a i j + mget v 0 j)%K) out.
Definition mult_add_mv (a v : mat K) (out : mat K) : mat K :=
  each2 (λ i j o, (o + mget a i j * mget v 0 j)%K) out.

(** "activations and their derivative-given-output forms": *)
Definition sigmoid (x : mat K) (y : mat K) : mat K :=
  each2 (λ i j _, sigmoid1 (mget x i j)) y.
Definition tanh (x : mat K) (y : mat K) : mat K :=
  each2 (λ i j _, tanh1 (mget x i j)) y.
Definition rel (x : mat K) (y : mat K) : mat K :=
  each2 (λ i j _, rel1 (mget x i j)) y.
Definition sigmoid_deriv (x y dy : mat K) (dx : mat K) : mat K :=
  each2 (λ i j _, sigmoid_deriv1 (mget x i j) (mget y i j) (mget dy i j)) dx.
Definition tanh_deriv (x y dy : mat K) (dx : mat K) : mat K :=
  each2 (λ i j _, tanh_deriv1 (mget x i j) (mget y i j) (mget dy i j)) dx.
Definition rel_deriv (x y dy : mat K) (dx : mat K) : mat K :=
  each2 (λ i j _, rel_deriv1 (mget x i j) (mget y i j) (mget dy i j)) dx.

(** "buffer allocate/fill/copy": [copy_to(dest, src)], [fill(buf, v)]
    on a rank-3 buffer, and [allocate(shape)], which gives zeros of the
    shape of the tensor the shape was read from. *)
Definition copy_to (src : mat K) (dest : mat K) : mat K :=
  each2 (λ i j _, mget src i j) dest.


(** [v.reshape((1, size))] *)
Definition reshape_row (v : vec K) : mat K := [v].

(** *** Indexing, slices and flattened views *)

(** Python's index on a sequence of length [len]: a negative index
    counts from the end. *)
Definition pyidx (len : nat) (t : Z) : option nat :=
  let i := if t <? 0 then t + Z.of_nat len else t in
  if (0 <=? i) && (i <? Z.of_nat len) then Some (Z.to_nat i) else None.

(** [buf[t]] as a value.  Outside the range Python raises; this cannot
    happen on buffers of the declared shapes, and an empty slot is read
    here. *)
Definition slot (buf : list (mat K)) (t : Z) : mat K :=
  default [] (pyidx (length buf) t ≫= λ i, buf !! i).

(** An in-place write [op(..., buf[t])]. *)
Definition set_slot (buf : list (mat K)) (t : Z) (f : mat K → mat K) : list (mat K) :=
  match pyidx (length buf) t with
  | Some i => <[i := f (slot buf t)]> buf
  | None => buf
  end.

(** [buf[lo:-hi]] for [hi > 0], and the slots before and after it. *)
Definition slice (lo hi : nat) (buf : list (mat K)) : list (mat K) :=
  drop lo (take (length buf - hi) buf).

(** Modelled from the spec: [flatten_time], imported from
    [brainstorm.utils], merges the time and the batch axis ("the whole
    flattened time×batch extent"). *)
Definition flatten_time (a : list (mat K)) : mat K := concat a.

(** The rows of a flattened view, back in the slots they belong to. *)
Fixpoint unflatten_like (template : list (mat K)) (rows : mat K) : list (mat K) :=
  match template with
  | [] => []
  | m :: rest =>
      take (length m) rows :: unflatten_like rest (drop (length m) rows)
  end.

(** An in-place write into [flatten_time(buf[lo:-hi])], which is a view
    of [buf]. *)
Definition set_flat (lo hi : nat) (buf : list (mat K)) (f : mat K → mat K) : list (mat K) :=
  let view := slice lo hi buf in
  take lo (take (length buf - hi) buf)
    ++ unflatten_like view (f (flatten_time view))
    ++ drop (length buf - hi) buf.


End Tensors.

(* ------------------------------------------------------------------ *)
(** ** The buffers of one layer *)
(* ------------------------------------------------------------------ *)

(** The names [setup] declares, in the order of its [OrderedDict]s, which
    is the order [forward_pass] and [backward_pass] unpack them in. *)
Inductive weight_name := Wz | Wi | Wf | Wo | Rz | Ri | Rf | Ro.
Inductive vector_name := Wci | Wcf | Wco | bz | bi | bf | bo.
Inductive internal_name :=
  | Za | Zb | Ia | Ib | Fa | Fb | Oa | Ob | Ca | Cb
  | dZa | dZb | dIa | dIb | dFa | dFb | dOa | dOb | dCa | dCb.

#[global] Instance weight_name_eq_dec : EqDecision weight_name.
Proof. solve_decision. Defined.
#[global] Instance vector_name_eq_dec : EqDecision vector_name.
Proof. solve_decision. Defined.
#[global] Instance internal_name_eq_dec : EqDecision internal_name.
Proof. solve_decision. Defined.

(** The ten internals the forward pass caches, and the backward-only
    ones. *)
Definition is_forward_internal (n : internal_name) : bool :=
  match n with
  | Za | Zb | Ia | Ib | Fa | Fb | Oa | Ob | Ca | Cb => true
  | _ => false
  end.

Inductive activation := act_sigmoid | act_tanh | act_linear | act_rel.

(** The table of [set_handler], and its lookup with
    [kwargs.get('activation', 'tanh')]; an unknown name is a [KeyError]. *)
Definition activation_of_name (name : string) : option activation :=
  if String.eqb name "sigmoid" then Some act_sigmoid
  else if String.eqb name "tanh" then Some act_tanh
  else if String.eqb name "linear" then Some act_linear
  else if String.eqb name "rel" then Some act_rel
  else None.

Definition configured_activation (kwargs : gmap string string) : option activation :=
  activation_of_name (default "tanh" (kwargs !! "activation")).

Section Lstm.
Context {K : Type} `{Backend K}.

(** [buffers]: the views the network hands to the layer.  [x] is
    [inputs.default], [y] is [outputs.default], [dx] is
    [input_deltas.default], [deltas] is [output_deltas.default]. *)
Record BufferSet := mkBufferSet {
  inputs : list (mat K);
  outputs : list (mat K);
  input_deltas : list (mat K);
  output_deltas : list (mat K);
  parameters : weight_name → mat K;
  parameters_vec : vector_name → vec K;
  gradients : weight_name → mat K;
  gradients_vec : vector_name → vec K;
  internals : internal_name → list (mat K)
}.

Definition set_outputs (v : list (mat K)) (b : BufferSet) : BufferSet :=
  mkBufferSet (inputs b) v (input_deltas b) (output_deltas b)
    (parameters b) (parameters_vec b) (gradients b) (gradients_vec b)
    (internals b).
Definition set_internal (n : internal_name) (v : list (mat K)) (b : BufferSet) : BufferSet :=
  mkBufferSet (inputs b) (outputs b) (input_deltas b) (output_deltas b)
    (parameters b) (parameters_vec b) (gradients b) (gradients_vec b)
    (λ n', if decide (n' = n) then v else internals b n').

(** In-place writes through the views the code takes. *)
Definition into_y (t : Z) (f : mat K → mat K) (b : BufferSet) : BufferSet :=
  set_outputs (set_slot (outputs b) t f) b.
Definition into (n : internal_name) (t : Z) (f : mat K → mat K) (b : BufferSet)
    : BufferSet :=
  set_internal n (set_slot (internals b n) t f) b.
Definition into_flat (n : internal_name) (lo hi : nat) (f : mat K → mat K)
    (b : BufferSet) : BufferSet :=
  set_internal n (set_flat lo hi (internals b n) f) b.

(** [self.act_func] and [self.act_func_deriv] as [set_handler] binds
    them. *)
Definition act_func (act : activation) (x : mat K) (y : mat K) : mat K :=
  match act with
  | act_sigmoid => sigmoid x y
  | act_tanh => tanh x y
  | act_linear => copy_to x y
  | act_rel => rel x y
  end.

Definition act_func_deriv (act : activation) (x y dy : mat K) (dx : mat K) : mat K :=
  match act with
  | act_sigmoid => sigmoid_deriv x y dy dx
  | act_tanh => tanh_deriv x y dy dx
  | act_linear => copy_to dy dx
  | act_rel => rel_deriv x y dy dx
  end.

(** *** [forward_pass] *)

(** The four products of the input with the input weights, for all
    time steps at once (lines 120 to 128). *)
Definition forward_bulk (b : BufferSet) : BufferSet :=
  let flat_x := flatten_time (inputs b) in
  let b := into_flat Za 0 1 (dot_mm flat_x (parameters b Wz) false true) b in
  let b := into_flat Ia 0 1 (dot_mm flat_x (parameters b Wi) false true) b in
  let b := into_flat Fa 0 1 (dot_mm flat_x (parameters b Wf) false true) b in
  let b := into_flat Oa 0 1 (dot_mm flat_x (parameters b Wo) false true) b in
  b.

(** Statements are run in sequence, each on the buffers the one before
    has left. *)
Definition run {S : Type} (prog : list (S → S)) (s : S) : S :=
  foldl (λ s stmt, stmt s) s prog.

(** The body of [for t in range(time_size)] (lines 131 to 160). *)
Definition forward_step (act : activation) (b : BufferSet) (t : nat) : BufferSet :=
  let t : Z := Z.of_nat t in
  let W := parameters b in
  let w n := reshape_row (parameters_vec b n) in
  run [
    (* Block input *)
    (λ b, into Za t (dot_add_mm (slot (outputs b) (t - 1)) (W Rz) false false) b);
    (λ b, into Za t (add_mv (slot (internals b Za) t) (w bz)) b);
    (λ b, into Zb t (act_func act (slot (internals b Za) t)) b);
    (* Input Gate *)
    (λ b, into Ia t (dot_add_mm (slot (outputs b) (t - 1)) (W Ri) false false) b);
    (λ b, into Ia t (mult_add_mv (slot (internals b Ca) (t - 1)) (w Wci)) b);
    (λ b, into Ia t (add_mv (slot (internals b Ia) t) (w bi)) b);
    (λ b, into Ib t (sigmoid (slot (internals b Ia) t)) b);
    (* Forget Gate *)
    (λ b, into Fa t (dot_add_mm (slot (outputs b) (t - 1)) (W Rf) false false) b);
    (λ b, into Fa t (mult_add_mv (slot (internals b Ca) (t - 1)) (w Wcf)) b);
    (λ b, into Fa t (add_mv (slot (internals b Fa) t) (w bf)) b);
    (λ b, into Fb t (sigmoid (slot (internals b Fa) t)) b);
    (* Cell *)
    (λ b, into Ca t (mult_tt (slot (internals b Ib) t) (slot (internals b Zb) t)) b);
    (λ b, into Ca t (mult_add_tt (slot (internals b Fb) t)
                                 (slot (internals b Ca) (t - 1))) b);
    (* Output Gate *)
    (λ b, into Oa t (dot_add_mm (slot (outputs b) (t - 1)) (W Ro) false false) b);
    (λ b, into Oa t (mult_add_mv (slot (internals b Ca) t) (w Wco)) b);
    (λ b, into Oa t (add_mv (slot (internals b Oa) t) (w bo)) b);
    (λ b, into Ob t (sigmoid (slot (internals b Oa) t)) b);
    (* Block output *)
    (λ b, into Cb t (act_func act (slot (internals b Ca) t)) b);
    (λ b, into_y t (mult_tt (slot (internals b Ob) t) (slot (internals b Cb) t)) b)
  ] b.

Definition forward_pass (act : activation) (b : BufferSet) : BufferSet :=
  let time_size := length (inputs b) in
  foldl (forward_step act) (forward_bulk b) (seq 0 time_size).

(** *** [backward_pass] *)





End Lstm.

Arguments BufferSet K : clear implicits.

(* ------------------------------------------------------------------ *)
(** ** Shapes, scalar views and a handler on the reals *)
(* ------------------------------------------------------------------ *)

Section Shapes.
Context {K : Type} `{Backend K}.

(** A matrix of [r] rows and [c] columns; a time-major buffer of [n]
    slots of such matrices. *)
Definition mat_shape (r c : nat) (m : mat K) : Prop :=
  length m = r ∧ Forall (λ row, length row = c) m.

Definition buf_shape (n r c : nat) (buf : list (mat K)) : Prop :=
  length buf = n ∧ Forall (mat_shape r c) buf.

Definition is_input_weight (n : weight_name) : bool :=
  match n with
  | Wz | Wi | Wf | Wo => true
  | _ => false
  end.

(** The buffers the network allocates from the shapes [setup] declares,
    for [T] time steps, a batch of [B], [N] cells and [F] input
    features: the output and the internals have one slot more than the
    input, the context slot, which the index [-1] reaches. *)
Record well_shaped (T B N F : nat) (b : BufferSet K) : Prop := {
  ws_inputs : buf_shape T B F (inputs b);
  ws_outputs : buf_shape (S T) B N (outputs b);
  ws_input_deltas : buf_shape T B F (input_deltas b);
  ws_output_deltas : buf_shape (S T) B N (output_deltas b);
  ws_internals : ∀ n, buf_shape (S T) B N (internals b n);
  ws_parameters :
    ∀ n, mat_shape N (if is_input_weight n then F else N) (parameters b n);
  ws_parameters_vec : ∀ n, length (parameters_vec b n) = N;
  ws_gradients :
    ∀ n, mat_shape N (if is_input_weight n then F else N) (gradients b n);
  ws_gradients_vec : ∀ n, length (gradients_vec b n) = N
}.

(** The configured activation on one scalar. *)
Definition act1 (act : activation) (x : K) : K :=
  match act with
  | act_sigmoid => sigmoid1 x
  | act_tanh => tanh1 x
  | act_linear => x
  | act_rel => rel1 x
  end.

(** One scalar of a slot: [buf[t][i][j]]. *)
Definition at3 (buf : list (mat K)) (t : Z) (i j : nat) : K :=
  mget (slot buf t) i j.

End Shapes.

(** Exact arithmetic: the scalars form a commutative ring. *)
Class BackendRing (K : Type) `{Backend K} : Prop :=
  backend_ring : ring_theory kzero kone kadd kmul ksub kopp (@eq K).

(** Modelled from the spec: the handler on the reals, with the logistic
    function, the hyperbolic tangent and the rectifier, and with the
    derivatives written in terms of the output, as the numeric handler
    of the library has them. *)
#[global] Instance real_backend : Backend R := {|
  kzero := 0%R;
  kone := 1%R;
  kadd := Rplus;
  kmul := Rmult;
  ksub := Rminus;
  kopp := Ropp;
  sigmoid1 x := (/ (1 + exp (- x)))%R;
  tanh1 x := Rtrigo_def.tanh x;
  rel1 x := Rmax 0 x;
  sigmoid_deriv1 x y dy := (dy * y * (1 - y))%R;
  tanh_deriv1 x y dy := (dy * (1 - y * y))%R;
  rel_deriv1 x y dy := if Rlt_dec 0 y then dy else 0%R
|}.

#[global] Instance real_backend_ring : BackendRing R := RTheory.

(** *** A small instance on the reals

    One time step, a batch of one, one cell and one input feature. *)
Definition tiny_buffers (x c_prev y_prev delta : R) (weight : weight_name → R)
    (peephole : vector_name → R) : BufferSet R :=
  mkBufferSet
    [[[x]]] [[[0%R]]; [[y_prev]]] [[[0%R]]] [[[delta]]; [[0%R]]]
    (λ n, [[weight n]]) (λ n, [peephole n])
    (λ _, [[0%R]]) (λ _, [0%R])
    (λ n, match n with
          | Ca => [[[0%R]]; [[c_prev]]]
          | _ => [[[0%R]]; [[0%R]]]
          end).

(* ================================================================== *)
(** * Part II: lemmas and theorems *)
(* ================================================================== *)

(** ** [setup] *)

Lemma setup_raises_iff kwargs in_size :
  setup_raises (setup kwargs in_size) ↔
  isinstance_int (requested_size kwargs in_size) = false.
Proof.
  unfold setup. destruct (isinstance_int _); simpl; split; intros; done.
Qed.

Lemma positive_int_is_int v : is_positive_int v → isinstance_int v = true.
Proof. intros (n & -> & _). done. Qed.

(** C4 as stated fails: size 0 is not a positive integer, and [setup]
    returns the shapes for it. *)
Lemma setup_accepts_size_zero :
  ¬ (∀ kwargs in_size,
       ¬ is_positive_int (requested_size kwargs in_size) →
       setup_raises (setup kwargs in_size)).
Proof.
  intros Hclaim.
  cut (setup_raises (setup {["size" := PyInt 0]} 3)); [vm_compute; tauto|].
  apply Hclaim.
  intros (n & Hn & Hpos). vm_compute in Hn. injection Hn as <-. lia.
Qed.

Example setup_accepts_negative_size :
  ¬ setup_raises (setup {["size" := PyInt (-4)]} 3).
Proof. vm_compute. tauto. Qed.

(** C4, amended: [setup] raises [LayerValidationError] exactly when the
    requested size (the [size] argument, or the input's feature size when
    there is none) is not an instance of [int]; the error is the whole
    result, so that no shape is declared; every [int], also zero, a
    negative one and a [bool], passes the check. *)
Theorem setup_validates_int_only kwargs in_size :
  (setup_raises (setup kwargs in_size) ↔
   isinstance_int (requested_size kwargs in_size) = false) ∧
  (isinstance_int (requested_size kwargs in_size) = false →
   setup kwargs in_size = LayerValidationError (requested_size kwargs in_size)) ∧
  (∀ n, requested_size kwargs in_size = PyInt n →
        ∃ o p i, setup kwargs in_size = SetupOk o p i) ∧
  (∀ b, requested_size kwargs in_size = PyBool b →
        ∃ o p i, setup kwargs in_size = SetupOk o p i).
Proof.
  split; [apply setup_raises_iff|].
  unfold setup. repeat split.
  - intros ->. done.
  - intros n ->. simpl. eauto.
  - intros b ->. simpl. eauto.
Qed.

Lemma setup_validates_int_only_witness :
  setup_raises (setup {["size" := PyStr "ten"]} 3).
Proof.
  apply (proj1 (setup_validates_int_only {["size" := PyStr "ten"]} 3)).
  vm_compute. reflexivity.
Defined.

(** C5: for positive [size] and [in_size] the parameters [setup]
    declares are four [size × in_size] input weights, three peephole
    vectors of [size] elements, four [size × size] recurrent weights and
    four biases of [size] elements, in this order, and together they hold
    [4·size·in_size + 3·size + 4·size·size + 4·size] scalars. *)
Theorem setup_parameter_count kwargs size in_size :
  0 < size → 0 < in_size →
  kwargs !! "size" = Some (PyInt size) →
  setup_parameters (setup kwargs in_size) =
    [("Wz", BufferStructure2 size in_size);
     ("Wi", BufferStructure2 size in_size);
     ("Wf", BufferStructure2 size in_size);
     ("Wo", BufferStructure2 size in_size);
     ("Wci", BufferStructure1 size);
     ("Wcf", BufferStructure1 size);
     ("Wco", BufferStructure1 size);
     ("Rz", BufferStructure2 size size);
     ("Ri", BufferStructure2 size size);
     ("Rf", BufferStructure2 size size);
     ("Ro", BufferStructure2 size size);
     ("bz", BufferStructure1 size);
     ("bi", BufferStructure1 size);
     ("bf", BufferStructure1 size);
     ("bo", BufferStructure1 size)] ∧
  total_element_count (setup_parameters (setup kwargs in_size)) =
    4 * size * in_size + 3 * size + 4 * size * size + 4 * size.
Proof.
  intros _ _ Hsize.
  unfold setup, requested_size. rewrite Hsize. simpl.
  split; [reflexivity|].
  unfold total_element_count, element_count. simpl. lia.
Qed.

Lemma setup_parameter_count_witness :
  total_element_count (setup_parameters (setup {["size" := PyInt 3]} 2)) = 81.
Proof.
  refine (proj2 (setup_parameter_count {["size" := PyInt 3]} 3 2 _ _ _));
    [lia | lia | vm_compute; reflexivity].
Defined.

(** ** [_add_log] *)

Section AddLog.
Context {V : Type}.
Implicit Types (val : hookval V) (logs d : gmap string (log V)).
Implicit Types (items : list (string * hookval V)) (o : option (log V)).

(** Induction over hook values, through the items of a mapping. *)
Section hookval_rect.
Variable P : hookval V → Prop.
Hypothesis Pnone : P HNone.
Hypothesis Pscalar : ∀ v, P (HScalar v).
Hypothesis Pdict : ∀ items, Forall (λ kv, P kv.2) items → P (HDict items).

Fixpoint hookval_nested_ind val : P val :=
  match val with
  | HNone => Pnone
  | HScalar v => Pscalar v
  | HDict items =>
      Pdict items
        ((fix go items : Forall (λ kv, P kv.2) items :=
            match items with
            | [] => List.Forall_nil _
            | (k, v) :: rest =>
                @List.Forall_cons _ (λ kv, P kv.2) (k, v) rest
                  (hookval_nested_ind v) (go rest)
            end) items)
  end.
End hookval_rect.

Lemma add_log_none name logs : add_log name HNone logs = Some logs.
Proof. done. Qed.

Lemma add_log_scalar name v logs l :
  default (LList []) (logs !! name) = LList l →
  add_log name (HScalar v) logs = Some (<[name := LList (l ++ [v])]> logs).
Proof. simpl. by intros ->. Qed.

(** On a mapping under the name (or none yet), the loop of [_add_log]
    is [add_log_all]. *)
Lemma add_log_dict name items logs d :
  default (LDict ∅) (logs !! name) = LDict d →
  add_log name (HDict items) logs =
    add_log_all items d ≫= λ d', Some (<[name := LDict d']> logs).
Proof.
  simpl. intros ->.
  match goal with
  | |- match ?each items (LDict d) with _ => _ end = _ =>
      assert (Heach : ∀ its d0, each its (LDict d0) = LDict <$> add_log_all its d0)
  end.
  { induction its as [|[k v] rest IH]; intros d0; [done|].
    simpl. destruct (add_log k v d0) as [d1|]; [|done]. apply IH. }
  rewrite Heach. by destruct (add_log_all items d).
Qed.

(** Nothing but the entry under [name] changes. *)
Lemma add_log_frame name val logs logs' :
  add_log name val logs = Some logs' →
  ∀ k, k ≠ name → logs' !! k = logs !! k.
Proof.
  destruct val as [|v|items]; simpl.
  - by intros [= <-].
  - destruct (default _ _); [|done].
    intros [= <-] k Hk. by rewrite lookup_insert_ne.
  - match goal with
    | |- match ?e with _ => _ end = _ → _ => destruct e
    end; [|done].
    intros [= <-] k Hk. by rewrite lookup_insert_ne.
Qed.

Lemma add_log_all_frame items d d' :
  add_log_all items d = Some d' →
  ∀ k, k ∉ items.*1 → d' !! k = d !! k.
Proof.
  revert d. induction items as [|[k0 v] rest IH]; intros d; simpl.
  - by intros [= <-].
  - destruct (add_log k0 v d) as [d1|] eqn:E; [|done]. simpl.
    intros Hrest k Hk. apply not_elem_of_cons in Hk as [Hne Hk].
    rewrite (IH _ Hrest k Hk). by apply (add_log_frame _ _ _ _ E).
Qed.

Lemma fits_dict items o :
  fits (HDict items) o ↔
  NoDup items.*1 ∧ (∀ l, o ≠ Some (LList l)) ∧
  Forall (λ kv, fits kv.2 (dict_of o !! kv.1)) items.
Proof.
  simpl. split.
  - intros [Hnd Hall]. split; [done|].
    destruct o as [[l|d]|]; [done| |].
    all: split; [done|]; clear Hnd;
      induction items as [|[k v] rest IH]; [constructor|];
      destruct Hall as [H1 H2]; constructor; [exact H1|exact (IH H2)].
  - intros (Hnd & Hl & Hall). split; [done|].
    destruct o as [[l|d]|]; [by destruct (Hl l)| |].
    all: clear Hnd Hl; induction Hall as [|[k v] rest ? ? IH]; done.
Qed.

(** What one call does to the entry under its name, when the value
    fits what is there. *)
Lemma add_log_merged val :
  ∀ name logs, fits val (logs !! name) →
  ∃ logs', add_log name val logs = Some logs' ∧
           merged val (logs !! name) (logs' !! name).
Proof.
  induction val as [|v|items IH] using hookval_nested_ind; intros name logs Hfit.
  - exists logs. split; [done|]. constructor.
  - simpl in Hfit. simpl.
    destruct (logs !! name) as [[l|d]|] eqn:E; simpl; [| done |].
    + eexists. split; [done|]. rewrite lookup_insert_eq. constructor.
    + eexists. split; [done|]. rewrite lookup_insert_eq. constructor.
  - apply fits_dict in Hfit as (Hnd & Hl & Hall).
    set (d := dict_of (logs !! name)).
    assert (Hd : default (LDict ∅) (logs !! name) = LDict d).
    { subst d. destruct (logs !! name) as [[l|d0]|]; [by destruct (Hl l)|done..]. }
    rewrite (add_log_dict _ _ _ _ Hd).
    (* the loop: every item is merged, the others are kept *)
    assert (Hloop : ∀ d0,
      Forall (λ kv, fits kv.2 (d0 !! kv.1)) items →
      ∃ d', add_log_all items d0 = Some d' ∧
            ∀ k v, (k, v) ∈ items → merged v (d0 !! k) (d' !! k)).
    { clear Hall Hd. revert Hnd.
      induction items as [|[k0 v0] rest IHrest]; intros Hnd d0 Hall.
      - exists d0. split; [done|]. intros k v Hin. by apply elem_of_nil in Hin.
      - apply Forall_cons in IH as [IH0 IHr].
        apply Forall_cons in Hall as [Hfit0 Hallr].
        simpl in Hnd. apply NoDup_cons in Hnd as [Hk0 Hnd].
        simpl in IH0, Hfit0.
        destruct (IH0 k0 d0 Hfit0) as (d1 & E1 & Hm1).
        assert (Hd1 : ∀ k, k ≠ k0 → d1 !! k = d0 !! k)
          by (apply (add_log_frame _ _ _ _ E1)).
        destruct (IHrest IHr Hnd d1) as (d' & E' & Hm').
        { apply Forall_forall. intros [k v] Hin. simpl.
          rewrite Hd1.
          - rewrite Forall_forall in Hallr. apply (Hallr _ Hin).
          - intros ->. apply Hk0. apply list_elem_of_fmap.
            by exists (k0, v). }
        exists d'. split; [simpl; by rewrite E1|].
        intros k v Hin. apply elem_of_cons in Hin as [[= -> ->]|Hin].
        + rewrite (add_log_all_frame _ _ _ E' k0 Hk0). done.
        + rewrite <- Hd1; [by apply Hm'|].
          intros ->. apply Hk0. apply list_elem_of_fmap. by exists (k0, v). }
    destruct (Hloop d) as (d' & E' & Hm'); [done|].
    rewrite E'. simpl. eexists. split; [done|].
    rewrite lookup_insert_eq.
    pose proof (add_log_all_frame _ _ _ E') as Hframe.
    subst d. destruct (logs !! name) as [[l|d0]|]; simpl in *.
    + by destruct (Hl l).
    + by constructor.
    + constructor; [done|]. intros k Hk. by rewrite Hframe.
Qed.

(** The merge rule of [_add_log]: a value that fits what the log holds
    under its name (a scalar does not meet a mapping, nor a mapping a
    list) is merged there, [_add_log] returns, and all other entries are
    kept. *)
Lemma add_log_merges_fitting_value name val logs :
  fits val (logs !! name) →
  ∃ logs', add_log name val logs = Some logs' ∧
           merged val (logs !! name) (logs' !! name) ∧
           (∀ k, k ≠ name → logs' !! k = logs !! k).
Proof.
  intros Hfit. destruct (add_log_merged val name logs Hfit) as (logs' & E & Hm).
  exists logs'. split; [done|]. split; [done|].
  by apply (add_log_frame _ _ _ _ E).
Qed.

End AddLog.

(** A second value of the same shape, merged into the log of the first. *)
Example add_log_merges_second_value :
  ∃ logs',
    add_log "accuracy" (HDict [("train", HScalar 7); ("valid", HScalar 5)])
      {["accuracy" := LDict {["train" := LList [9]]}; "loss" := LList [3]]}
      = Some logs' ∧
    merged (HDict [("train", HScalar 7); ("valid", HScalar 5)])
      (Some (LDict {["train" := LList [9]]})) (logs' !! "accuracy") ∧
    (∀ k, k ≠ "accuracy" →
       logs' !! k =
       ({["accuracy" := LDict {["train" := LList [9]]}; "loss" := LList [3]]}
          : gmap string (log Z)) !! k).
Proof.
  refine (add_log_merges_fitting_value "accuracy"
            (HDict [("train", HScalar 7); ("valid", HScalar 5)])
            {["accuracy" := LDict {["train" := LList [9]]}; "loss" := LList [3]]} _).
  split; [|done]. apply (bool_decide_unpack _). vm_compute. exact I.
Qed.

Example add_log_scalar_twice :
  add_log "loss" (HScalar 4) {["loss" := LList [3]]}
    = Some ({["loss" := LList [3; 4]]} : gmap string (log Z)).
Proof. vm_compute. reflexivity. Qed.

Example add_log_scalar_onto_mapping :
  add_log "loss" (HScalar 4) ({["loss" := LDict ∅]} : gmap string (log Z)) = None.
Proof. vm_compute. reflexivity. Qed.

(** ** The trainer *)

Section TrainingProofs.
Context {World V Batch : Type} `{Collaborators World V Batch}.

Abbreviation M := (@M World V Batch).
Abbreviation Trainer := (Trainer World V Batch).
Abbreviation event := (event Batch).
Notation "'let*' x ':=' m 'in' k" := (bind m (λ x, k))
  (at level 10, x name, m at level 200, k at level 200).
Notation "m ';;;' k" := (bind m (λ _, k))
  (at level 100, right associativity).

Implicit Types (s : Trainer) (hs : list (string * Hook World V)).

(** *** Running the monad *)

Lemma bind_run {A B} (m : M A) (k : A → M B) s r s' :
  bind m k s = (r, s') →
  (∃ a s1, m s = (Done a, s1) ∧ k a s1 = (r, s')) ∨
  (∃ e, m s = (Raised e, s') ∧ r = Raised e) ∨
  (m s = (OutOfFuel, s') ∧ r = OutOfFuel).
Proof.
  unfold bind. destruct (m s) as [[a|e|] s1]; intros E.
  - left. eauto.
  - right. left. injection E as <- <-. eauto.
  - right. right. by injection E as <- <-.
Qed.

(** What a dispatch and the start callbacks leave alone. *)
Definition same_counters s s' : Prop :=
  current_epoch_nr s' = current_epoch_nr s ∧
  current_update_nr s' = current_update_nr s ∧
  hooks s' = hooks s ∧
  double_buffering s' = double_buffering s.

Lemma same_counters_refl s : same_counters s s.
Proof. done. Qed.

Lemma same_counters_trans s1 s2 s3 :
  same_counters s1 s2 → same_counters s2 s3 → same_counters s1 s3.
Proof. unfold same_counters. intros (?&?&?&?) (?&?&?&?). repeat split; congruence. Qed.

(** *** [_call_hook] and [_emit_hooks] *)

Lemma call_hook_run name hook s r s' :
  call_hook name hook s = (r, s') →
  same_counters s s' ∧
  ∃ stop, trace s' = trace s ++
            [EvHookCall name (current_epoch_nr s) (current_update_nr s) stop] ∧
          r ≠ OutOfFuel ∧
          ∀ a, r = Done a → a.2 = stop.
Proof.
  unfold call_hook, bind, get, tell, modify, ret, raise. simpl.
  destruct (hook_call _ _ _ _ _) as [[val|val|] w]; simpl;
    intros [= <- <-]; (split; [done|]); eexists; (split; [done|]);
    (split; [done|]); by intros a [= <-].
Qed.

Lemma add_log_self_run name val s r s' :
  add_log_self name val s = (r, s') →
  trace s' = trace s ∧ same_counters s s' ∧ r ≠ OutOfFuel.
Proof.
  unfold add_log_self, bind, get, modify, raise. simpl.
  destruct (add_log _ _ _); intros [= <- <-]; done.
Qed.

(** The events of calls of the given hooks, in order. *)
Definition calls_to s (evs : list event) (called : list (string * Hook World V))
    : Prop :=
  Forall2 (λ ev nh, ∃ stop,
    ev = EvHookCall nh.1 (current_epoch_nr s) (current_update_nr s) stop)
    evs called.

Lemma calls_to_same s s' evs called :
  same_counters s s' → calls_to s' evs called → calls_to s evs called.
Proof. intros (E & U & _). unfold calls_to. by rewrite E, U. Qed.

Lemma calls_to_call_events s evs called :
  calls_to s evs called → Forall (λ e, is_call_event e = true) evs.
Proof. induction 1 as [|ev nh evs called [st ->]]; by constructor. Qed.

Lemma calls_to_calls_of s evs called :
  calls_to s evs called → calls_of evs = called.*1.
Proof.
  induction 1 as [|ev nh evs called [st ->] _ IH]; [done|].
  unfold calls_of in *. simpl. f_equal. exact IH.
Qed.

(** The loop calls the due hooks, in the order of [self.hooks], until
    one of them raises. *)
Lemma emit_loop_run ts count hs acc s r s' :
  emit_loop ts count hs acc s = (r, s') →
  same_counters s s' ∧ r ≠ OutOfFuel ∧
  ∃ evs called,
    trace s' = trace s ++ evs ∧
    calls_to s evs called ∧
    called `prefix_of` filter (λ nh, is_due ts count nh.2) hs ∧
    (∀ stop, r = Done stop →
       called = filter (λ nh, is_due ts count nh.2) hs ∧
       stop = acc || signals_stop evs).
Proof.
  revert acc s. induction hs as [|[name hook] rest IH]; intros acc s; simpl.
  - intros [= <- <-]. split; [done|]. split; [done|]. exists [], []. simpl.
    rewrite app_nil_r. split; [done|]. split; [constructor|]. split; [done|].
    intros stop [= <-]. by rewrite orb_false_r.
  - destruct (String.eqb (timescale hook) ts) eqn:Ets; simpl.
    2:{ rewrite filter_cons, decide_False
          by (unfold is_due; simpl; rewrite Ets; simpl; tauto).
        intros E. apply IH in E. done. }
    destruct (Z.eqb (interval hook) 0) eqn:Ei; simpl.
    { intros [= <- <-]. split; [done|]. split; [done|]. exists [], []. simpl.
      rewrite app_nil_r. split; [done|]. split; [constructor|].
      split; [apply prefix_nil|done]. }
    destruct (Z.eqb (count `mod` interval hook) 0) eqn:Em; simpl.
    2:{ rewrite filter_cons, decide_False
          by (unfold is_due; simpl; rewrite Ets, Em; simpl; tauto).
        intros E. apply IH in E. done. }
    rewrite filter_cons, decide_True
      by (unfold is_due; simpl; rewrite Ets, Em; simpl; tauto).
    intros E. apply bind_run in E as [(a & s1 & Ec & E)|[(e & Ec & ->)|[Ec ->]]].
    + apply call_hook_run in Ec as (Hc1 & st & Htr1 & _ & Hst).
      specialize (Hst a eq_refl).
      apply bind_run in E as [(a2 & s2 & El & E)|[(e & El & ->)|[El ->]]].
      * apply add_log_self_run in El as (Htr2 & Hc2 & _).
        apply IH in E as (Hc3 & Hfuel & evs & called & Htr3 & Hcalls & Hpre & Hdone).
        split; [eauto using same_counters_trans|]. split; [done|].
        exists (EvHookCall name (current_epoch_nr s) (current_update_nr s) st :: evs),
               ((name, hook) :: called).
        split; [|split; [|split]].
        -- rewrite Htr3, Htr2, Htr1, <- app_assoc. done.
        -- constructor; [by exists st|].
           eapply calls_to_same; [|done]. eauto using same_counters_trans.
        -- by apply prefix_cons.
        -- intros stop Hs. destruct (Hdone stop Hs) as [-> ->].
           split; [done|]. simpl. rewrite Hst. by rewrite orb_assoc.
      * apply add_log_self_run in El as (Htr2 & Hc2 & _).
        split; [eauto using same_counters_trans|]. split; [done|].
        exists [EvHookCall name (current_epoch_nr s) (current_update_nr s) st],
               [(name, hook)].
        split; [|split; [|split]].
        -- by rewrite Htr2, Htr1.
        -- repeat constructor. by exists st.
        -- apply prefix_cons, prefix_nil.
        -- done.
      * by apply add_log_self_run in El as (_ & _ & ?).
    + apply call_hook_run in Ec as (Hc1 & st & Htr1 & _ & Hst).
      split; [done|]. split; [done|].
      exists [EvHookCall name (current_epoch_nr s) (current_update_nr s) st],
             [(name, hook)].
      split; [done|]. split; [|split; [|done]].
      * repeat constructor. by exists st.
      * apply prefix_cons, prefix_nil.
    + by apply call_hook_run in Ec as (_ & st & _ & ? & _).
Qed.

Lemma emit_hooks_run ts s r s' :
  emit_hooks ts s = (r, s') →
  same_counters s s' ∧ r ≠ OutOfFuel ∧
  ∃ evs called,
    trace s' = trace s ++ EvEmit ts (counter ts s) :: evs ∧
    calls_to s evs called ∧
    called `prefix_of` filter (λ nh, is_due ts (counter ts s) nh.2) (hooks s) ∧
    (∀ stop, r = Done stop →
       called = filter (λ nh, is_due ts (counter ts s) nh.2) (hooks s) ∧
       stop = signals_stop evs).
Proof.
  unfold emit_hooks, bind at 1 2, get, tell, modify. simpl.
  intros E. apply emit_loop_run in E as (Hc & Hf & evs & called & Htr & Hcalls & Hpre & Hdone).
  split; [done|]. split; [done|]. exists evs, called. simpl in *.
  rewrite Htr, <- app_assoc. done.
Qed.

Lemma NoDup_fst_functional {A B} (l : list (A * B)) x y1 y2 :
  NoDup l.*1 → (x, y1) ∈ l → (x, y2) ∈ l → y1 = y2.
Proof.
  induction l as [|[a b] l IH]; simpl; intros Hnd H1 H2.
  - by apply elem_of_nil in H1.
  - apply NoDup_cons in Hnd as [Ha Hnd].
    apply elem_of_cons in H1 as [H1|H1];
      apply elem_of_cons in H2 as [H2|H2]; simplify_eq; auto.
    + destruct Ha. apply list_elem_of_fmap. by exists (a, y2).
    + destruct Ha. apply list_elem_of_fmap. by exists (a, y1).
Qed.

Lemma elem_of_calls_of name (evs : list event) :
  name ∈ calls_of evs ↔ ∃ e u stop, EvHookCall name e u stop ∈ evs.
Proof.
  unfold calls_of. rewrite list_elem_of_omap. split.
  - intros (ev & Hin & Hev). destruct ev; simplify_eq. eauto.
  - intros (e & u & stop & Hin). eauto.
Qed.

(** C6: in a dispatch that returns, the hooks called are those whose
    timescale is the dispatch's and whose interval divides the counter
    looked at (the epoch number for ['epoch'], the update number
    otherwise), each once and in the order of [self.hooks]; a hook with
    [interval=2] and [timescale='update'] is therefore called in the
    dispatch at update count [c] exactly when [c] is even. *)
Theorem emit_hooks_calls_due_hooks ts s stop s' :
  NoDup (hooks s).*1 →
  emit_hooks ts s = (Done stop, s') →
  let new := drop (length (trace s)) (trace s') in
  calls_of new =
    (filter (λ nh, is_due ts (counter ts s) nh.2) (hooks s)).*1 ∧
  (∀ name hook, (name, hook) ∈ hooks s →
     name ∈ calls_of new ↔
     timescale hook = ts ∧ counter ts s `mod` interval hook = 0) ∧
  (∀ name hook, (name, hook) ∈ hooks s →
     timescale hook = "update" → interval hook = 2 → ts = "update" →
     name ∈ calls_of new ↔ Z.even (current_update_nr s) = true).
Proof.
  intros Hnd E new.
  apply emit_hooks_run in E as (Hc & _ & evs & cs & Htr & Hcalls & _ & Hdone).
  destruct (Hdone stop eq_refl) as [-> _]. clear Hdone.
  assert (Hnew : calls_of new =
    (filter (λ nh, is_due ts (counter ts s) nh.2) (hooks s)).*1).
  { subst new. rewrite Htr, drop_app_length.
    by rewrite <- (calls_to_calls_of _ _ _ Hcalls). }
  split; [done|].
  assert (Hdue : ∀ name hook, (name, hook) ∈ hooks s →
     name ∈ calls_of new ↔
     timescale hook = ts ∧ counter ts s `mod` interval hook = 0).
  { intros name hook Hin. rewrite Hnew, list_elem_of_fmap.
    split.
    - intros ([n h] & -> & Hf).
      apply list_elem_of_filter in Hf as [Hd Hin'].
      assert (h = hook) as -> by (by eapply NoDup_fst_functional).
      unfold is_due in Hd. simpl in Hd.
      apply andb_True in Hd as [Ht Hm].
      apply Is_true_true in Ht, Hm.
      by apply String.eqb_eq in Ht; apply Z.eqb_eq in Hm.
    - intros [Ht Hm]. exists (name, hook).
      split; [done|]. apply list_elem_of_filter. split; [|done].
      unfold is_due. simpl. apply andb_True.
      split; apply Is_true_true; [by apply String.eqb_eq|by apply Z.eqb_eq]. }
  split; [done|].
  intros name hook Hin Hts Hi ->. rewrite (Hdue name hook Hin), Hi.
  unfold counter. simpl. rewrite Zeven_bool_iff, Zeven_ex_iff.
  split.
  - intros [_ Hm]. exists (current_update_nr s `div` 2).
    pose proof (Z.div_mod (current_update_nr s) 2). lia.
  - intros [m ->]. split; [done|]. rewrite Z.mul_comm. apply Z.mod_mul. lia.
Qed.

(** *** [_start_hooks] and the start of [train] *)

Lemma start_loop_run hs s r s' :
  start_loop hs s = (r, s') →
  same_counters s s' ∧ r ≠ OutOfFuel ∧
  ∃ starts, trace s' = trace s ++ starts ∧
            Forall (λ e, is_start_event e = true) starts.
Proof.
  revert s. induction hs as [|[name hook] rest IH]; intros s; simpl.
  - intros [= <- <-]. split; [done|]. split; [done|].
    exists []. by rewrite app_nil_r.
  - destruct (hook_start hook) as [start|]; [|apply IH].
    unfold bind at 1 2, get, tell, modify. simpl.
    destruct (start (world s)) as [w|].
    + intros E. apply bind_run in E as [(a & s1 & [= <- <-] & E)|[(e & [=] & _)|[[=] _]]].
      apply IH in E as (Hc & Hf & starts & Htr & Hst).
      split; [done|]. split; [done|]. exists (EvHookStart name :: starts).
      split; [|by constructor]. simpl in Htr. by rewrite Htr, <- app_assoc.
    + intros [= <- <-]. split; [done|]. split; [done|]. exists [EvHookStart name].
      split; [done|]. by repeat constructor.
Qed.

Lemma train_start_run s r s' :
  train_start s = (r, s') →
  same_counters s s' ∧ r ≠ OutOfFuel ∧
  ((r = Raised AssertionError ∧ trace s' = trace s) ∨
   ∃ starts, trace s' = trace s ++ EvStepperStart :: starts ∧
             Forall (λ e, is_start_event e = true) starts).
Proof.
  unfold train_start, bind at 1, get.
  destruct (negb _).
  { intros [= <- <-]. split; [done|]. split; [done|]. by left. }
  unfold start_hooks, bind at 1 2 3 4, get, tell, modify. simpl.
  intros E. apply start_loop_run in E as (Hc & Hf & starts & Htr & Hst).
  split; [done|]. split; [done|]. right. exists starts. split; [|done].
  simpl in Htr. by rewrite Htr, <- app_assoc.
Qed.

(** Whatever the trainer does, it only adds to the record of events. *)
Definition grows {A} (m : M A) : Prop :=
  ∀ s r s', m s = (r, s') → ∃ evs, trace s' = trace s ++ evs.

Lemma grows_ret {A} (a : A) : grows (ret a).
Proof. intros s r s' [= <- <-]. exists []. by rewrite app_nil_r. Qed.

Lemma grows_bind {A B} (m : M A) (k : A → M B) :
  grows m → (∀ a, grows (k a)) → grows (bind m k).
Proof.
  intros Hm Hk s r s' E.
  apply bind_run in E as [(a & s1 & Em & E)|[(e & Em & ->)|[Em ->]]]; [|eauto..].
  apply Hm in Em as [evs1 E1]. apply Hk in E as [evs2 E2].
  exists (evs1 ++ evs2). by rewrite E2, E1, app_assoc.
Qed.

Lemma grows_get : grows get.
Proof. intros s r s' [= <- <-]. exists []. by rewrite app_nil_r. Qed.

Lemma grows_tell e : grows (tell e).
Proof. intros s r s' [= <- <-]. by exists [e]. Qed.

Lemma grows_modify f : (∀ s, trace (f s) = trace s) → grows (modify f).
Proof. intros Hf s r s' [= <- <-]. exists []. by rewrite app_nil_r, Hf. Qed.

Lemma grows_emit_hooks ts : grows (emit_hooks ts).
Proof.
  intros s r s' E. apply emit_hooks_run in E as (_ & _ & evs & cs & -> & _). eauto.
Qed.

Lemma grows_add_log_self name val : grows (add_log_self name val).
Proof.
  intros s r s' E. apply add_log_self_run in E as (-> & _).
  exists []. by rewrite app_nil_r.
Qed.

Lemma grows_provide data : grows (provide data).
Proof.
  unfold provide. apply grows_bind; [apply grows_tell|]. intros _.
  apply grows_bind; [apply grows_get|]. intros s. by apply grows_modify.
Qed.

Lemma grows_update_step i : grows (update_step i).
Proof.
  unfold update_step. apply grows_bind; [apply grows_get|]. intros s.
  apply grows_bind; [by apply grows_modify|]. intros _.
  apply grows_bind; [apply grows_tell|]. intros _.
  destruct (stepper_run (world s)) as [loss w].
  apply grows_bind; [by apply grows_modify|]. intros _.
  apply grows_bind; [apply grows_get|]. intros s1.
  apply grows_bind; [by apply grows_modify|]. intros _.
  apply grows_bind; [by apply grows_modify|]. intros _.
  apply grows_emit_hooks.
Qed.

Lemma grows_run_network_from body i iterator :
  (∀ i, grows (body i)) → grows (run_network_from body i iterator).
Proof.
  intros Hbody. revert i. induction iterator as [|data rest IH]; intros i; simpl.
  - apply grows_ret.
  - apply grows_bind; [apply grows_provide|]. intros _.
    apply grows_bind; [apply Hbody|]. intros [|]; [apply grows_ret|apply IH].
Qed.

Lemma grows_double_buffer_loop sched body i iterator :
  (∀ i, grows (body i)) → grows (double_buffer_loop sched body i iterator).
Proof.
  intros Hbody. revert i. induction iterator as [|data rest IH]; intros i; simpl.
  - apply grows_bind.
    + destruct (sched i).
      * apply grows_bind; [apply grows_ret|]. intros _. apply Hbody.
      * apply grows_bind; [apply Hbody|]. intros brk.
        apply grows_bind; [apply grows_ret|]. intros _. apply grows_ret.
    + intros [|]; apply grows_ret.
  - apply grows_bind.
    + destruct (sched i).
      * apply grows_bind; [apply grows_provide|]. intros _. apply Hbody.
      * apply grows_bind; [apply Hbody|]. intros brk.
        apply grows_bind; [apply grows_provide|]. intros _. apply grows_ret.
    + intros [|]; [apply grows_ret|apply IH].
Qed.

Lemma grows_train_epoch sched : grows (train_epoch sched).
Proof.
  unfold train_epoch. apply grows_bind; [apply grows_get|]. intros s.
  apply grows_bind; [by apply grows_modify|]. intros _.
  apply grows_bind.
  { destruct (double_buffering s).
    - unfold run_network_double_buffer.
      destruct (training_data_getter _); [apply grows_ret|].
      apply grows_bind; [apply grows_provide|]. intros _.
      apply grows_double_buffer_loop, grows_update_step.
    - apply grows_run_network_from, grows_update_step. }
  intros _. apply grows_bind; [apply grows_get|]. intros s1.
  apply grows_bind; [apply grows_add_log_self|]. intros _.
  apply grows_emit_hooks.
Qed.

Lemma grows_train_epochs sched fuel : grows (train_epochs sched fuel).
Proof.
  induction fuel as [|fuel IH]; simpl.
  - intros s r s' [= <- <-]. exists []. by rewrite app_nil_r.
  - apply grows_bind; [apply grows_get|]. intros s.
    apply grows_bind; [by apply grows_modify|]. intros _.
    apply grows_bind; [apply grows_tell|]. intros _.
    apply grows_bind; [apply grows_train_epoch|].
    intros [|]; [apply grows_ret|apply IH].
Qed.

(** The first thing the loop does is to count the epoch. *)
Lemma train_epochs_head sched fuel s r s' :
  train_epochs sched fuel s = (r, s') →
  (r = OutOfFuel ∧ s' = s) ∨
  ∃ rest, trace s' = trace s ++ EvEpoch (current_epoch_nr s + 1) :: rest.
Proof.
  destruct fuel as [|fuel]; simpl.
  - intros [= <- <-]. by left.
  - unfold bind at 1 2 3, get, modify, tell. simpl. intros E. right.
    assert (Hg : grows (let* stop := train_epoch sched in
                        if stop then ret tt else train_epochs sched fuel)).
    { apply grows_bind; [apply grows_train_epoch|].
      intros [|]; [apply grows_ret|apply grows_train_epochs]. }
    apply Hg in E as [evs E]. simpl in E. exists evs.
    by rewrite E, <- app_assoc.
Qed.

Lemma signals_stop_app (evs1 evs2 : list event) :
  signals_stop (evs1 ++ evs2) = signals_stop evs1 || signals_stop evs2.
Proof. apply existsb_app. Qed.

Lemma signals_stop_starts (evs : list event) :
  Forall (λ e, is_start_event e = true) evs → signals_stop evs = false.
Proof.
  induction 1 as [|e evs He _ IH]; [done|].
  simpl. rewrite IH. by destruct e.
Qed.

Lemma not_training_starts (evs : list event) :
  Forall (λ e, is_start_event e = true) evs →
  Forall (λ e, is_training_event e = false) evs.
Proof. intros Hf. eapply Forall_impl; [done|]. by intros []. Qed.

Lemma not_training_calls (evs : list event) :
  Forall (λ e, is_call_event e = true) evs →
  Forall (λ e, is_training_event e = false) evs.
Proof. intros Hf. eapply Forall_impl; [done|]. by intros []. Qed.

(** *** The feeders *)

Definition feed (w : World) (iterator : list Batch) : World :=
  foldl (λ w data, provide_external_data data w) w iterator.

Lemma provide_run data s :
  ∃ s', provide data s = (Done tt, s') ∧
        provided (trace s') = provided (trace s) ++ [data] ∧
        yielded (trace s') = yielded (trace s) ∧
        world s' = provide_external_data data (world s).
Proof.
  eexists. split; [reflexivity|]. simpl.
  unfold provided, yielded. rewrite !omap_app. simpl.
  by rewrite app_nil_r.
Qed.

Lemma consume_all_run i s :
  ∃ s', consume_all i s = (Done false, s') ∧
        provided (trace s') = provided (trace s) ∧
        yielded (trace s') = yielded (trace s) ++ [i] ∧
        world s' = world s.
Proof.
  eexists. split; [reflexivity|]. simpl.
  unfold provided, yielded. rewrite !omap_app. simpl.
  by rewrite app_nil_r.
Qed.

Lemma run_network_from_consume_all i iterator s :
  ∃ s', run_network_from consume_all i iterator s = (Done tt, s') ∧
        provided (trace s') = provided (trace s) ++ iterator ∧
        yielded (trace s') = yielded (trace s) ++ seq i (length iterator) ∧
        world s' = feed (world s) iterator.
Proof.
  revert i s. induction iterator as [|data rest IH]; intros i s; simpl.
  - exists s. by rewrite !app_nil_r.
  - destruct (provide_run data s) as (s1 & E1 & P1 & Y1 & W1).
    destruct (consume_all_run i s1) as (s2 & E2 & P2 & Y2 & W2).
    destruct (IH (S i) s2) as (s' & E' & P' & Y' & W').
    exists s'. unfold bind at 1. rewrite E1. unfold bind at 1. rewrite E2.
    split; [done|]. rewrite P', Y', W', P2, Y2, W2, P1, Y1, W1.
    by rewrite <- !app_assoc.
Qed.

Lemma double_buffer_loop_consume_all sched i iterator s :
  ∃ s', double_buffer_loop sched consume_all i iterator s = (Done tt, s') ∧
        provided (trace s') = provided (trace s) ++ iterator ∧
        yielded (trace s') = yielded (trace s) ++ seq i (S (length iterator)) ∧
        world s' = feed (world s) iterator.
Proof.
  revert i s. induction iterator as [|data rest IH]; intros i s.
  - destruct (consume_all_run i s) as (s1 & E1 & P1 & Y1 & W1).
    exists s1. rewrite app_nil_r. split; [|done].
    cbn [double_buffer_loop run_it]. unfold bind at 1.
    destruct (sched i).
    + change ((ret tt ;;; consume_all i) s) with (consume_all i s).
      by rewrite E1.
    + unfold bind at 1. by rewrite E1.
  - simpl. destruct (sched i).
    + destruct (provide_run data s) as (s1 & E1 & P1 & Y1 & W1).
      destruct (consume_all_run i s1) as (s2 & E2 & P2 & Y2 & W2).
      destruct (IH (S i) s2) as (s' & E' & P' & Y' & W').
      exists s'. unfold bind at 1 2. rewrite E1, E2.
      split; [done|]. rewrite P', Y', W', P2, Y2, W2, P1, Y1, W1.
      by rewrite <- !app_assoc.
    + destruct (consume_all_run i s) as (s1 & E1 & P1 & Y1 & W1).
      destruct (provide_run data s1) as (s2 & E2 & P2 & Y2 & W2).
      destruct (IH (S i) s2) as (s' & E' & P' & Y' & W').
      exists s'. unfold bind at 1 2. rewrite E1. unfold bind at 1. rewrite E2.
      split; [done|]. rewrite P', Y', W', P2, Y2, W2, P1, Y1, W1.
      by rewrite <- !app_assoc.
Qed.

(** C9: on the same finite iterator, taken to its end, the
    double-buffered feeder and the plain one both return, provide the
    network with the batches of the iterator, each once and in the
    iterator's order, yield as many times as there are batches (the
    indices [0, 1, ...]), and leave the network's inputs in the same
    state; this holds on whichever side of the consumer's work the
    fetching thread's effect lands. *)
Theorem feeders_provide_the_same_batches sched iterator s :
  ∃ s_db s_st,
    run_network_double_buffer sched consume_all iterator s = (Done tt, s_db) ∧
    run_network consume_all iterator s = (Done tt, s_st) ∧
    provided (trace s_db) = provided (trace s) ++ iterator ∧
    provided (trace s_st) = provided (trace s) ++ iterator ∧
    yielded (trace s_db) = yielded (trace s) ++ seq 0 (length iterator) ∧
    yielded (trace s_st) = yielded (trace s) ++ seq 0 (length iterator) ∧
    world s_db = world s_st.
Proof.
  destruct (run_network_from_consume_all 0 iterator s) as (s_st & Est & Pst & Yst & Wst).
  assert (∃ s_db,
    run_network_double_buffer sched consume_all iterator s = (Done tt, s_db) ∧
    provided (trace s_db) = provided (trace s) ++ iterator ∧
    yielded (trace s_db) = yielded (trace s) ++ seq 0 (length iterator) ∧
    world s_db = feed (world s) iterator) as (s_db & Edb & Pdb & Ydb & Wdb).
  { destruct iterator as [|data rest]; simpl.
    - exists s. by rewrite !app_nil_r.
    - destruct (provide_run data s) as (s1 & E1 & P1 & Y1 & W1).
      destruct (double_buffer_loop_consume_all sched 0 rest s1)
        as (s' & E' & P' & Y' & W').
      exists s'. unfold bind at 1. rewrite E1.
      split; [done|]. rewrite P', Y', W', P1, Y1, W1.
      by rewrite <- !app_assoc. }
  exists s_db, s_st. unfold run_network. rewrite Wdb, Wst. done.
Qed.

End TrainingProofs.

(** *** The scripted run *)

Lemma emit_hooks_calls_due_hooks_witness :
  let s := set_update_nr 4 (script_trainer false
             [("every2", every_second_update); ("stop", stop_after_first_epoch)]) in
  "every2" ∈ calls_of (drop (length (trace s)) (trace (emit_hooks "update" s).2)).
Proof.
  intros s.
  refine (proj2 (proj2 (proj2 (emit_hooks_calls_due_hooks "update" s false
            (emit_hooks "update" s).2 _ _)) "every2" every_second_update _ _ _ _) _).
  - apply (bool_decide_unpack _). vm_compute. exact I.
  - vm_compute. reflexivity.
  - apply list_elem_of_here.
  - reflexivity.
  - reflexivity.
  - reflexivity.
  - reflexivity.
Defined.

(** Ten updates: the hook at every second update is called at the
    baseline and at the update counts 2, 4, 6, 8 and 10. *)
Example ten_updates :
  let s := script_trainer false
             [("every2", every_second_update); ("stop", stop_after_first_epoch)] in
  let '(r, s') := train (λ _, false) 3 s in
  r = Done tt ∧
  called_at "every2" (trace s') = [0; 2; 4; 6; 8; 10] ∧
  current_update_nr s' = 10 ∧ current_epoch_nr s' = 1.
Proof. vm_compute. repeat split; reflexivity. Qed.

Example stop_at_baseline :
  let s := script_trainer true
             [("every2", every_second_update); ("stop", stop_at_once)] in
  let '(r, s') := train (λ _, true) 3 s in
  r = Done tt ∧
  trace s' = [EvStepperStart; EvEmit "epoch" 0; EvHookCall "stop" 0 0 true] ∧
  current_update_nr s' = 0 ∧ current_epoch_nr s' = 0.
Proof. vm_compute. repeat split; reflexivity. Qed.

Example feeders_on_three_batches :
  let s := script_trainer true [] in
  provided (trace (run_network_double_buffer (λ i, Nat.even i) consume_all [7; 8; 9]%nat s).2)
    = [7; 8; 9]%nat ∧
  trace (run_network_double_buffer (λ i, Nat.even i) consume_all [7; 8; 9]%nat s).2
    = [EvProvide 7; EvProvide 8; EvYield 0; EvYield 1; EvProvide 9; EvYield 2]%nat ∧
  trace (run_network consume_all [7; 8; 9]%nat s).2
    = [EvProvide 7; EvYield 0; EvProvide 8; EvYield 1; EvProvide 9; EvYield 2]%nat.
Proof. vm_compute. repeat split; reflexivity. Qed.

(** ** Tensors: shapes, entries, slots *)

Section TensorLemmas.
Context {K : Type} `{Backend K}.
Implicit Types (m out : mat K) (buf : list (mat K)) (v : vec K).
Implicit Types (r c n i j s T : nat).
#[local] Open Scope nat_scope.

(** The slot at a position counted from the start. *)
Definition sl buf (s : nat) : mat K := default [] (buf !! s).

Lemma length_each2 f out : length (each2 f out) = length out.
Proof. apply length_imap. Qed.

Lemma mat_shape_each2 r c f out : mat_shape r c out → mat_shape r c (each2 f out).
Proof.
  intros [Hr Hc]. split; [by rewrite length_each2|].
  apply Forall_forall. intros row Hin.
  apply elem_of_lookup_imap in Hin as (i & row0 & -> & Hrow0).
  rewrite length_imap. rewrite Forall_forall in Hc.
  apply Hc. by eapply list_elem_of_lookup_2.
Qed.

Lemma mat_shape_lookup r c m i :
  mat_shape r c m → i < r → ∃ row, m !! i = Some row ∧ length row = c.
Proof.
  intros [Hr Hc] Hi. destruct (lookup_lt_is_Some_2 m i) as [row Hrow]; [lia|].
  exists row. split; [done|]. rewrite Forall_forall in Hc.
  apply Hc. by eapply list_elem_of_lookup_2.
Qed.

(** An entry of a destination after an operation wrote it. *)
Lemma mget_each2 r c f out i j :
  mat_shape r c out → i < r → j < c →
  mget (each2 f out) i j = f i j (mget out i j).
Proof.
  intros Hs Hi Hj. destruct (mat_shape_lookup _ _ _ _ Hs Hi) as (row & Hrow & Hlen).
  destruct (lookup_lt_is_Some_2 row j) as [x Hx]; [lia|].
  unfold mget, each2. rewrite list_lookup_imap, Hrow.
  change (default [] (imap (f i) <$> Some row)) with (imap (f i) row).
  unfold vget. rewrite list_lookup_imap, Hx. simpl. by rewrite Hx.
Qed.

Lemma length_each1 f v : length (each1 f v) = length v.
Proof. apply length_imap. Qed.

Lemma vget_each1 f v j :
  j < length v → vget (each1 f v) j = f j (vget v j).
Proof.
  intros Hj. destruct (lookup_lt_is_Some_2 v j) as [x Hx]; [lia|].
  unfold vget, each1. by rewrite list_lookup_imap, Hx.
Qed.

Lemma mget_reshape_row v j : mget (reshape_row v) 0 j = vget v j.
Proof. done. Qed.

(** *** Python indices on a buffer of [S T] slots *)

Lemma pyidx_nat n (t : nat) : t < n → pyidx n (Z.of_nat t) = Some t.
Proof.
  intros Ht. unfold pyidx.
  destruct (Z.ltb_spec (Z.of_nat t) 0); [lia|].
  destruct (Z.leb_spec 0 (Z.of_nat t)); [|lia].
  destruct (Z.ltb_spec (Z.of_nat t) (Z.of_nat n)); [|lia].
  simpl. by rewrite Nat2Z.id.
Qed.

(** The slot before [t]: the context slot, the last one, for [t = 0]. *)
Definition before (T t : nat) : nat :=
  match t with
  | O => T
  | S t' => t'
  end.

Lemma pyidx_pred T (t : nat) :
  t < S T → pyidx (S T) (Z.of_nat t - 1) = Some (before T t).
Proof.
  intros Ht. destruct t as [|t]; simpl.
  - unfold pyidx. change (Z.of_nat 0 - 1 <? 0)%Z with true. cbv iota.
    destruct (Z.leb_spec 0 (Z.of_nat 0 - 1 + Z.of_nat (S T))); [|lia].
    destruct (Z.ltb_spec (Z.of_nat 0 - 1 + Z.of_nat (S T)) (Z.of_nat (S T))); [|lia].
    cbv iota. simpl andb. cbv iota. f_equal. lia.
  - replace (Z.of_nat (S t) - 1)%Z with (Z.of_nat t) by lia.
    apply pyidx_nat. lia.
Qed.

Lemma pyidx_succ n (t : nat) :
  S t < n → pyidx n (Z.of_nat t + 1) = Some (S t).
Proof.
  intros Ht. replace (Z.of_nat t + 1)%Z with (Z.of_nat (S t)) by lia.
  by apply pyidx_nat.
Qed.

Lemma pyidx_last T : pyidx (S T) (-1) = Some T.
Proof. apply (pyidx_pred T 0). lia. Qed.

Lemma before_ne T t : t < T → before T t ≠ t.
Proof. destruct t; simpl; lia. Qed.

Lemma before_lt T t : t < T → before T t < S T.
Proof. destruct t; simpl; lia. Qed.

(** *** Reading and writing slots *)

Lemma length_set_slot buf t f : length (set_slot buf t f) = length buf.
Proof. unfold set_slot. destruct (pyidx _ _); [apply length_insert|done]. Qed.

Lemma slot_sl n buf t s :
  length buf = n → pyidx n t = Some s → slot buf t = sl buf s.
Proof. intros <- Hs. unfold slot. by rewrite Hs. Qed.

Lemma set_slot_insert n buf t s f :
  length buf = n → pyidx n t = Some s →
  set_slot buf t f = <[s := f (sl buf s)]> buf.
Proof.
  intros <- Hs. unfold set_slot. rewrite Hs. f_equal. f_equal.
  by apply (slot_sl (length buf)).
Qed.

Lemma pyidx_lt n t s : pyidx n t = Some s → s < n.
Proof.
  unfold pyidx. destruct (_ && _) eqn:E; [|done]. intros [= <-].
  apply andb_prop in E as [E1 E2].
  apply Z.leb_le in E1. apply Z.ltb_lt in E2. lia.
Qed.

Lemma sl_insert_eq buf s x : s < length buf → sl (<[s := x]> buf) s = x.
Proof. intros Hs. unfold sl. by rewrite list_lookup_insert_eq. Qed.

Lemma sl_insert_ne buf s s' x : s ≠ s' → sl (<[s := x]> buf) s' = sl buf s'.
Proof. intros Hs. unfold sl. by rewrite list_lookup_insert_ne. Qed.

Lemma slot_set_slot_eq n buf t s f :
  length buf = n → pyidx n t = Some s →
  slot (set_slot buf t f) t = f (slot buf t).
Proof.
  intros Hn Hs. rewrite (slot_sl n _ t s); [|by rewrite length_set_slot|done].
  rewrite (set_slot_insert n _ t s) by done.
  rewrite sl_insert_eq; [|rewrite Hn; by eapply pyidx_lt].
  by rewrite (slot_sl n buf t s).
Qed.

Lemma slot_set_slot_ne n buf t t' s s' f :
  length buf = n → pyidx n t = Some s → pyidx n t' = Some s' → s ≠ s' →
  slot (set_slot buf t f) t' = slot buf t'.
Proof.
  intros Hn Hs Hs' Hne.
  rewrite (slot_sl n _ t' s'); [|by rewrite length_set_slot|done].
  rewrite (set_slot_insert n _ t s) by done.
  rewrite sl_insert_ne by done. by rewrite (slot_sl n buf t' s').
Qed.

Lemma sl_set_slot_ne n buf t s s' f :
  length buf = n → pyidx n t = Some s → s ≠ s' →
  sl (set_slot buf t f) s' = sl buf s'.
Proof.
  intros Hn Hs Hne. rewrite (set_slot_insert n _ t s) by done.
  by rewrite sl_insert_ne.
Qed.

Lemma buf_shape_sl n r c buf s :
  buf_shape n r c buf → s < n → mat_shape r c (sl buf s).
Proof.
  intros [Hn Hall] Hs. unfold sl.
  destruct (lookup_lt_is_Some_2 buf s) as [m Hm]; [lia|].
  rewrite Hm. simpl. rewrite Forall_forall in Hall.
  apply Hall. by eapply list_elem_of_lookup_2.
Qed.

Lemma buf_shape_slot n r c buf t s :
  buf_shape n r c buf → pyidx n t = Some s → mat_shape r c (slot buf t).
Proof.
  intros Hb Hs. rewrite (slot_sl n _ t s); [|apply Hb|done].
  eapply buf_shape_sl; [done|]. by eapply pyidx_lt.
Qed.

Lemma buf_shape_set_slot n r c buf t f :
  (∀ m, mat_shape r c m → mat_shape r c (f m)) →
  buf_shape n r c buf → buf_shape n r c (set_slot buf t f).
Proof.
  intros Hf [Hn Hall]. split; [by rewrite length_set_slot|].
  unfold set_slot. destruct (pyidx _ _) as [s|] eqn:Hs; [|done].
  apply Forall_insert; [done|]. apply Hf.
  eapply buf_shape_slot; [split; done|]. by rewrite <- Hn.
Qed.

End TensorLemmas.

(** ** [forward_pass]: what it leaves alone *)

Section ForwardFrame.
Context {K : Type} `{Backend K}.
Implicit Types (b : BufferSet K) (act : activation).

(** Everything but the output buffer and the ten forward internals. *)
Definition untouched_by_forward b b' : Prop :=
  inputs b' = inputs b ∧
  input_deltas b' = input_deltas b ∧
  output_deltas b' = output_deltas b ∧
  parameters b' = parameters b ∧
  parameters_vec b' = parameters_vec b ∧
  gradients b' = gradients b ∧
  gradients_vec b' = gradients_vec b ∧
  ∀ n, is_forward_internal n = false → internals b' n = internals b n.

Lemma untouched_by_forward_trans b1 b2 b3 :
  untouched_by_forward b1 b2 → untouched_by_forward b2 b3 →
  untouched_by_forward b1 b3.
Proof.
  intros (?&?&?&?&?&?&?&Hi) (?&?&?&?&?&?&?&Hi').
  repeat split; try congruence.
  intros n Hn. by rewrite Hi', Hi.
Qed.

Lemma forward_bulk_frame b : untouched_by_forward b (forward_bulk b).
Proof.
  repeat split. intros n Hn. by destruct n.
Qed.

Lemma forward_step_frame act b t : untouched_by_forward b (forward_step act b t).
Proof.
  repeat split. intros n Hn. by destruct n.
Qed.



End ForwardFrame.


(** ** Running the statements of a time step

    Within one time step every write goes to the slot of that step.  The
    buffers in the course of the step are therefore the buffers at its
    start with that slot replaced, and a description of the replaced
    slots is carried from statement to statement. *)

Section SlotStates.
Context {K : Type} `{Backend K}.
Implicit Types (b bk : BufferSet K) (m out : mat K) (buf : list (mat K)).
Implicit Types (v : internal_name → mat K) (n : internal_name).
Implicit Types (r c i j s t T B N F : nat).
#[local] Open Scope nat_scope.

Definition fn_upd v n (x : mat K) : internal_name → mat K :=
  λ n', if decide (n' = n) then x else v n'.

Lemma fn_upd_eq v n x : fn_upd v n x n = x.
Proof. unfold fn_upd. by rewrite decide_True. Qed.

Lemma fn_upd_ne v n n' x : n' ≠ n → fn_upd v n x n' = v n'.
Proof. intros Hn. unfold fn_upd. by rewrite decide_False. Qed.

(** [bk] is [b] with slot [t] of the internals replaced by [v] and slot
    [t] of the output by [vy]. *)
Definition slots_replaced b t v (vy : mat K) bk : Prop :=
  (∀ n, internals bk n = <[t := v n]> (internals b n)) ∧
  outputs bk = <[t := vy]> (outputs b) ∧
  inputs bk = inputs b ∧
  input_deltas bk = input_deltas b ∧
  output_deltas bk = output_deltas b ∧
  parameters bk = parameters b ∧
  parameters_vec bk = parameters_vec b ∧
  gradients bk = gradients b ∧
  gradients_vec bk = gradients_vec b.

Lemma insert_sl_id buf s : <[s := sl buf s]> buf = buf.
Proof.
  unfold sl. destruct (buf !! s) as [m|] eqn:E; simpl.
  - by apply list_insert_id.
  - apply list_insert_ge. by apply lookup_ge_None.
Qed.

Lemma slots_replaced_init b t :
  slots_replaced b t (λ n, sl (internals b n) t) (sl (outputs b) t) b.
Proof.
  split; [|split]; [| |done].
  - intros n. by rewrite insert_sl_id.
  - by rewrite insert_sl_id.
Qed.

Lemma set_slot_replaced (len : nat) buf t (x : mat K) f :
  length buf = len → t < len →
  set_slot (<[t := x]> buf) (Z.of_nat t) f = <[t := f x]> buf.
Proof.
  intros Hn Ht.
  rewrite (set_slot_insert len _ _ t); [|by rewrite length_insert|by apply pyidx_nat].
  rewrite sl_insert_eq by lia. apply list_insert_insert_eq.
Qed.

Lemma slots_replaced_into T b t v vy bk n f :
  (∀ n, length (internals b n) = S T) → t < S T →
  slots_replaced b t v vy bk →
  slots_replaced b t (fn_upd v n (f (v n))) vy (into n (Z.of_nat t) f bk).
Proof.
  intros Hlen Ht (Hi & Hrest). split; [|done].
  intros n'. unfold into, fn_upd. simpl. destruct (decide (n' = n)) as [->|]; [|done].
  rewrite Hi. by apply (set_slot_replaced (S T)).
Qed.

Lemma slots_replaced_into_y T b t v vy bk f :
  length (outputs b) = S T → t < S T →
  slots_replaced b t v vy bk →
  slots_replaced b t v (f vy) (into_y (Z.of_nat t) f bk).
Proof.
  intros Hlen Ht (Hi & Hy & Hrest). split; [done|]. split; [|done].
  unfold into_y. simpl. rewrite Hy. by apply (set_slot_replaced (S T)).
Qed.

(** Reading the slot of the step, and any other slot. *)
Lemma slots_replaced_slot T b t v vy bk n :
  (∀ n, length (internals b n) = S T) → t < S T →
  slots_replaced b t v vy bk →
  slot (internals bk n) (Z.of_nat t) = v n.
Proof.
  intros Hlen Ht (Hi & _). rewrite Hi.
  rewrite (slot_sl (S T) _ _ t); [|by rewrite length_insert|by apply pyidx_nat].
  apply sl_insert_eq. rewrite Hlen. lia.
Qed.

Lemma slots_replaced_slot_other T b t v vy bk n z s :
  (∀ n, length (internals b n) = S T) →
  slots_replaced b t v vy bk →
  pyidx (S T) z = Some s → s ≠ t →
  slot (internals bk n) z = sl (internals b n) s.
Proof.
  intros Hlen (Hi & _) Hz Hs. rewrite Hi.
  rewrite (slot_sl (S T) _ _ s); [|by rewrite length_insert|done].
  by apply sl_insert_ne.
Qed.

Lemma slots_replaced_slot_y T b t v vy bk :
  length (outputs b) = S T → t < S T →
  slots_replaced b t v vy bk →
  slot (outputs bk) (Z.of_nat t) = vy.
Proof.
  intros Hlen Ht (_ & Hy & _). rewrite Hy.
  rewrite (slot_sl (S T) _ _ t); [|by rewrite length_insert|by apply pyidx_nat].
  apply sl_insert_eq. rewrite Hlen. lia.
Qed.

Lemma slots_replaced_slot_y_other T b t v vy bk z s :
  length (outputs b) = S T →
  slots_replaced b t v vy bk →
  pyidx (S T) z = Some s → s ≠ t →
  slot (outputs bk) z = sl (outputs b) s.
Proof.
  intros Hlen (_ & Hy & _) Hz Hs. rewrite Hy.
  rewrite (slot_sl (S T) _ _ s); [|by rewrite length_insert|done].
  by apply sl_insert_ne.
Qed.

(** *** The operations of the handler, entry by entry *)

Lemma ncols_shape r c m : mat_shape r c m → 0 < r → ncols m = c.
Proof.
  intros Hs Hr. destruct (mat_shape_lookup _ _ _ 0 Hs Hr) as (row & Hrow & Hlen).
  unfold ncols. by rewrite Hrow.
Qed.

Lemma dot_add_mm_entry r c a bm ta tb out i j :
  mat_shape r c out → i < r → j < c →
  mget (dot_add_mm a bm ta tb out) i j
  = (mget out i j + dot_entry a bm ta tb i j)%K.
Proof. intros. unfold dot_add_mm. by erewrite mget_each2. Qed.

Lemma dot_mm_entry r c a bm ta tb out i j :
  mat_shape r c out → i < r → j < c →
  mget (dot_mm a bm ta tb out) i j = dot_entry a bm ta tb i j.
Proof. intros. unfold dot_mm. by erewrite mget_each2. Qed.

Lemma add_mv_entry r c a (w : vec K) out i j :
  mat_shape r c out → i < r → j < c →
  mget (add_mv a (reshape_row w) out) i j = (mget a i j + vget w j)%K.
Proof. intros. unfold add_mv. by erewrite mget_each2. Qed.

Lemma mult_add_mv_entry r c a (w : vec K) out i j :
  mat_shape r c out → i < r → j < c →
  mget (mult_add_mv a (reshape_row w) out) i j
  = (mget out i j + mget a i j * vget w j)%K.
Proof. intros. unfold mult_add_mv. by erewrite mget_each2. Qed.

Lemma add_tt_entry r c a a' out i j :
  mat_shape r c out → i < r → j < c →
  mget (add_tt a a' out) i j = (mget a i j + mget a' i j)%K.
Proof. intros. unfold add_tt. by erewrite mget_each2. Qed.

Lemma mult_tt_entry r c a a' out i j :
  mat_shape r c out → i < r → j < c →
  mget (mult_tt a a' out) i j = (mget a i j * mget a' i j)%K.
Proof. intros. unfold mult_tt. by erewrite mget_each2. Qed.

Lemma mult_add_tt_entry r c a a' out i j :
  mat_shape r c out → i < r → j < c →
  mget (mult_add_tt a a' out) i j = (mget out i j + mget a i j * mget a' i j)%K.
Proof. intros. unfold mult_add_tt. by erewrite mget_each2. Qed.

Lemma copy_to_entry r c a out i j :
  mat_shape r c out → i < r → j < c →
  mget (copy_to a out) i j = mget a i j.
Proof. intros. unfold copy_to. by erewrite mget_each2. Qed.

Lemma sigmoid_entry r c x out i j :
  mat_shape r c out → i < r → j < c →
  mget (sigmoid x out) i j = sigmoid1 (mget x i j).
Proof. intros. unfold sigmoid. by erewrite mget_each2. Qed.

Lemma sigmoid_deriv_entry r c x y dy out i j :
  mat_shape r c out → i < r → j < c →
  mget (sigmoid_deriv x y dy out) i j
  = sigmoid_deriv1 (mget x i j) (mget y i j) (mget dy i j).
Proof. intros. unfold sigmoid_deriv. by erewrite mget_each2. Qed.

Lemma act_func_entry act r c x out i j :
  mat_shape r c out → i < r → j < c →
  mget (act_func act x out) i j = act1 act (mget x i j).
Proof.
  intros. destruct act; simpl;
    unfold sigmoid, tanh, copy_to, rel; by erewrite mget_each2.
Qed.

(** The derivative of the configured activation in the form the handler
    has it: from [(x, y, dy)] to [dx]. *)
Definition act_deriv1 (act : activation) (x y dy : K) : K :=
  match act with
  | act_sigmoid => sigmoid_deriv1 x y dy
  | act_tanh => tanh_deriv1 x y dy
  | act_linear => dy
  | act_rel => rel_deriv1 x y dy
  end.

Lemma act_func_deriv_entry act r c x y dy out i j :
  mat_shape r c out → i < r → j < c →
  mget (act_func_deriv act x y dy out) i j
  = act_deriv1 act (mget x i j) (mget y i j) (mget dy i j).
Proof.
  intros. destruct act; simpl;
    unfold sigmoid_deriv, tanh_deriv, copy_to, rel_deriv; by erewrite mget_each2.
Qed.

Lemma mat_shape_act_func r c act x out :
  mat_shape r c out → mat_shape r c (act_func act x out).
Proof. intros. destruct act; by apply mat_shape_each2. Qed.

Lemma mat_shape_act_func_deriv r c act x y dy out :
  mat_shape r c out → mat_shape r c (act_func_deriv act x y dy out).
Proof. intros. destruct act; by apply mat_shape_each2. Qed.

End SlotStates.

(** The shape of a destination after any operation. *)
Ltac shape :=
  repeat first
    [ eassumption
    | apply mat_shape_act_func
    | apply mat_shape_act_func_deriv
    | apply mat_shape_each2 ].

(** ** [forward_pass]: one time step *)

(** [run] is stepped through with [run_cons]; conversion has no need to
    run a program. *)
Strategy 1000 [run].

Section ForwardStep.
Context {K : Type} `{Backend K}.
Implicit Types (b bk : BufferSet K) (m out : mat K) (buf : list (mat K)).
Implicit Types (r c i j s t T B N F : nat).
#[local] Open Scope nat_scope.

Lemma well_shaped_lengths T B N F b :
  well_shaped T B N F b →
  (∀ n, length (internals b n) = S T) ∧ length (outputs b) = S T.
Proof.
  intros Hws. split.
  - intros n. apply (ws_internals _ _ _ _ _ Hws).
  - apply (ws_outputs _ _ _ _ _ Hws).
Qed.

(** The equations of one cell at one time step, on scalars: [pre] is
    what the input contributes to the four pre-activations, [rec_] what
    the previous output contributes, [c_prev] the previous cell state,
    [w] the peephole weights and biases, [E] the values the step leaves
    in the internals and [y] the output. *)
Definition step_equations (act : activation)
    (pre : internal_name → K) (rec_ : weight_name → K) (c_prev : K)
    (w : vector_name → K) (E : internal_name → K) (y : K) : Prop :=
  E Za = (pre Za + rec_ Rz + w bz)%K ∧
  E Zb = act1 act (E Za) ∧
  E Ia = (pre Ia + rec_ Ri + c_prev * w Wci + w bi)%K ∧
  E Ib = sigmoid1 (E Ia) ∧
  E Fa = (pre Fa + rec_ Rf + c_prev * w Wcf + w bf)%K ∧
  E Fb = sigmoid1 (E Fa) ∧
  E Ca = (E Ib * E Zb + E Fb * c_prev)%K ∧
  E Oa = (pre Oa + rec_ Ro + E Ca * w Wco + w bo)%K ∧
  E Ob = sigmoid1 (E Oa) ∧
  E Cb = act1 act (E Ca) ∧
  y = (E Ob * E Cb)%K.

Lemma run_cons {S : Type} (stmt : S → S) prog (s : S) :
  run (stmt :: prog) s = run prog (stmt s).
Proof. done. Qed.

Ltac shape0 :=
  repeat first
    [ eassumption
    | match goal with Hs : ∀ n, mat_shape _ _ _ |- _ => apply Hs end
    | apply mat_shape_act_func
    | apply mat_shape_act_func_deriv
    | apply mat_shape_each2 ].

(** The entries of the value an operation leaves in its destination. *)
Ltac entry_fact B N val He :=
  lazymatch val with
  | dot_add_mm ?a ?bm ?ta ?tb ?out =>
      assert (He : ∀ i j, i < B → j < N →
                mget val i j = (mget out i j + dot_entry a bm ta tb i j)%K)
        by (intros; apply (dot_add_mm_entry B N); [shape0|done|done])
  | add_mv ?a (reshape_row ?w) ?out =>
      assert (He : ∀ i j, i < B → j < N →
                mget val i j = (mget a i j + vget w j)%K)
        by (intros; apply (add_mv_entry B N); [shape0|done|done])
  | mult_add_mv ?a (reshape_row ?w) ?out =>
      assert (He : ∀ i j, i < B → j < N →
                mget val i j = (mget out i j + mget a i j * vget w j)%K)
        by (intros; apply (mult_add_mv_entry B N); [shape0|done|done])
  | add_tt ?a ?a' ?out =>
      assert (He : ∀ i j, i < B → j < N →
                mget val i j = (mget a i j + mget a' i j)%K)
        by (intros; apply (add_tt_entry B N); [shape0|done|done])
  | mult_tt ?a ?a' ?out =>
      assert (He : ∀ i j, i < B → j < N →
                mget val i j = (mget a i j * mget a' i j)%K)
        by (intros; apply (mult_tt_entry B N); [shape0|done|done])
  | mult_add_tt ?a ?a' ?out =>
      assert (He : ∀ i j, i < B → j < N →
                mget val i j = (mget out i j + mget a i j * mget a' i j)%K)
        by (intros; apply (mult_add_tt_entry B N); [shape0|done|done])
  | copy_to ?a ?out =>
      assert (He : ∀ i j, i < B → j < N → mget val i j = mget a i j)
        by (intros; apply (copy_to_entry B N); [shape0|done|done])
  | sigmoid ?x ?out =>
      assert (He : ∀ i j, i < B → j < N →
                mget val i j = sigmoid1 (mget x i j))
        by (intros; apply (sigmoid_entry B N); [shape0|done|done])
  | sigmoid_deriv ?x ?y ?dy ?out =>
      assert (He : ∀ i j, i < B → j < N →
                mget val i j
                = sigmoid_deriv1 (mget x i j) (mget y i j) (mget dy i j))
        by (intros; apply (sigmoid_deriv_entry B N); [shape0|done|done])
  | act_func ?act ?x ?out =>
      assert (He : ∀ i j, i < B → j < N →
                mget val i j = act1 act (mget x i j))
        by (intros; apply (act_func_entry act B N); [shape0|done|done])
  | act_func_deriv ?act ?x ?y ?dy ?out =>
      assert (He : ∀ i j, i < B → j < N →
                mget val i j
                = act_deriv1 act (mget x i j) (mget y i j) (mget dy i j))
        by (intros; apply (act_func_deriv_entry act B N); [shape0|done|done])
  end.

Ltac fn_upd_simpl_in Hb :=
  cbv beta in Hb;
  repeat first [rewrite fn_upd_eq in Hb | rewrite fn_upd_ne in Hb by discriminate].

(** The reads of the current buffers [bk], described by [Hst]. *)
Ltac reads T b t Hlen HlenY Ht Hp Hpne Hst Hb :=
  repeat first
    [ rewrite (slots_replaced_slot T b t _ _ _ _ Hlen Ht Hst) in Hb
    | rewrite (slots_replaced_slot_other T b t _ _ _ _ _ _ Hlen Hst Hp Hpne) in Hb
    | rewrite (slots_replaced_slot_y T b t _ _ _ HlenY Ht Hst) in Hb
    | rewrite (slots_replaced_slot_y_other T b t _ _ _ _ _ HlenY Hst Hp Hpne) in Hb ];
  fn_upd_simpl_in Hb.

(** The value an operation has written becomes a variable of known
    shape and entries. *)
Ltac name_value B N val Hnew :=
  let m := fresh "m" in
  let Hs := fresh "Hshape" in
  let He := fresh "Hentry" in
  assert (Hs : mat_shape B N val) by shape0;
  entry_fact B N val He;
  set (m := val) in Hnew, Hs, He; clearbody m.

(** The first statement of the program in [Hb]: the buffers it leaves
    become a variable, described again by [Hst]. *)
Ltac statement T B N b t Hlen HlenY Ht Hp Hpne Hst Hb :=
  let bk' := fresh "bk" in
  let Hbk := fresh "Hbk" in
  rewrite run_cons in Hb;
  lazymatch type of Hb with
  | ?l = run ?prog (?stmt ?bk) =>
      remember (stmt bk) as bk' eqn:Hbk in Hb; cbv beta in Hbk
  end;
  reads T b t Hlen HlenY Ht Hp Hpne Hst Hbk;
  let Hnew := fresh "Hst" in
  lazymatch type of Hbk with
  | _ = into ?n _ ?f ?bk =>
      pose proof (slots_replaced_into T b t _ _ bk n f Hlen Ht Hst) as Hnew;
      rewrite <- Hbk in Hnew; clear Hbk;
      fn_upd_simpl_in Hnew;
      lazymatch type of Hnew with
      | slots_replaced _ _ (fn_upd _ _ ?val) _ _ => name_value B N val Hnew
      end
  | _ = into_y _ ?f ?bk =>
      pose proof (slots_replaced_into_y T b t _ _ bk f HlenY Ht Hst) as Hnew;
      rewrite <- Hbk in Hnew; clear Hbk;
      fn_upd_simpl_in Hnew;
      lazymatch type of Hnew with
      | slots_replaced _ _ _ ?val _ => name_value B N val Hnew
      end
  end;
  clear Hst; rename Hnew into Hst.

Lemma forward_step_spec act T B N F b t :
  well_shaped T B N F b → t < T →
  let b' := forward_step act b t in
  well_shaped T B N F b' ∧
  (∀ n s, s ≠ t → sl (internals b' n) s = sl (internals b n) s) ∧
  (∀ s, s ≠ t → sl (outputs b') s = sl (outputs b) s) ∧
  ∀ i j, i < B → j < N →
    let p := before T t in
    step_equations act
      (λ n, mget (sl (internals b n) t) i j)
      (λ n, dot_entry (sl (outputs b) p) (parameters b n) false false i j)
      (mget (sl (internals b Ca) p) i j)
      (λ n, vget (parameters_vec b n) j)
      (λ n, mget (sl (internals b' n) t) i j)
      (mget (sl (outputs b') t) i j).
Proof.
  intros Hws Ht0 b'.
  destruct (well_shaped_lengths _ _ _ _ _ Hws) as [Hlen HlenY].
  assert (Ht : t < S T) by lia.
  pose proof (pyidx_pred T t Ht) as Hp.
  pose proof (before_ne T t Ht0) as Hpne.
  assert (Hsh0 : ∀ n, mat_shape B N (sl (internals b n) t)).
  { intros n. eapply buf_shape_sl; [apply Hws|done]. }
  assert (Hshy : mat_shape B N (sl (outputs b) t)).
  { eapply buf_shape_sl; [apply Hws|done]. }
  assert (Hb : b' = forward_step act b t) by done. clearbody b'.
  cbv beta delta [forward_step] in Hb. cbv zeta in Hb.
  pose proof (slots_replaced_init b t) as Hst.
  do 19 (statement T B N b t Hlen HlenY Ht Hp Hpne Hst Hb).
  lazymatch type of Hst with
  | slots_replaced _ _ ?v ?vy _ =>
      assert (Hv : ∀ n, mat_shape B N (v n))
        by (intros n; unfold fn_upd; repeat case_decide; shape0)
  end.
  unfold run in Hb; simpl in Hb; subst b'.
  destruct Hst as (Hi & Hy & Hx & Hdx & Hdo & Hp1 & Hp2 & Hg1 & Hg2).
  assert (Hlt : ∀ n, t < length (internals b n)) by (intros n; rewrite Hlen; lia).
  split; [|split; [|split]].
  - destruct Hws as [W1 W2 W3 W4 W5 W6 W7 W8 W9].
    split; try (by rewrite ?Hx, ?Hdx, ?Hdo, ?Hp1, ?Hp2, ?Hg1, ?Hg2).
    + rewrite Hy. split; [by rewrite length_insert; apply W2|].
      apply Forall_insert; [apply W2|done].
    + intros n. rewrite Hi. split; [by rewrite length_insert; apply W5|].
      apply Forall_insert; [apply W5|done].
  - intros n s Hs. rewrite Hi. by apply sl_insert_ne.
  - intros s Hs. rewrite Hy. by apply sl_insert_ne.
  - intros i j Hi' Hj p. unfold step_equations.
    rewrite !Hi, Hy, !sl_insert_eq by (rewrite ?HlenY; auto; lia).
    repeat first [rewrite fn_upd_eq | rewrite fn_upd_ne by discriminate].
    repeat split;
      repeat match goal with
      | He : ∀ i j, _ → _ → mget ?m i j = _ |- context [mget ?m i j] =>
          rewrite (He i j Hi' Hj)
      end; reflexivity.
Qed.

End ForwardStep.

(** ** Flattened views *)

Section Flatten.
Context {K : Type} `{Backend K}.
Implicit Types (m out rows : mat K) (buf view : list (mat K)).
Implicit Types (r c i j s n B : nat).
#[local] Open Scope nat_scope.

Lemma flatten_time_lookup B view s i :
  Forall (λ m, length m = B) view → i < B →
  flatten_time view !! (s * B + i) = sl view s !! i.
Proof.
  unfold flatten_time, sl. intros Hall Hi. revert s.
  induction Hall as [|m view Hm Hall IH]; intros s.
  - simpl. by rewrite !lookup_nil.
  - simpl. destruct s as [|s]; simpl.
    + rewrite lookup_app_l by lia. done.
    + rewrite lookup_app_r by lia.
      replace (B + s * B + i - length m) with (s * B + i) by lia.
      apply IH.
Qed.

Lemma mget_flatten_time B view s i j :
  Forall (λ m, length m = B) view → i < B →
  mget (flatten_time view) (s * B + i) j = mget (sl view s) i j.
Proof. intros Hall Hi. unfold mget. by rewrite (flatten_time_lookup B). Qed.

Lemma length_flatten_time B view :
  Forall (λ m, length m = B) view →
  length (flatten_time view) = length view * B.
Proof.
  unfold flatten_time. induction 1 as [|m view Hm Hall IH]; [done|].
  simpl. rewrite length_app, IH. lia.
Qed.

Lemma mat_shape_flatten_time n B c view :
  buf_shape n B c view → mat_shape (n * B) c (flatten_time view).
Proof.
  intros [Hn Hall]. split.
  - rewrite (length_flatten_time B), Hn; [done|].
    eapply Forall_impl; [done|]. by intros m [? _].
  - unfold flatten_time. apply Forall_concat.
    eapply Forall_impl; [done|]. by intros m [_ ?].
Qed.

Lemma buf_shape_rows n B c view :
  buf_shape n B c view → Forall (λ m, length m = B) view.
Proof. intros [_ Hall]. eapply Forall_impl; [done|]. by intros m [? _]. Qed.

(** The rows of a flattened view, put back. *)
Lemma unflatten_like_spec n B c view rows :
  buf_shape n B c view → mat_shape (n * B) c rows →
  buf_shape n B c (unflatten_like view rows) ∧
  ∀ s i, s < n → i < B →
    sl (unflatten_like view rows) s !! i = rows !! (s * B + i).
Proof.
  intros [Hn Hall]. revert n Hn rows.
  induction Hall as [|m view [Hm Hc] Hall IH]; intros n Hn rows [Hr Hrc].
  - simpl in *. subst n. split; [by split|]. intros; lia.
  - simpl in Hn. destruct n as [|n]; [done|].
    injection Hn as Hn. simpl.
    destruct (IH n Hn (drop (length m) rows)) as ((IH1 & IH2) & IH3).
    { split; [rewrite length_drop; lia|]. by apply Forall_drop. }
    split.
    + split; [simpl; by rewrite IH1|].
      constructor; [|done]. split.
      * rewrite length_take. lia.
      * by apply Forall_take.
    + intros s i Hs Hi. destruct s as [|s]; simpl.
      * unfold sl. simpl. rewrite lookup_take_lt by lia. done.
      * unfold sl in *. simpl. rewrite IH3 by lia.
        rewrite lookup_drop. f_equal. lia.
Qed.

(** Writing through [flatten_time(buf[:-1])]. *)
Lemma set_flat_spec T B c buf (f : mat K → mat K) :
  buf_shape (S T) B c buf →
  (∀ rows, mat_shape (T * B) c rows → mat_shape (T * B) c (f rows)) →
  buf_shape (S T) B c (set_flat 0 1 buf f) ∧
  sl (set_flat 0 1 buf f) T = sl buf T ∧
  ∀ s i j, s < T → i < B →
    mget (sl (set_flat 0 1 buf f) s) i j
    = mget (f (flatten_time (slice 0 1 buf))) (s * B + i) j.
Proof.
  intros [Hn Hall] Hf. unfold set_flat, slice. rewrite Hn.
  replace (S T - 1) with T by lia. rewrite !drop_0. simpl take at 1.
  assert (Hview : buf_shape T B c (take T buf)).
  { split; [rewrite length_take; lia|by apply Forall_take]. }
  destruct (unflatten_like_spec T B c (take T buf) (f (flatten_time (take T buf))))
    as ((Hu1 & Hu2) & Hu3); [done|by apply Hf, mat_shape_flatten_time|].
  simpl app. split; [|split].
  - split; [rewrite length_app, Hu1, length_drop; lia|].
    apply Forall_app. split; [done|by apply Forall_drop].
  - unfold sl. rewrite lookup_app_r by lia. rewrite Hu1.
    replace (T - T) with 0 by lia. rewrite lookup_drop. by rewrite Nat.add_0_r.
  - intros s i j Hs Hi. unfold sl at 1. rewrite lookup_app_l by lia.
    unfold mget. unfold sl in Hu3. rewrite (Hu3 s i Hs Hi). done.
Qed.

End Flatten.

(** ** [forward_pass]: the products with the input *)

Section ForwardBulk.
Context {K : Type} `{Backend K}.
Implicit Types (b : BufferSet K) (act : activation).
Implicit Types (T B N F s t i j k : nat).
#[local] Open Scope nat_scope.

Lemma ksum_ext n (f g : nat → K) : (∀ k, f k = g k) → ksum n f = ksum n g.
Proof.
  intros Hfg. unfold ksum. induction (seq 0 n) as [|k l IH]; [done|].
  simpl. by rewrite Hfg, IH.
Qed.

Lemma flat_index_lt T B s i : s < T → i < B → s * B + i < T * B.
Proof.
  intros Hs Hi. apply Nat.lt_le_trans with (S s * B); [simpl; lia|].
  apply Nat.mul_le_mono_r. lia.
Qed.

(** What the input of slot [s] contributes to a pre-activation:
    [dot(x[s], W.T)]. *)
Definition input_product b (n : weight_name) s i j : K :=
  dot_entry (sl (inputs b) s) (parameters b n) false true i j.

Lemma dot_entry_flatten_time T B F (x : list (mat K)) (w : mat K) s i j :
  buf_shape T B F x → s < T → i < B →
  dot_entry (flatten_time x) w false true (s * B + i) j
  = dot_entry (sl x s) w false true i j.
Proof.
  intros Hx Hs Hi. unfold dot_entry.
  rewrite (ncols_shape (T * B) F (flatten_time x));
    [|by apply mat_shape_flatten_time|].
  2: { pose proof (flat_index_lt T B s i Hs Hi). lia. }
  rewrite (ncols_shape B F (sl x s)); [|by eapply buf_shape_sl|lia].
  apply ksum_ext. intros k.
  rewrite (mget_flatten_time B); [done|by eapply buf_shape_rows|done].
Qed.

Lemma into_flat_spec T B N F b n (a w : mat K) :
  well_shaped T B N F b →
  let b' := into_flat n 0 1 (dot_mm a w false true) b in
  well_shaped T B N F b' ∧
  untouched_by_forward b (into_flat n 0 1 (λ m, m) b) ∧
  outputs b' = outputs b ∧
  (∀ n', n' ≠ n → internals b' n' = internals b n') ∧
  sl (internals b' n) T = sl (internals b n) T ∧
  ∀ s i j, s < T → i < B → j < N →
    mget (sl (internals b' n) s) i j = dot_entry a w false true (s * B + i) j.
Proof.
  intros Hws b'.
  destruct (set_flat_spec T B N (internals b n) (dot_mm a w false true))
    as (Hsh & Hctx & Hent).
  { apply Hws. }
  { intros rows Hrows. by apply mat_shape_each2. }
  assert (Hn : internals b' n = set_flat 0 1 (internals b n) (dot_mm a w false true)).
  { subst b'. unfold into_flat, set_internal. simpl. by rewrite decide_True. }
  assert (Hn' : ∀ n', n' ≠ n → internals b' n' = internals b n').
  { intros n' Hne. subst b'. unfold into_flat, set_internal. simpl.
    by rewrite decide_False. }
  split; [|split; [|split; [|split; [|split]]]].
  - destruct Hws. split; try done.
    intros n'. destruct (decide (n' = n)) as [->|Hne].
    + by rewrite Hn.
    + by rewrite Hn'.
  - repeat split. intros n' Hfwd. unfold into_flat, set_internal. simpl.
    case_decide as E; [|done]. subst n'.
    unfold set_flat, slice. simpl.
    assert (Hid : ∀ (l : list (mat K)), unflatten_like l (flatten_time l) = l).
    { unfold flatten_time. induction l as [|m l IH]; [done|]. simpl.
      rewrite take_app_length, drop_app_length. by rewrite IH. }
    rewrite drop_0, Hid. apply take_drop.
  - done.
  - done.
  - by rewrite Hn.
  - intros s i j Hs Hi Hj. rewrite Hn, Hent by done.
    eapply dot_mm_entry; [|by apply flat_index_lt|done].
    apply mat_shape_flatten_time.
    destruct (ws_internals _ _ _ _ _ Hws n) as [Hlen Hall]. unfold slice.
    rewrite drop_0, Hlen. replace (S T - 1) with T by lia.
    split; [rewrite length_take; lia|by apply Forall_take].
Qed.

(** After lines 120 to 128 the four pre-activation buffers hold, in
    every slot but the context slot, the product of the slot's input
    with the transposed input weights. *)
Lemma forward_bulk_spec T B N F b :
  well_shaped T B N F b →
  let b' := forward_bulk b in
  well_shaped T B N F b' ∧
  outputs b' = outputs b ∧
  (∀ n, sl (internals b' n) T = sl (internals b n) T) ∧
  ∀ s i j, s < T → i < B → j < N →
    mget (sl (internals b' Za) s) i j = input_product b Wz s i j ∧
    mget (sl (internals b' Ia) s) i j = input_product b Wi s i j ∧
    mget (sl (internals b' Fa) s) i j = input_product b Wf s i j ∧
    mget (sl (internals b' Oa) s) i j = input_product b Wo s i j.
Proof.
  intros Hws b'. subst b'. unfold forward_bulk.
  set (x := flatten_time (inputs b)).
  destruct (into_flat_spec T B N F b Za x (parameters b Wz) Hws)
    as (Hws1 & _ & Hy1 & Ho1 & Hc1 & He1).
  set (b1 := into_flat Za 0 1 _ b) in *.
  destruct (into_flat_spec T B N F b1 Ia x (parameters b1 Wi) Hws1)
    as (Hws2 & _ & Hy2 & Ho2 & Hc2 & He2).
  set (b2 := into_flat Ia 0 1 _ b1) in *.
  destruct (into_flat_spec T B N F b2 Fa x (parameters b2 Wf) Hws2)
    as (Hws3 & _ & Hy3 & Ho3 & Hc3 & He3).
  set (b3 := into_flat Fa 0 1 _ b2) in *.
  destruct (into_flat_spec T B N F b3 Oa x (parameters b3 Wo) Hws3)
    as (Hws4 & _ & Hy4 & Ho4 & Hc4 & He4).
  set (b4 := into_flat Oa 0 1 _ b3) in *.
  assert (Hx : buf_shape T B F (inputs b)) by apply Hws.
  split; [done|]. split; [by rewrite Hy4, Hy3, Hy2, Hy1|]. split.
  - intros n.
    assert (H4 : sl (internals b4 n) T = sl (internals b3 n) T).
    { destruct (decide (n = Oa)) as [->|E]; [done|by rewrite Ho4]. }
    assert (H3 : sl (internals b3 n) T = sl (internals b2 n) T).
    { destruct (decide (n = Fa)) as [->|E]; [done|by rewrite Ho3]. }
    assert (H2 : sl (internals b2 n) T = sl (internals b1 n) T).
    { destruct (decide (n = Ia)) as [->|E]; [done|by rewrite Ho2]. }
    assert (H1 : sl (internals b1 n) T = sl (internals b n) T).
    { destruct (decide (n = Za)) as [->|E]; [done|by rewrite Ho1]. }
    congruence.
  - intros s i j Hs Hi Hj. unfold input_product.
    rewrite (Ho4 Za), (Ho3 Za), (Ho2 Za) by done.
    rewrite (Ho4 Ia), (Ho3 Ia) by done.
    rewrite (Ho4 Fa) by done.
    rewrite He1, He2, He3, He4 by done.
    subst x. rewrite !(dot_entry_flatten_time T B F) by done.
    done.
Qed.

End ForwardBulk.

(** ** [forward_pass]: every time step *)

Section ForwardPass.
Context {K : Type} `{Backend K}.
Implicit Types (b : BufferSet K) (act : activation).
Implicit Types (T B N F s t i j k : nat).
#[local] Open Scope nat_scope.

(** What the input contributes to the pre-activation of a gate. *)
Definition pre_activation b s i j (n : internal_name) : K :=
  match n with
  | Za => input_product b Wz s i j
  | Ia => input_product b Wi s i j
  | Fa => input_product b Wf s i j
  | Oa => input_product b Wo s i j
  | _ => kzero
  end.

(** The equations of the cell [(i, j)] at time [s], read in the buffers
    [b'], for the input and the parameters of [b]. *)
Definition cell_equations act T b b' s i j : Prop :=
  let p := before T s in
  step_equations act
    (pre_activation b s i j)
    (λ n, dot_entry (sl (outputs b') p) (parameters b n) false false i j)
    (mget (sl (internals b' Ca) p) i j)
    (λ n, vget (parameters_vec b n) j)
    (λ n, mget (sl (internals b' n) s) i j)
    (mget (sl (outputs b') s) i j).

(** The state of the buffers after the time steps before [k]. *)
Record forward_invariant act T B N F b k b' : Prop := {
  fi_shape : well_shaped T B N F b';
  fi_frame : untouched_by_forward b b';
  fi_context_y : sl (outputs b') T = sl (outputs b) T;
  fi_context : ∀ n, sl (internals b' n) T = sl (internals b n) T;
  fi_ahead : ∀ s i j, k ≤ s → s < T → i < B → j < N →
    mget (sl (internals b' Za) s) i j = pre_activation b s i j Za ∧
    mget (sl (internals b' Ia) s) i j = pre_activation b s i j Ia ∧
    mget (sl (internals b' Fa) s) i j = pre_activation b s i j Fa ∧
    mget (sl (internals b' Oa) s) i j = pre_activation b s i j Oa;
  fi_done : ∀ s i j, s < k → i < B → j < N → cell_equations act T b b' s i j
}.

Lemma before_step T s k : s < k → k < T → before T s ≠ k.
Proof. destruct s; simpl; lia. Qed.

Lemma forward_invariant_bulk act T B N F b :
  well_shaped T B N F b → forward_invariant act T B N F b 0 (forward_bulk b).
Proof.
  intros Hws.
  destruct (forward_bulk_spec T B N F b Hws) as (Hws' & Hy & Hctx & Hent).
  split.
  - done.
  - apply forward_bulk_frame.
  - by rewrite Hy.
  - done.
  - intros s i j _ Hs Hi Hj. apply (Hent s i j Hs Hi Hj).
  - intros; lia.
Qed.

Lemma forward_invariant_step act T B N F b k b' :
  k < T → forward_invariant act T B N F b k b' →
  forward_invariant act T B N F b (S k) (forward_step act b' k).
Proof.
  intros Hk [Hws Hfr Hcy Hc Hahead Hdone].
  destruct (forward_step_spec act T B N F b' k Hws Hk) as (Hws' & Hi & Hy & Heq).
  pose proof (forward_step_frame act b' k) as Hfr'.
  pose proof Hfr as (_ & _ & _ & Hp & Hpv & _).
  split.
  - done.
  - eapply untouched_by_forward_trans; [|exact Hfr']. exact Hfr.
  - rewrite Hy by lia. done.
  - intros n. rewrite Hi by lia. done.
  - intros s i j Hs HsT Hi' Hj. rewrite !Hi by lia.
    apply Hahead; [lia|done..].
  - intros s i j Hs Hi' Hj. unfold cell_equations.
    destruct (decide (s = k)) as [->|Hne].
    + specialize (Heq i j Hi' Hj). cbv zeta in Heq.
      destruct (Hahead k i j (le_n _) Hk Hi' Hj) as (Ez & Ei & Ef & Eo).
      unfold step_equations in *. cbv beta in *.
      rewrite !(Hi _ (before T k)), (Hy (before T k))
        by (by apply before_ne).
      rewrite Ez, Ei, Ef, Eo, Hp, Hpv in Heq. exact Heq.
    + assert (Hlt : s < k) by lia.
      specialize (Hdone s i j Hlt Hi' Hj).
      unfold cell_equations, step_equations in *. cbv beta zeta in *.
      rewrite !(Hi _ s), (Hy s) by done.
      rewrite !(Hi _ (before T s)), (Hy (before T s))
        by (by apply before_step).
      exact Hdone.
Qed.

Lemma forward_invariant_steps act T B N F b k :
  well_shaped T B N F b → k ≤ T →
  forward_invariant act T B N F b k
    (foldl (forward_step act) (forward_bulk b) (seq 0 k)).
Proof.
  intros Hws. induction k as [|k IH]; intros Hk.
  - by apply forward_invariant_bulk.
  - rewrite seq_S, foldl_app. simpl.
    apply forward_invariant_step; [lia|]. apply IH. lia.
Qed.

Lemma forward_pass_invariant act T B N F b :
  well_shaped T B N F b →
  forward_invariant act T B N F b T (forward_pass act b).
Proof.
  intros Hws. unfold forward_pass.
  replace (length (inputs b)) with T by (symmetry; apply Hws).
  by apply forward_invariant_steps.
Qed.

End ForwardPass.

(** ** [forward_pass]: what it computes and what it depends on *)

Section ForwardTheorems.
Context {K : Type} `{Backend K}.
Implicit Types (b : BufferSet K) (act : activation).
Implicit Types (T B N F s t i j k : nat).
#[local] Open Scope nat_scope.

(** Two matrices, or two buffers, of one shape with the same entries
    are the same. *)
Lemma mat_ext r c (m1 m2 : mat K) :
  mat_shape r c m1 → mat_shape r c m2 →
  (∀ i j, i < r → j < c → mget m1 i j = mget m2 i j) → m1 = m2.
Proof.
  intros H1 H2 He. apply list_eq. intros i.
  destruct (decide (i < r)) as [Hi|Hi].
  - destruct (mat_shape_lookup _ _ _ i H1 Hi) as (r1 & E1 & L1).
    destruct (mat_shape_lookup _ _ _ i H2 Hi) as (r2 & E2 & L2).
    rewrite E1, E2. f_equal. apply list_eq. intros j.
    destruct (decide (j < c)) as [Hj|Hj].
    + specialize (He i j Hi Hj). unfold mget, vget in He.
      rewrite E1, E2 in He. simpl in He.
      destruct (lookup_lt_is_Some_2 r1 j) as [x1 X1]; [lia|].
      destruct (lookup_lt_is_Some_2 r2 j) as [x2 X2]; [lia|].
      rewrite X1, X2 in *. simpl in He. by rewrite He.
    + rewrite !lookup_ge_None_2 by lia. done.
  - destruct H1 as [L1 _], H2 as [L2 _].
    rewrite !lookup_ge_None_2 by lia. done.
Qed.

Lemma buf_ext n r c (l1 l2 : list (mat K)) :
  buf_shape n r c l1 → buf_shape n r c l2 →
  (∀ s, s < n → sl l1 s = sl l2 s) → l1 = l2.
Proof.
  intros [L1 _] [L2 _] He. apply list_eq. intros s.
  destruct (decide (s < n)) as [Hs|Hs].
  - specialize (He s Hs). unfold sl in He.
    destruct (lookup_lt_is_Some_2 l1 s) as [x1 X1]; [lia|].
    destruct (lookup_lt_is_Some_2 l2 s) as [x2 X2]; [lia|].
    rewrite X1, X2 in *. simpl in He. by rewrite He.
  - rewrite !lookup_ge_None_2 by lia. done.
Qed.

Lemma slot_nat n (buf : list (mat K)) t :
  length buf = n → t < n → slot buf (Z.of_nat t) = sl buf t.
Proof. intros Hn Ht. apply (slot_sl n); [done|by apply pyidx_nat]. Qed.

Lemma slot_before T (buf : list (mat K)) t :
  length buf = S T → t < S T → slot buf (Z.of_nat t - 1) = sl buf (before T t).
Proof. intros Hn Ht. apply (slot_sl (S T)); [done|by apply pyidx_pred]. Qed.

Lemma slot_last T (buf : list (mat K)) :
  length buf = S T → slot buf (-1) = sl buf T.
Proof. intros Hn. apply (slot_sl (S T)); [done|apply pyidx_last]. Qed.

(** X1: in every time step [t] of a forward pass over buffers of the
    declared shapes, and for every cell [(i, j)], the pre-activations
    are the input's product with the input weights plus the previous
    output's product with the recurrent weights plus the bias, the input
    and the forget gate add the peephole on the previous cell state
    [Ca[t-1]], the cell state is [Ib*Zb + Fb*Ca[t-1]], the output gate
    adds the peephole on the new cell state [Ca[t]], and the output is
    [Ob * act(Ca[t])]; at [t = 0] the index [t-1] reads the context
    slot. *)
Theorem forward_pass_cell_equations act T B N F b t i j :
  well_shaped T B N F b → t < T → i < B → j < N →
  let b' := forward_pass act b in
  let tz := Z.of_nat t in
  let x n := dot_entry (slot (inputs b) tz) (parameters b n) false true i j in
  let r n :=
    dot_entry (slot (outputs b') (tz - 1)) (parameters b n) false false i j in
  let w n := vget (parameters_vec b n) j in
  let e n := at3 (internals b' n) tz i j in
  let c_prev := at3 (internals b' Ca) (tz - 1) i j in
  e Za = (x Wz + r Rz + w bz)%K ∧
  e Zb = act1 act (e Za) ∧
  e Ia = (x Wi + r Ri + c_prev * w Wci + w bi)%K ∧
  e Ib = sigmoid1 (e Ia) ∧
  e Fa = (x Wf + r Rf + c_prev * w Wcf + w bf)%K ∧
  e Fb = sigmoid1 (e Fa) ∧
  e Ca = (e Ib * e Zb + e Fb * c_prev)%K ∧
  e Oa = (x Wo + r Ro + e Ca * w Wco + w bo)%K ∧
  e Ob = sigmoid1 (e Oa) ∧
  e Cb = act1 act (e Ca) ∧
  at3 (outputs b') tz i j = (e Ob * e Cb)%K.
Proof.
  intros Hws Ht Hi Hj b' tz x r w e c_prev.
  destruct (forward_pass_invariant act T B N F b Hws)
    as [Hws' _ _ _ _ Hdone].
  specialize (Hdone t i j Ht Hi Hj).
  destruct (well_shaped_lengths _ _ _ _ _ Hws') as [Hlen HlenY].
  assert (Hx : length (inputs b) = T) by apply Hws.
  subst x r w e c_prev tz. unfold at3. fold b' in Hws', Hdone, Hlen, HlenY.
  assert (E1 : ∀ n, slot (internals b' n) (Z.of_nat t) = sl (internals b' n) t).
  { intros n. apply (slot_nat (S T)); [done|lia]. }
  rewrite !E1, (slot_nat (S T) (outputs b')), !(slot_before T), (slot_nat T)
    by (auto; lia).
  exact Hdone.
Qed.


(** X2: a forward pass keeps the shapes of all buffers and never writes
    the context slot: [y[-1]] and the slot [-1] of every internal are
    what they were. *)
Theorem forward_pass_keeps_context act T B N F b :
  well_shaped T B N F b →
  let b' := forward_pass act b in
  well_shaped T B N F b' ∧
  slot (outputs b') (-1) = slot (outputs b) (-1) ∧
  ∀ n, slot (internals b' n) (-1) = slot (internals b n) (-1).
Proof.
  intros Hws b'.
  destruct (forward_pass_invariant act T B N F b Hws)
    as [Hws' _ Hcy Hc _ _].
  destruct (well_shaped_lengths _ _ _ _ _ Hws') as [Hlen' HlenY'].
  destruct (well_shaped_lengths _ _ _ _ _ Hws) as [Hlen HlenY].
  split; [done|]. split.
  - subst b'. by rewrite !(slot_last T).
  - intros n. subst b'. by rewrite !(slot_last T).
Qed.

Lemma step_equations_functional act pre pre' rec_ rec_' (c c' : K) w w' E E' y y' :
  step_equations act pre rec_ c w E y →
  step_equations act pre' rec_' c' w' E' y' →
  pre Za = pre' Za → pre Ia = pre' Ia → pre Fa = pre' Fa → pre Oa = pre' Oa →
  rec_ Rz = rec_' Rz → rec_ Ri = rec_' Ri → rec_ Rf = rec_' Rf →
  rec_ Ro = rec_' Ro →
  c = c' → (∀ n, w n = w' n) →
  y = y' ∧ ∀ n, is_forward_internal n = true → E n = E' n.
Proof.
  intros (A1 & A2 & A3 & A4 & A5 & A6 & A7 & A8 & A9 & A10 & A11)
         (B1 & B2 & B3 & B4 & B5 & B6 & B7 & B8 & B9 & B10 & B11)
         Pz Pi Pf Po Rz' Ri' Rf' Ro' Hc Hw.
  assert (Za' : E Za = E' Za) by (rewrite A1, B1, Pz, Rz', Hw; done).
  assert (Zb' : E Zb = E' Zb) by (rewrite A2, B2, Za'; done).
  assert (Ia' : E Ia = E' Ia) by (rewrite A3, B3, Pi, Ri', Hc, !Hw; done).
  assert (Ib' : E Ib = E' Ib) by (rewrite A4, B4, Ia'; done).
  assert (Fa' : E Fa = E' Fa) by (rewrite A5, B5, Pf, Rf', Hc, !Hw; done).
  assert (Fb' : E Fb = E' Fb) by (rewrite A6, B6, Fa'; done).
  assert (Ca' : E Ca = E' Ca) by (rewrite A7, B7, Ib', Zb', Fb', Hc; done).
  assert (Oa' : E Oa = E' Oa) by (rewrite A8, B8, Po, Ro', Ca', !Hw; done).
  assert (Ob' : E Ob = E' Ob) by (rewrite A9, B9, Oa'; done).
  assert (Cb' : E Cb = E' Cb) by (rewrite A10, B10, Ca'; done).
  split; [by rewrite A11, B11, Ob', Cb'|].
  intros n Hn. by destruct n.
Qed.

Lemma forward_pass_agree act T B N F b1 b2 t :
  well_shaped T B N F b1 → well_shaped T B N F b2 →
  (∀ n, parameters b1 n = parameters b2 n) →
  (∀ n, parameters_vec b1 n = parameters_vec b2 n) →
  sl (outputs b1) T = sl (outputs b2) T →
  sl (internals b1 Ca) T = sl (internals b2 Ca) T →
  (∀ s, s ≤ t → sl (inputs b1) s = sl (inputs b2) s) →
  t < T →
  ∀ s, s ≤ t →
    sl (outputs (forward_pass act b1)) s = sl (outputs (forward_pass act b2)) s ∧
    ∀ n, is_forward_internal n = true →
      sl (internals (forward_pass act b1) n) s
      = sl (internals (forward_pass act b2) n) s.
Proof.
  intros Hws1 Hws2 Hp Hpv Hy Hc Hx Ht.
  destruct (forward_pass_invariant act T B N F b1 Hws1)
    as [Hs1 _ Hcy1 Hc1 _ Hd1].
  destruct (forward_pass_invariant act T B N F b2 Hws2)
    as [Hs2 _ Hcy2 Hc2 _ Hd2].
  set (b1' := forward_pass act b1) in *.
  set (b2' := forward_pass act b2) in *.
  intros s. induction (lt_wf s) as [s _ IH]. intros Hs.
  assert (Hprev :
    sl (outputs b1') (before T s) = sl (outputs b2') (before T s) ∧
    sl (internals b1' Ca) (before T s) = sl (internals b2' Ca) (before T s)).
  { destruct s as [|s']; simpl.
    - rewrite Hcy1, Hcy2, Hc1, Hc2. done.
    - destruct (IH s') as [IHy IHn]; [lia|lia|].
      split; [done|by apply IHn]. }
  destruct Hprev as [Hpy Hpc].
  assert (Hent : ∀ i j, i < B → j < N →
    mget (sl (outputs b1') s) i j = mget (sl (outputs b2') s) i j ∧
    ∀ n, is_forward_internal n = true →
      mget (sl (internals b1' n) s) i j = mget (sl (internals b2' n) s) i j).
  { intros i j Hi Hj.
    apply (step_equations_functional act _ _ _ _ _ _ _ _ _ _ _ _
             (Hd1 s i j ltac:(lia) Hi Hj) (Hd2 s i j ltac:(lia) Hi Hj));
      unfold pre_activation, input_product;
      rewrite ?Hp, ?Hx, ?Hpy, ?Hpc by done; try done.
    intros n. by rewrite Hpv. }
  split.
  - apply (mat_ext B N).
    + eapply buf_shape_sl; [apply Hs1|lia].
    + eapply buf_shape_sl; [apply Hs2|lia].
    + intros i j Hi Hj. by apply Hent.
  - intros n Hn. apply (mat_ext B N).
    + eapply buf_shape_sl; [apply Hs1|lia].
    + eapply buf_shape_sl; [apply Hs2|lia].
    + intros i j Hi Hj. by apply Hent.
Qed.

(** X3: the forward pass is causal, and it reads nothing but the
    inputs, the parameters and the context slots of [y] and [Ca]: when
    two sets of buffers of the same shapes agree on the parameters, on
    [y[-1]] and [Ca[-1]] and on the inputs up to time [t], their forward
    passes leave the same outputs and the same forward internals in
    every slot up to [t], whatever the inputs after [t] are and whatever
    the output and internal buffers held before. *)
Theorem forward_pass_causal act T B N F b1 b2 t :
  well_shaped T B N F b1 → well_shaped T B N F b2 →
  (∀ n, parameters b1 n = parameters b2 n) →
  (∀ n, parameters_vec b1 n = parameters_vec b2 n) →
  slot (outputs b1) (-1) = slot (outputs b2) (-1) →
  slot (internals b1 Ca) (-1) = slot (internals b2 Ca) (-1) →
  (∀ s, s ≤ t → slot (inputs b1) (Z.of_nat s) = slot (inputs b2) (Z.of_nat s)) →
  t < T →
  ∀ s, s ≤ t →
    slot (outputs (forward_pass act b1)) (Z.of_nat s)
    = slot (outputs (forward_pass act b2)) (Z.of_nat s) ∧
    ∀ n, is_forward_internal n = true →
      slot (internals (forward_pass act b1) n) (Z.of_nat s)
      = slot (internals (forward_pass act b2) n) (Z.of_nat s).
Proof.
  intros Hws1 Hws2 Hp Hpv Hy Hc Hx Ht s Hs.
  destruct (well_shaped_lengths _ _ _ _ _ Hws1) as [Hlen1 HlenY1].
  destruct (well_shaped_lengths _ _ _ _ _ Hws2) as [Hlen2 HlenY2].
  destruct (forward_pass_invariant act T B N F b1 Hws1) as [Hs1 _ _ _ _ _].
  destruct (forward_pass_invariant act T B N F b2 Hws2) as [Hs2 _ _ _ _ _].
  destruct (well_shaped_lengths _ _ _ _ _ Hs1) as [Hlen1' HlenY1'].
  destruct (well_shaped_lengths _ _ _ _ _ Hs2) as [Hlen2' HlenY2'].
  rewrite !(slot_last T) in Hy, Hc by done.
  destruct (forward_pass_agree act T B N F b1 b2 t Hws1 Hws2 Hp Hpv Hy Hc)
    with (s := s) as [Ey En]; [|done|done|].
  { intros s' Hs'. specialize (Hx s' Hs').
    rewrite !(slot_nat T) in Hx; [done|apply Hws2|lia|apply Hws1|lia]. }
  split.
  - rewrite !(slot_nat (S T)) by (done || lia). done.
  - intros n Hn. rewrite !(slot_nat (S T)) by (done || lia). by apply En.
Qed.

(** X4: a second forward pass over the buffers a forward pass has left
    changes nothing: the output buffer and every internal are the
    same. *)
Theorem forward_pass_idempotent act T B N F b :
  well_shaped T B N F b →
  let b' := forward_pass act b in
  outputs (forward_pass act b') = outputs b' ∧
  ∀ n, internals (forward_pass act b') n = internals b' n.
Proof.
  intros Hws b'.
  destruct (forward_pass_invariant act T B N F b Hws)
    as [Hs1 Hfr1 Hcy1 Hc1 _ _].
  fold b' in Hs1, Hfr1, Hcy1, Hc1.
  destruct (forward_pass_invariant act T B N F b' Hs1)
    as [Hs2 Hfr2 Hcy2 Hc2 _ _].
  destruct Hfr1 as (Hx & _ & _ & Hp & Hpv & _ & _ & Hi1).
  assert (Hag : ∀ s, s < T →
    sl (outputs (forward_pass act b')) s = sl (outputs b') s ∧
    ∀ n, is_forward_internal n = true →
      sl (internals (forward_pass act b') n) s = sl (internals b' n) s).
  { intros s Hs.
    apply (forward_pass_agree act T B N F b' b s); try done.
    - intros n. by rewrite Hp.
    - intros n. by rewrite Hpv.
    - intros s' _. by rewrite Hx. }
  split.
  - apply (buf_ext (S T) B N); [apply Hs2|apply Hs1|].
    intros s Hs. destruct (decide (s = T)) as [->|Hne]; [done|].
    apply Hag. lia.
  - intros n. destruct (is_forward_internal n) eqn:Hn.
    + apply (buf_ext (S T) B N); [apply Hs2|apply Hs1|].
      intros s Hs. destruct (decide (s = T)) as [->|Hne]; [done|].
      apply Hag; [lia|done].
    + destruct Hfr2 as (_ & _ & _ & _ & _ & _ & _ & Hi2). by apply Hi2.
Qed.

(** X5: on an empty sequence ([time_size = 0]) the forward pass writes
    nothing: the output buffer and every internal, which then consist of
    the context slot alone, are what they were. *)
Theorem forward_pass_empty_sequence act B N F b :
  well_shaped 0 B N F b →
  outputs (forward_pass act b) = outputs b ∧
  ∀ n, internals (forward_pass act b) n = internals b n.
Proof.
  intros Hws.
  destruct (forward_pass_invariant act 0 B N F b Hws)
    as [Hs1 _ Hcy1 Hc1 _ _].
  split.
  - apply (buf_ext 1 B N); [apply Hs1|apply Hws|].
    intros s Hs. by replace s with 0 by lia.
  - intros n. apply (buf_ext 1 B N); [apply Hs1|apply Hws|].
    intros s Hs. by replace s with 0 by lia.
Qed.

End ForwardTheorems.

(** *** Small instances on the reals *)

(** Two time steps, a batch of one, one cell and one input feature;
    [stale] is what the output buffer and the internals hold in the
    slots of the two time steps before the pass. *)
Definition two_step_buffers (x0 x1 stale c_prev y_prev : R)
    (weight : weight_name → R) (peephole : vector_name → R) : BufferSet R :=
  mkBufferSet
    [[[x0]]; [[x1]]] [[[stale]]; [[stale]]; [[y_prev]]]
    [[[0%R]]; [[0%R]]] [[[1%R]]; [[1%R]]; [[0%R]]]
    (λ n, [[weight n]]) (λ n, [peephole n])
    (λ _, [[0%R]]) (λ _, [0%R])
    (λ n, match n with
          | Ca => [[[stale]]; [[stale]]; [[c_prev]]]
          | _ => [[[stale]]; [[stale]]; [[0%R]]]
          end).

(** No time step: the buffers consist of the context slot. *)
Definition context_only_buffers (c_prev y_prev : R)
    (weight : weight_name → R) (peephole : vector_name → R) : BufferSet R :=
  mkBufferSet
    [] [[[y_prev]]] [] [[[0%R]]]
    (λ n, [[weight n]]) (λ n, [peephole n])
    (λ _, [[0%R]]) (λ _, [0%R])
    (λ n, match n with
          | Ca => [[[c_prev]]]
          | _ => [[[0%R]]]
          end).

Ltac concrete_shape :=
  repeat first
    [ progress intros
    | match goal with n : weight_name |- _ => destruct n end
    | match goal with n : vector_name |- _ => destruct n end
    | match goal with n : internal_name |- _ => destruct n end
    | split
    | reflexivity
    | apply List.Forall_nil
    | apply List.Forall_cons ].

Lemma tiny_buffers_well_shaped x c_prev y_prev delta weight peephole :
  well_shaped 1 1 1 1 (tiny_buffers x c_prev y_prev delta weight peephole).
Proof. split; simpl; concrete_shape. Qed.

Lemma two_step_buffers_well_shaped x0 x1 stale c_prev y_prev weight peephole :
  well_shaped 2 1 1 1 (two_step_buffers x0 x1 stale c_prev y_prev weight peephole).
Proof. split; simpl; concrete_shape. Qed.

Lemma context_only_buffers_well_shaped c_prev y_prev weight peephole :
  well_shaped 0 1 1 1 (context_only_buffers c_prev y_prev weight peephole).
Proof. split; simpl; concrete_shape. Qed.

Lemma forward_pass_cell_equations_witness :
  let b := two_step_buffers 1 2 7 3 4 (λ _, 5%R) (λ _, 6%R) in
  let b' := forward_pass act_tanh b in
  at3 (outputs b') 0 0 0
  = (at3 (internals b' Ob) 0 0 0 * at3 (internals b' Cb) 0 0 0)%R.
Proof.
  intros b b'.
  pose proof (forward_pass_cell_equations act_tanh 2 1 1 1 b 0 0 0
    (two_step_buffers_well_shaped _ _ _ _ _ _ _)) as Hc.
  destruct Hc as (_ & _ & _ & _ & _ & _ & _ & _ & _ & _ & Hy); [lia..|].
  exact Hy.
Defined.


Lemma forward_pass_keeps_context_witness :
  let b := two_step_buffers 1 2 7 3 4 (λ _, 5%R) (λ _, 6%R) in
  slot (outputs (forward_pass act_tanh b)) (-1) = slot (outputs b) (-1).
Proof.
  intros b.
  pose proof (forward_pass_keeps_context act_tanh 2 1 1 1 b
    (two_step_buffers_well_shaped _ _ _ _ _ _ _)) as (_ & Hy & _).
  exact Hy.
Defined.

Lemma forward_pass_causal_witness :
  let b1 := two_step_buffers 1 2 7 3 4 (λ _, 5%R) (λ _, 6%R) in
  let b2 := two_step_buffers 1 9 8 3 4 (λ _, 5%R) (λ _, 6%R) in
  slot (outputs (forward_pass act_tanh b1)) (Z.of_nat 0)
  = slot (outputs (forward_pass act_tanh b2)) (Z.of_nat 0).
Proof.
  intros b1 b2.
  pose proof (forward_pass_causal act_tanh 2 1 1 1 b1 b2 0
    (two_step_buffers_well_shaped _ _ _ _ _ _ _)
    (two_step_buffers_well_shaped _ _ _ _ _ _ _)) as Hc.
  destruct (Hc (λ _, eq_refl) (λ _, eq_refl) eq_refl eq_refl) with (s := 0%nat)
    as [Hy _].
  - intros s Hs. replace s with 0%nat by lia. reflexivity.
  - lia.
  - lia.
  - exact Hy.
Defined.

Lemma forward_pass_idempotent_witness :
  let b' := forward_pass act_sigmoid
              (two_step_buffers 1 2 7 3 4 (λ _, 5%R) (λ _, 6%R)) in
  outputs (forward_pass act_sigmoid b') = outputs b'.
Proof.
  intros b'.
  pose proof (forward_pass_idempotent act_sigmoid 2 1 1 1
    (two_step_buffers 1 2 7 3 4 (λ _, 5%R) (λ _, 6%R))
    (two_step_buffers_well_shaped _ _ _ _ _ _ _)) as [Hy _].
  exact Hy.
Defined.

Lemma forward_pass_empty_sequence_witness :
  let b := context_only_buffers 3 4 (λ _, 5%R) (λ _, 6%R) in
  outputs (forward_pass act_rel b) = outputs b.
Proof.
  intros b.
  pose proof (forward_pass_empty_sequence act_rel 1 1 1 b
    (context_only_buffers_well_shaped _ _ _ _)) as [Hy _].
  exact Hy.
Defined.

(** ** Registering hooks: [add_hook] and [__init_from_description__] *)

Section Registering.
Context {H : Type}.
Implicit Types (hook : Registered H) (hooks : list (string * Registered H)).

Lemma foldl_max_ge (l : list Z) (x : Z) :
  x ≤ foldl Z.max x l ∧ ∀ y, y ∈ l → y ≤ foldl Z.max x l.
Proof.
  revert x. induction l as [|z l IH]; intros x; simpl.
  - split; [lia|]. intros y Hy. by apply elem_of_nil in Hy.
  - destruct (IH (Z.max x z)) as [IH1 IH2]. split; [lia|].
    intros y Hy. apply elem_of_cons in Hy as [->|Hy]; [lia|by apply IH2].
Qed.

Lemma pymax_ge (l : list Z) (m : Z) :
  pymax l = Some m → ∀ y, y ∈ l → y ≤ m.
Proof.
  destruct l as [|x l]; [done|]. simpl. intros [= <-] y Hy.
  destruct (foldl_max_ge l x) as [H1 H2].
  apply elem_of_cons in Hy as [->|Hy]; [done|by apply H2].
Qed.

Lemma add_hook_added hook hooks hooks' :
  add_hook hook hooks = Added hooks' →
  ∃ p, hooks' = hooks ++ [(reg_name hook, set_priority p hook)] ∧
       ∀ n h, (n, h) ∈ hooks ++ [(reg_name hook, hook)] →
         ∃ q, reg_priority h = Some q ∧ q < p.
Proof.
  unfold add_hook. case_bool_decide as Hin; [done|].
  destruct (mapM _ _) as [ps|] eqn:Hps; [|done]. simpl.
  destruct (pymax ps) as [top|] eqn:Htop; [|done].
  intros [= <-]. exists (top + 1). split; [done|].
  apply mapM_Some in Hps.
  intros n h Hh. apply list_elem_of_lookup in Hh as [i Hi].
  destruct (Forall2_lookup_l _ _ _ _ _ Hps Hi) as (q & Hq & Hpq).
  exists q. split; [done|].
  pose proof (pymax_ge ps top Htop q) as Hle.
  assert (q ≤ top); [|lia]. apply Hle. by eapply list_elem_of_lookup_2.
Qed.

(** X6: [add_hook] raises [ValueError] exactly when a hook of that name
    is registered; when it returns, the hooks registered before are as
    they were and in their order, the new hook comes last, under its
    name, and its priority is greater than the priority of every other
    registered hook and than the priority it came with. *)
Theorem add_hook_registers_last hook hooks :
  (add_hook hook hooks = ValueError ↔ reg_name hook ∈ hooks.*1) ∧
  ∀ hooks', add_hook hook hooks = Added hooks' →
    ∃ p, hooks' = hooks ++ [(reg_name hook, set_priority p hook)] ∧
         (∀ n h, (n, h) ∈ hooks → ∃ q, reg_priority h = Some q ∧ q < p) ∧
         (∃ q, reg_priority hook = Some q ∧ q < p).
Proof.
  split.
  - unfold add_hook. case_bool_decide as Hin; [done|].
    destruct (_ ≫= pymax); split; done.
  - intros hooks' E.
    destruct (add_hook_added hook hooks hooks' E) as (p & -> & Hall).
    exists p. split; [done|]. split.
    + intros n h Hh. apply (Hall n h). apply elem_of_app. by left.
    + apply (Hall (reg_name hook) hook). apply elem_of_app. right.
      by apply list_elem_of_singleton.
Qed.

(** Hooks registered through [add_hook]: each under its own name, with
    priorities that grow along the order of registration. *)
Definition registered_in_order hooks : Prop :=
  Forall (λ x, x.1 = reg_name x.2) hooks ∧
  StronglySorted (λ x y, get_priority x < get_priority y) hooks.

Lemma add_hook_in_order hook hooks hooks' :
  registered_in_order hooks → add_hook hook hooks = Added hooks' →
  registered_in_order hooks'.
Proof.
  intros [Hn Hs] E.
  destruct (add_hook_added hook hooks hooks' E) as (p & -> & Hall).
  assert (Hlt : ∀ n h, (n, h) ∈ hooks → ∃ q, reg_priority h = Some q ∧ q < p).
  { intros n h Hh. apply (Hall n h). apply elem_of_app. by left. }
  clear Hall.
  split.
  - apply Forall_app. split; [done|]. by repeat constructor.
  - clear E. revert Hn Hlt. induction Hs as [|x l Hsl IH Hx]; intros Hn Hlt; simpl.
    + repeat constructor.
    + apply Forall_cons in Hn as [Hn1 Hn2].
      constructor.
      * apply IH; [done|]. intros n h Hh. apply (Hlt n h).
        apply elem_of_cons. by right.
      * apply Forall_app. split; [done|]. constructor; [|done].
        destruct x as [n h]. destruct (Hlt n h) as (q & Hq & Hqp).
        { apply elem_of_cons. by left. }
        unfold get_priority. simpl. by rewrite Hq.
Qed.

Lemma add_hooks_from_in_order (new : list (Registered H)) hooks hooks' :
  registered_in_order hooks →
  foldl (λ r hook, match r with
                   | Added hooks => add_hook hook hooks
                   | _ => r
                   end) (Added hooks) new = Added hooks' →
  registered_in_order hooks'.
Proof.
  revert hooks. induction new as [|hook new IH]; intros hooks Hin; simpl.
  - by intros [= <-].
  - destruct (add_hook hook hooks) as [hooks1| |hooks1] eqn:E.
    + apply IH. by eapply add_hook_in_order.
    + intros Hf. exfalso. revert Hf. clear.
      induction new as [|h new IH]; [done|]. exact IH.
    + intros Hf. exfalso. revert Hf. clear.
      induction new as [|h new IH]; [done|]. exact IH.
Qed.

(** *** Sorting by priority *)

Lemma insert_sorted_perm {A} (key : A → Z) (x : A) (l : list A) :
  insert_sorted key x l ≡ₚ x :: l.
Proof.
  induction l as [|y l IH]; simpl; [done|].
  destruct (key x <=? key y); [done|].
  rewrite IH. apply Permutation_swap.
Qed.

Lemma sorted_perm {A} (key : A → Z) (l : list A) : sorted key l ≡ₚ l.
Proof.
  induction l as [|x l IH]; simpl; [done|].
  unfold sorted in *. simpl. by rewrite insert_sorted_perm, IH.
Qed.

Lemma insert_sorted_sorted {A} (key : A → Z) (x : A) (l : list A) :
  StronglySorted (λ a b, key a ≤ key b) l →
  StronglySorted (λ a b, key a ≤ key b) (insert_sorted key x l).
Proof.
  induction 1 as [|y l Hs IH Hy]; simpl.
  - repeat constructor.
  - destruct (Z.leb_spec (key x) (key y)) as [Hle|Hgt].
    + constructor; [by constructor|]. constructor; [done|].
      eapply Forall_impl; [done|]. simpl. intros; lia.
    + constructor; [done|]. rewrite insert_sorted_perm.
      constructor; [lia|done].
Qed.

Lemma sorted_sorted {A} (key : A → Z) (l : list A) :
  StronglySorted (λ a b, key a ≤ key b) (sorted key l).
Proof.
  induction l as [|x l IH]; simpl; [constructor|].
  by apply insert_sorted_sorted.
Qed.

(** A list sorted by a key is the only sorted arrangement of its
    elements when their keys differ. *)
Lemma sorted_unique {A} (key : A → Z) (l1 l2 : list A) :
  StronglySorted (λ a b, key a ≤ key b) l1 →
  StronglySorted (λ a b, key a < key b) l2 →
  l1 ≡ₚ l2 → l1 = l2.
Proof.
  intros H1. revert l2. induction H1 as [|x l1 Hs1 IH Hx]; intros l2 H2 Hp.
  - apply Permutation_nil_l in Hp. by subst.
  - destruct H2 as [|y l2 Hs2 Hy].
    { by apply Permutation_nil_r in Hp. }
    assert (x = y) as ->.
    { assert (Hxin : x ∈ y :: l2) by (rewrite <- Hp; apply list_elem_of_here).
      assert (Hyin : y ∈ x :: l1) by (rewrite Hp; apply list_elem_of_here).
      apply elem_of_cons in Hxin as [->|Hxin]; [done|].
      apply elem_of_cons in Hyin as [->|Hyin]; [done|].
      rewrite Forall_forall in Hx, Hy.
      specialize (Hx y Hyin). specialize (Hy x Hxin). lia. }
    f_equal. apply IH; [done|]. by apply Permutation_cons_inv in Hp.
Qed.

(** X7: hooks registered one after the other through [add_hook] are
    put back in the order of their registration by
    [__init_from_description__], in whatever order the description
    holds them, and nothing else about them is changed. *)
Theorem init_from_description_restores_order (new : list (Registered H))
    hooks stored :
  add_hooks new = Added hooks → stored ≡ₚ hooks →
  init_from_description stored = hooks.
Proof.
  intros Hadd Hperm.
  destruct (add_hooks_from_in_order new [] hooks) as [Hn Hs];
    [by split; constructor|done|].
  unfold init_from_description.
  rewrite (sorted_unique get_priority (sorted get_priority stored) hooks).
  - apply list_eq. intros i. rewrite list_lookup_fmap.
    destruct (hooks !! i) as [[n h]|] eqn:Hi; [|done]. simpl. f_equal.
    rewrite Forall_forall in Hn.
    specialize (Hn (n, h) (list_elem_of_lookup_2 _ _ _ Hi)). simpl in Hn.
    subst n. by destruct h.
  - apply sorted_sorted.
  - done.
  - by rewrite sorted_perm.
Qed.

End Registering.

Lemma add_hook_registers_last_witness :
  let hook := mkRegistered "b" (Some 0) tt in
  let hooks := [("a", mkRegistered "a" (Some 1) tt)] in
  ∃ p, [("a", mkRegistered "a" (Some 1) tt); ("b", mkRegistered "b" (Some 2) tt)]
       = hooks ++ [(reg_name hook, set_priority p hook)] ∧
       ∀ n h, (n, h) ∈ hooks → ∃ q, reg_priority h = Some q ∧ q < p.
Proof.
  intros hook hooks.
  destruct (proj2 (add_hook_registers_last hook hooks)
              [("a", mkRegistered "a" (Some 1) tt);
               ("b", mkRegistered "b" (Some 2) tt)] eq_refl)
    as (p & Hp & Hlt & _).
  exists p. by split.
Defined.

Lemma init_from_description_restores_order_witness :
  init_from_description
    [("b", mkRegistered "b" (Some 2) tt); ("c", mkRegistered "c" (Some 3) tt);
     ("a", mkRegistered "a" (Some 1) tt)]
  = [("a", mkRegistered "a" (Some 1) tt); ("b", mkRegistered "b" (Some 2) tt);
     ("c", mkRegistered "c" (Some 3) tt)].
Proof.
  apply (init_from_description_restores_order
           [mkRegistered "a" (Some 0) tt; mkRegistered "b" (Some 0) tt;
            mkRegistered "c" (Some 0) tt]).
  - vm_compute. reflexivity.
  - apply Permutation_sym, (Permutation_cons_append [_; _]).
Defined.

(** ** The trainer: dispatches, the loop and the feeders *)

Section TrainingExtras.
Context {World V Batch : Type} `{Collaborators World V Batch}.

Abbreviation M := (@M World V Batch).
Abbreviation Trainer := (Trainer World V Batch).
Abbreviation event := (event Batch).
Notation "'let*' x ':=' m 'in' k" := (bind m (λ x, k))
  (at level 10, x name, m at level 200, k at level 200).
Notation "m ';;;' k" := (bind m (λ _, k))
  (at level 100, right associativity).

Implicit Types (s : Trainer) (hs : list (string * Hook World V)).

(** *** [_start_hooks] *)

Lemma start_loop_starts hs s r s' :
  start_loop hs s = (r, s') →
  logs s' = logs s ∧
  ∃ evs, trace s' = trace s ++ evs ∧
    starts_of evs `prefix_of` (filter (λ nh, has_start nh.2) hs).*1 ∧
    (r = Done tt → starts_of evs = (filter (λ nh, has_start nh.2) hs).*1) ∧
    (∀ e, r = Raised e → ∃ name, e = HookError name ∧
                                  last (starts_of evs) = Some name).
Proof.
  revert s. induction hs as [|[name hook] rest IH]; intros s; simpl.
  - intros [= <- <-]. split; [done|]. exists []. rewrite app_nil_r.
    repeat split; done.
  - destruct (hook_start hook) as [start|] eqn:Hstart.
    2:{ rewrite filter_cons, decide_False
          by (unfold has_start; simpl; rewrite Hstart; simpl; tauto).
        apply IH. }
    rewrite filter_cons, decide_True
      by (unfold has_start; simpl; rewrite Hstart; simpl; tauto).
    unfold bind at 1 2, get, tell, modify. simpl.
    destruct (start (world s)) as [w|].
    + intros E.
      apply bind_run in E as [(a & s1 & [= <- <-] & E)|[(e & [=] & _)|[[=] _]]].
      apply IH in E as (Hl & evs & Htr & Hpre & Hdone & Hraise).
      split; [done|]. exists (EvHookStart name :: evs). simpl in *.
      split; [rewrite Htr; symmetry; apply (app_assoc _ [_] _)|].
      split; [by apply prefix_cons|].
      split; [intros ->; by rewrite Hdone|].
      intros e ->. destruct (Hraise e eq_refl) as (n & -> & Hlast).
      exists n. split; [done|].
      destruct (starts_of evs) as [|a l]; [done|]. exact Hlast.
    + intros [= <- <-]. split; [done|]. exists [EvHookStart name]. simpl.
      split; [done|]. split; [apply prefix_cons, prefix_nil|].
      split; [done|]. intros e [= <-]. by exists name.
Qed.

(** X8: [_start_hooks] replaces the logs by
    [{'training_loss': [NaN]}], whatever they held and also when a
    [start] raises; it calls [start] on the hooks that have one, in the
    order of [self.hooks], and when one of them raises, the exception
    is passed on and the hooks after it are not started. *)
Theorem start_hooks_resets_logs s r s' :
  start_hooks s = (r, s') →
  let new := drop (length (trace s)) (trace s') in
  let with_start := (filter (λ nh, has_start nh.2) (hooks s)).*1 in
  logs s' = {["training_loss" := LList [nan]]} ∧
  starts_of new `prefix_of` with_start ∧
  (r = Done tt → starts_of new = with_start) ∧
  (∀ e, r = Raised e →
     ∃ name, e = HookError name ∧ last (starts_of new) = Some name).
Proof.
  intros E new ws.
  unfold start_hooks, bind at 1 2, modify, get in E. simpl in E.
  apply start_loop_starts in E as (Hl & evs & Htr & Hpre & Hdone & Hraise).
  simpl in *. subst new ws. rewrite Htr, drop_app_length. by rewrite Hl.
Qed.

(** *** [_emit_hooks]: the stop signal and a zero interval *)

Lemma signals_stop_iff (evs : list event) :
  signals_stop evs = true ↔ ∃ name e u, EvHookCall name e u true ∈ evs.
Proof.
  unfold signals_stop. induction evs as [|ev evs IH]; simpl.
  - split; [done|]. intros (n & e & u & Hin). by apply elem_of_nil in Hin.
  - rewrite orb_true_iff, IH. split.
    + intros [Hev|(n & e & u & Hin)].
      * destruct ev as [| | |n e u st| | | |]; try done. simpl in Hev. subst st.
        exists n, e, u. apply list_elem_of_here.
      * exists n, e, u. by apply list_elem_of_further.
    + intros (n & e & u & Hin). apply elem_of_cons in Hin as [<-|Hin].
      * by left.
      * right. by exists n, e, u.
Qed.

(** X9: a dispatch that returns gives back [True] exactly when one of
    the hooks it called raised [StopIteration]; it changes neither
    counter nor the registered hooks. *)
Theorem emit_hooks_stop_signal ts s stop s' :
  emit_hooks ts s = (Done stop, s') →
  let new := drop (length (trace s)) (trace s') in
  (stop = true ↔ ∃ name e u, EvHookCall name e u true ∈ new) ∧
  current_epoch_nr s' = current_epoch_nr s ∧
  current_update_nr s' = current_update_nr s ∧
  hooks s' = hooks s.
Proof.
  intros E new.
  apply emit_hooks_run in E as (Hc & _ & evs & cs & Htr & _ & _ & Hdone).
  destruct (Hdone stop eq_refl) as [_ ->].
  destruct Hc as (He & Hu & Hh & _).
  split; [|done]. subst new. rewrite Htr, drop_app_length.
  rewrite signals_stop_iff. split.
  - intros (n & e & u & Hin). exists n, e, u. by apply list_elem_of_further.
  - intros (n & e & u & Hin). apply elem_of_cons in Hin as [[=]|Hin].
    by exists n, e, u.
Qed.

Lemma emit_loop_zero_interval ts count hs acc s r s' name hook :
  (name, hook) ∈ hs → timescale hook = ts → interval hook = 0 →
  emit_loop ts count hs acc s = (r, s') → ∃ e, r = Raised e.
Proof.
  intros Hin Hts Hint. revert acc s.
  induction hs as [|[n h] rest IH]; intros acc s.
  { by apply elem_of_nil in Hin. }
  simpl. destruct (negb (String.eqb (timescale h) ts)) eqn:Ets.
  { apply IH. apply elem_of_cons in Hin as [[= -> ->]|Hin]; [|done].
    rewrite Hts, String.eqb_refl in Ets. done. }
  destruct (Z.eqb (interval h) 0) eqn:Ei.
  { intros [= <- <-]. by eexists. }
  apply elem_of_cons in Hin as [[= -> ->]|Hin].
  { rewrite Hint in Ei. done. }
  destruct (negb (Z.eqb (count `mod` interval h) 0)); [by apply IH|].
  intros E.
  apply bind_run in E as [(a & s1 & Ec & E)|[(e & _ & ->)|[Ec ->]]].
  - apply bind_run in E as [(a' & s2 & El & E)|[(e & _ & ->)|[El ->]]].
    + by eapply IH.
    + by eexists.
    + by apply add_log_self_run in El as (_ & _ & ?).
  - by eexists.
  - by apply call_hook_run in Ec as (_ & st & _ & ? & _).
Qed.

Lemma emit_loop_app ts count hs1 hs2 acc s :
  Forall (λ nh, timescale nh.2 ≠ ts) hs1 →
  emit_loop ts count (hs1 ++ hs2) acc s = emit_loop ts count hs2 acc s.
Proof.
  induction 1 as [|[n h] rest Hne _ IH]; simpl; [done|].
  simpl in Hne. apply String.eqb_neq in Hne. by rewrite Hne.
Qed.

(** X10: the interval of a hook is not validated: a dispatch at the
    timescale of a registered hook whose interval is zero never
    returns, it raises; when the hooks registered before that hook are
    of the other timescale, what it raises is [ZeroDivisionError], and
    no hook has been called. *)
Theorem emit_hooks_zero_interval ts s r s' name hook :
  (name, hook) ∈ hooks s → timescale hook = ts → interval hook = 0 →
  emit_hooks ts s = (r, s') →
  (∃ e, r = Raised e) ∧
  ∀ before after,
    hooks s = before ++ (name, hook) :: after →
    Forall (λ nh, timescale nh.2 ≠ ts) before →
    r = Raised ZeroDivisionError ∧
    calls_of (drop (length (trace s)) (trace s')) = [].
Proof.
  intros Hin Hts Hint E.
  unfold emit_hooks, bind at 1 2, get, tell, modify in E. simpl in E.
  split.
  - by eapply emit_loop_zero_interval.
  - intros before after Hh Hb. rewrite Hh, emit_loop_app in E by done.
    simpl in E. rewrite Hts, String.eqb_refl, Hint in E. simpl in E.
    injection E as <- <-. simpl. by rewrite drop_app_length.
Qed.

(** *** The counters *)

(** [n] consecutive numbers after [from]. *)
Definition numbered (from : Z) (n : nat) : list Z :=
  (λ k, from + Z.of_nat k) <$> seq 1 n.

Lemma numbered_app from n1 n2 :
  numbered from n1 ++ numbered (from + Z.of_nat n1) n2 = numbered from (n1 + n2).
Proof.
  unfold numbered. rewrite seq_app, fmap_app. f_equal.
  apply list_eq. intros i. rewrite !list_lookup_fmap.
  destruct (decide (i < n2)%nat) as [Hi|Hi].
  - rewrite !lookup_seq_lt by done. simpl. f_equal. lia.
  - rewrite !lookup_seq_ge by lia. done.
Qed.

(** From [s] to [s'] the trainer has recorded [evs]: the hooks are the
    same, every optimisation step and every epoch begun carries the
    next number, and the counters stand at the last numbers given. *)
Definition advance s (evs : list event) s' : Prop :=
  hooks s' = hooks s ∧ double_buffering s' = double_buffering s ∧
  trace s' = trace s ++ evs ∧
  steps_of evs = numbered (current_update_nr s) (length (steps_of evs)) ∧
  current_update_nr s' = current_update_nr s + Z.of_nat (length (steps_of evs)) ∧
  epochs_of evs = numbered (current_epoch_nr s) (length (epochs_of evs)) ∧
  current_epoch_nr s' = current_epoch_nr s + Z.of_nat (length (epochs_of evs)).

Lemma advance_refl s : advance s [] s.
Proof. unfold advance. simpl. rewrite app_nil_r, !Z.add_0_r. done. Qed.

Lemma advance_trans s evs1 s1 evs2 s2 :
  advance s evs1 s1 → advance s1 evs2 s2 → advance s (evs1 ++ evs2) s2.
Proof.
  intros (Hh1 & Hd1 & Ht1 & Hs1 & Hu1 & He1 & Hn1)
         (Hh2 & Hd2 & Ht2 & Hs2 & Hu2 & He2 & Hn2).
  unfold advance, steps_of, epochs_of in *. rewrite !omap_app, !length_app.
  split; [congruence|]. split; [congruence|].
  split; [by rewrite Ht2, Ht1, app_assoc|].
  split; [|split; [lia|split; [|lia]]].
  - rewrite <- numbered_app, <- Hs1, <- Hu1, <- Hs2. done.
  - rewrite <- numbered_app, <- He1, <- Hn1, <- He2. done.
Qed.

(** Events that are neither a step nor the beginning of an epoch. *)
Definition is_counted_event (e : event) : bool :=
  match e with
  | EvStep _ | EvEpoch _ => true
  | _ => false
  end.

Lemma uncounted_events (evs : list event) :
  Forall (λ e, is_counted_event e = false) evs →
  steps_of evs = [] ∧ epochs_of evs = [].
Proof.
  induction 1 as [|e evs He _ [IH1 IH2]]; [done|].
  unfold steps_of, epochs_of in *. by destruct e.
Qed.

Lemma advance_uncounted s evs s' :
  same_counters s s' → trace s' = trace s ++ evs →
  Forall (λ e, is_counted_event e = false) evs → advance s evs s'.
Proof.
  intros (He & Hu & Hh & Hd) Htr Hev.
  destruct (uncounted_events evs Hev) as [E1 E2].
  unfold advance. rewrite E1, E2. simpl. rewrite !Z.add_0_r. done.
Qed.

Definition tracks {A} (m : M A) : Prop :=
  ∀ s r s', m s = (r, s') → ∃ evs, advance s evs s'.

Lemma tracks_ret {A} (a : A) : tracks (ret a).
Proof. intros s r s' [= <- <-]. exists []. apply advance_refl. Qed.

Lemma tracks_bind {A B} (m : M A) (k : A → M B) :
  tracks m → (∀ a, tracks (k a)) → tracks (bind m k).
Proof.
  intros Hm Hk s r s' E.
  apply bind_run in E as [(a & s1 & Em & E)|[(e & Em & ->)|[Em ->]]]; [|eauto..].
  apply Hm in Em as [evs1 E1]. apply Hk in E as [evs2 E2].
  exists (evs1 ++ evs2). by eapply advance_trans.
Qed.

Lemma tracks_get : tracks get.
Proof. intros s r s' [= <- <-]. exists []. apply advance_refl. Qed.

Lemma tracks_emit_hooks ts : tracks (emit_hooks ts).
Proof.
  intros s r s' E.
  apply emit_hooks_run in E as (Hc & _ & evs & cs & Htr & Hcalls & _).
  exists (EvEmit ts (counter ts s) :: evs). apply advance_uncounted; [done..|].
  constructor; [done|]. apply calls_to_call_events in Hcalls.
  eapply Forall_impl; [done|]. by intros [].
Qed.

Lemma tracks_add_log_self name val : tracks (add_log_self name val).
Proof.
  intros s r s' E. apply add_log_self_run in E as (Htr & Hc & _).
  exists []. apply advance_uncounted; [done| |done]. by rewrite app_nil_r.
Qed.

Lemma tracks_provide data : tracks (provide data).
Proof.
  intros s r s' [= <- <-]. exists [EvProvide data].
  apply advance_uncounted; [done|done|]. by repeat constructor.
Qed.

Lemma tracks_update_step i : tracks (update_step i).
Proof.
  intros s r s'. unfold update_step, bind at 1 2 3, get, modify, tell. simpl.
  destruct (stepper_run (world s)) as [loss w].
  unfold bind at 1 2 3 4, get, modify. simpl. intros E.
  apply tracks_emit_hooks in E as [evs E].
  exists ([EvStep (current_update_nr s + 1)] ++ evs).
  eapply advance_trans; [|exact E].
  unfold advance, numbered. simpl. repeat split; try done; lia.
Qed.

Lemma tracks_run_network_from body i iterator :
  (∀ i, tracks (body i)) → tracks (run_network_from body i iterator).
Proof.
  intros Hbody. revert i. induction iterator as [|data rest IH]; intros i; simpl.
  - apply tracks_ret.
  - apply tracks_bind; [apply tracks_provide|]. intros _.
    apply tracks_bind; [apply Hbody|]. intros [|]; [apply tracks_ret|apply IH].
Qed.

Lemma tracks_double_buffer_loop sched body i iterator :
  (∀ i, tracks (body i)) → tracks (double_buffer_loop sched body i iterator).
Proof.
  intros Hbody. revert i. induction iterator as [|data rest IH]; intros i; simpl.
  - apply tracks_bind.
    + destruct (sched i).
      * apply tracks_bind; [apply tracks_ret|]. intros _. apply Hbody.
      * apply tracks_bind; [apply Hbody|]. intros brk.
        apply tracks_bind; [apply tracks_ret|]. intros _. apply tracks_ret.
    + intros [|]; apply tracks_ret.
  - apply tracks_bind.
    + destruct (sched i).
      * apply tracks_bind; [apply tracks_provide|]. intros _. apply Hbody.
      * apply tracks_bind; [apply Hbody|]. intros brk.
        apply tracks_bind; [apply tracks_provide|]. intros _. apply tracks_ret.
    + intros [|]; [apply tracks_ret|apply IH].
Qed.

(** The part of an epoch before its dispatch of the ['epoch'] hooks. *)
Definition epoch_updates (sched : nat → bool) : M unit :=
  let* s := get in
  modify (set_train_loss []) ;;;
  let iterator := training_data_getter (world s) in
  (if double_buffering s
   then run_network_double_buffer sched update_step iterator
   else run_network update_step iterator) ;;;
  let* s1 := get in
  add_log_self "training_loss" (HScalar (np_mean (train_loss s1))).

Lemma train_epoch_split sched s :
  train_epoch sched s = (epoch_updates sched ;;; emit_hooks "epoch") s.
Proof.
  unfold train_epoch, epoch_updates, bind at 1 2 6 7, get, modify. simpl.
  unfold bind.
  by destruct (if double_buffering s then _ else _) as [[[]|e|] s1].
Qed.

Lemma tracks_epoch_updates sched : tracks (epoch_updates sched).
Proof.
  unfold epoch_updates. apply tracks_bind; [apply tracks_get|]. intros s.
  apply tracks_bind.
  { intros s0 r s' [= <- <-]. exists [].
    apply advance_uncounted; [done| |done]. simpl. by rewrite app_nil_r. }
  intros _. apply tracks_bind.
  { destruct (double_buffering s).
    - unfold run_network_double_buffer.
      destruct (training_data_getter _); [apply tracks_ret|].
      apply tracks_bind; [apply tracks_provide|]. intros _.
      apply tracks_double_buffer_loop, tracks_update_step.
    - apply tracks_run_network_from, tracks_update_step. }
  intros _. apply tracks_bind; [apply tracks_get|]. intros s1.
  apply tracks_add_log_self.
Qed.

Lemma tracks_train_epochs sched fuel : tracks (train_epochs sched fuel).
Proof.
  induction fuel as [|fuel IH]; simpl.
  - intros s r s' [= <- <-]. exists []. apply advance_refl.
  - intros s r s'. unfold bind at 1 2 3, get, modify, tell. simpl. intros E.
    assert (Ht : tracks (let* stop := train_epoch sched in
                         if stop then ret tt else train_epochs sched fuel)).
    { apply tracks_bind.
      - intros s0 r0 s0'. rewrite train_epoch_split.
        apply tracks_bind; [apply tracks_epoch_updates|]. intros _.
        apply tracks_emit_hooks.
      - intros [|]; [apply tracks_ret|apply IH]. }
    apply Ht in E as [evs E].
    exists ([EvEpoch (current_epoch_nr s + 1)] ++ evs).
    eapply advance_trans; [|exact E].
    unfold advance, numbered. simpl. repeat split; try done; lia.
Qed.

Lemma tracks_train sched fuel : tracks (train sched fuel).
Proof.
  unfold train. apply tracks_bind.
  { intros s r s' E.
    apply train_start_run in E as (Hc & _ & [[_ Htr]|(starts & Htr & Hst)]).
    - exists []. apply advance_uncounted; [done| |done]. by rewrite app_nil_r.
    - exists (EvStepperStart :: starts). apply advance_uncounted; [done..|].
      constructor; [done|]. eapply Forall_impl; [done|]. by intros []. }
  intros _. apply tracks_bind; [apply tracks_emit_hooks|]. intros [|].
  { apply tracks_ret. }
  apply tracks_bind; [apply tracks_emit_hooks|]. intros [|].
  { apply tracks_ret. }
  apply tracks_train_epochs.
Qed.

(** X11: the counters count: in a run of [train], however it ends, the
    optimisation steps carry the consecutive update numbers after the
    one [train] was entered with, across all epochs and without a
    reset, the epochs begun carry the consecutive epoch numbers, and
    the counters stand at the number of the last step and of the last
    epoch begun; the registered hooks are the same. *)
Theorem train_counts_updates_and_epochs sched fuel s r s' :
  train sched fuel s = (r, s') →
  let new := drop (length (trace s)) (trace s') in
  steps_of new = numbered (current_update_nr s) (length (steps_of new)) ∧
  current_update_nr s' = current_update_nr s + Z.of_nat (length (steps_of new)) ∧
  epochs_of new = numbered (current_epoch_nr s) (length (epochs_of new)) ∧
  current_epoch_nr s' = current_epoch_nr s + Z.of_nat (length (epochs_of new)) ∧
  hooks s' = hooks s.
Proof.
  intros E new.
  apply tracks_train in E as (evs & Hh & _ & Htr & Hs & Hu & He & Hn).
  subst new. rewrite Htr, drop_app_length. done.
Qed.

(** *** How [train] ends *)

Lemma emit_hooks_stopped ts s s' :
  emit_hooks ts s = (Done true, s') →
  ∃ name hook evs,
    (name, hook) ∈ hooks s ∧ timescale hook = ts ∧
    trace s' = trace s ++ evs ∧
    EvHookCall name (current_epoch_nr s) (current_update_nr s) true ∈ evs.
Proof.
  intros E.
  apply emit_hooks_run in E as (_ & _ & evs & cs & Htr & Hcalls & _ & Hdone).
  destruct (Hdone true eq_refl) as [-> Hstop].
  symmetry in Hstop. apply signals_stop_iff in Hstop as (n & e & u & Hin).
  apply list_elem_of_lookup in Hin as [i Hi].
  destruct (Forall2_lookup_l _ _ _ _ _ Hcalls Hi) as ([n' h] & Hc & st & Hev).
  simpl in Hev. injection Hev as -> -> -> <-.
  apply list_elem_of_lookup_2, list_elem_of_filter in Hc as [Hdue Hh].
  unfold is_due in Hdue. simpl in Hdue.
  apply andb_True in Hdue as [Hts _]. apply Is_true_true, String.eqb_eq in Hts.
  exists n', h, (EvEmit ts (counter ts s) :: evs).
  split; [done|]. split; [done|]. split; [done|].
  apply list_elem_of_further. by eapply list_elem_of_lookup_2.
Qed.

Lemma train_epochs_stopped sched fuel s s' :
  train_epochs sched fuel s = (Done tt, s') →
  ∃ name hook e u evs,
    (name, hook) ∈ hooks s ∧ timescale hook = "epoch" ∧
    current_epoch_nr s < e ∧
    trace s' = trace s ++ evs ∧ EvHookCall name e u true ∈ evs.
Proof.
  revert s. induction fuel as [|fuel IH]; intros s; simpl; [done|].
  unfold bind at 1 2 3, get, modify, tell. simpl.
  set (s0 := record _ _). intros E.
  apply bind_run in E as [(stop & s2 & Ee & E)|[(e & _ & [=])|[_ [=]]]].
  rewrite train_epoch_split in Ee.
  apply bind_run in Ee as [([] & s1 & Eu & Ee)|[(e & _ & [=])|[_ [=]]]].
  apply tracks_epoch_updates in Eu as (evs1 & Hh1 & _ & Ht1 & _ & _ & _ & Hn1).
  subst s0. simpl in Hh1, Ht1, Hn1.
  pose proof Ee as Ee'.
  apply tracks_emit_hooks in Ee' as (evs2 & Hh2 & _ & Ht2 & _ & _ & _ & Hn2).
  destruct stop.
  - injection E as <-.
    apply emit_hooks_stopped in Ee as (n & h & evs & Hin & Hts & Htr & Hev).
    exists n, h, (current_epoch_nr s1), (current_update_nr s1),
      (EvEpoch (current_epoch_nr s + 1) :: evs1 ++ evs).
    split; [by rewrite <- Hh1|]. split; [done|].
    split; [rewrite Hn1; simpl; lia|].
    split.
    + rewrite Htr, Ht1. simpl. by rewrite <- !app_assoc.
    + apply list_elem_of_further, elem_of_app. by right.
  - apply IH in E as (n & h & e & u & evs & Hin & Hts & He & Htr & Hev).
    exists n, h, e, u, (EvEpoch (current_epoch_nr s + 1) :: evs1 ++ evs2 ++ evs).
    split; [by rewrite <- Hh1, <- Hh2|]. split; [done|].
    split; [rewrite Hn2, Hn1 in He; simpl in He; lia|].
    split.
    + rewrite Htr, Ht2, Ht1. simpl. by rewrite <- !app_assoc.
    + apply list_elem_of_further, elem_of_app. right.
      apply elem_of_app. by right.
Qed.

(** How [train] comes to return: through a [StopIteration] in the
    baseline dispatches, at the counters it was entered with, or, once
    the loop is entered, through a hook of timescale ['epoch']. *)
Lemma train_returns_through_stop sched fuel s s' :
  train sched fuel s = (Done tt, s') →
  ∃ name hook e u,
    (name, hook) ∈ hooks s ∧
    EvHookCall name e u true ∈ drop (length (trace s)) (trace s') ∧
    ((e = current_epoch_nr s ∧ u = current_update_nr s) ∨
     (timescale hook = "epoch" ∧ current_epoch_nr s < e)).
Proof.
  unfold train. intros E.
  apply bind_run in E as [([] & s1 & Es & E)|[(e & _ & [=])|[_ [=]]]].
  apply train_start_run in Es as ((He1 & Hu1 & Hh1 & _) & _ & Hs).
  assert (∃ evs1, trace s1 = trace s ++ evs1) as [evs1 Ht1].
  { destruct Hs as [[_ ->]|(starts & -> & _)]; [exists []|eauto].
    by rewrite app_nil_r. }
  apply bind_run in E as [(stop_e & s2 & Ee & E)|[(e & _ & [=])|[_ [=]]]].
  pose proof Ee as Ee'.
  apply tracks_emit_hooks in Ee' as (evs2 & Hh2 & _ & Ht2 & _ & Hu2 & _ & Hn2).
  destruct stop_e.
  { injection E as <-.
    apply emit_hooks_stopped in Ee as (n & h & evs & Hin & Hts & Htr & Hev).
    exists n, h, (current_epoch_nr s1), (current_update_nr s1).
    split; [by rewrite <- Hh1|]. split; [|left; done].
    rewrite Htr, Ht1, <- app_assoc, drop_app_length.
    apply elem_of_app. by right. }
  assert (Hc2 : current_epoch_nr s2 = current_epoch_nr s ∧
                current_update_nr s2 = current_update_nr s).
  { apply emit_hooks_run in Ee as ((? & ? & _) & _). split; congruence. }
  destruct Hc2 as [He2 Hu2'].
  apply bind_run in E as [(stop_u & s3 & Eu & E)|[(e & _ & [=])|[_ [=]]]].
  pose proof Eu as Eu'.
  apply tracks_emit_hooks in Eu' as (evs3 & Hh3 & _ & Ht3 & _ & _ & _ & _).
  destruct stop_u.
  { injection E as <-.
    apply emit_hooks_stopped in Eu as (n & h & evs & Hin & Hts & Htr & Hev).
    exists n, h, (current_epoch_nr s2), (current_update_nr s2).
    split; [by rewrite <- Hh1, <- Hh2|]. split; [|left; done].
    rewrite Htr, Ht2, Ht1, <- !app_assoc, drop_app_length.
    apply elem_of_app. right. apply elem_of_app. by right. }
  assert (He3 : current_epoch_nr s3 = current_epoch_nr s).
  { apply emit_hooks_run in Eu as ((? & ? & _) & _). congruence. }
  apply train_epochs_stopped in E as (n & h & e & u & evs & Hin & Hts & He & Htr & Hev).
  exists n, h, e, u.
  split; [by rewrite <- Hh1, <- Hh2, <- Hh3|].
  split; [|right; split; [done|lia]].
  rewrite Htr, Ht3, Ht2, Ht1, <- !app_assoc, drop_app_length.
  apply elem_of_app. right. apply elem_of_app. right.
  apply elem_of_app. by right.
Qed.

(** *** A stop ends the epoch *)

Lemma stopped_after_app (b : bool) (evs1 evs2 : list event) :
  stopped_after b (evs1 ++ evs2) = stopped_after (stopped_after b evs1) evs2.
Proof.
  revert b. induction evs1 as [|e evs1 IH]; intros b; [done|].
  destruct e as [| | |n e u [|]| | | |]; simpl; apply IH.
Qed.

Lemma steps_respect_stops_app (b : bool) (evs1 evs2 : list event) :
  steps_respect_stops b (evs1 ++ evs2)
  = steps_respect_stops b evs1 && steps_respect_stops (stopped_after b evs1) evs2.
Proof.
  revert b. induction evs1 as [|e evs1 IH]; intros b; [done|].
  destruct e as [| | |n e u [|]| | | |]; simpl; rewrite ?IH; try done.
  by rewrite andb_assoc.
Qed.

(** Events that are neither a step nor a call of a hook nor the
    beginning of an epoch. *)
Definition is_plain_event (e : event) : bool :=
  match e with
  | EvStep _ | EvEpoch _ | EvHookCall _ _ _ _ => false
  | _ => true
  end.

Lemma plain_events (b : bool) (evs : list event) :
  Forall (λ e, is_plain_event e = true) evs →
  steps_respect_stops b evs = true ∧ stopped_after b evs = b.
Proof. induction 1 as [|e evs He _ IH]; [done|]. by destruct e. Qed.

Lemma call_events (b : bool) (evs : list event) :
  Forall (λ e, is_call_event e = true) evs →
  steps_respect_stops b evs = true ∧
  stopped_after b evs = b || signals_stop evs.
Proof.
  intros Hc. revert b. induction Hc as [|e evs He _ IH]; intros b.
  { by rewrite orb_false_r. }
  destruct e as [| | |n e u [|]| | | |]; try done; simpl.
  - destruct (IH true) as [-> ->]. by rewrite orb_true_r.
  - apply IH.
Qed.

(** Whatever has happened before, the steps of what [m] records are run
    while no hook has signalled a stop in the epoch. *)
Definition heeds_stops {A} (m : M A) : Prop :=
  ∀ s r s' (b : bool), m s = (r, s') →
    ∃ evs, trace s' = trace s ++ evs ∧ steps_respect_stops b evs = true.

Lemma heeds_stops_bind {A B} (m : M A) (k : A → M B) :
  heeds_stops m → (∀ a, heeds_stops (k a)) → heeds_stops (bind m k).
Proof.
  intros Hm Hk s r s' b E.
  apply bind_run in E as [(a & s1 & Em & E)|[(e & Em & ->)|[Em ->]]]; [|eauto..].
  destruct (Hm _ _ _ b Em) as (evs1 & E1 & R1).
  destruct (Hk a _ _ _ (stopped_after b evs1) E) as (evs2 & E2 & R2).
  exists (evs1 ++ evs2). split; [by rewrite E2, E1, app_assoc|].
  by rewrite steps_respect_stops_app, R1, R2.
Qed.

Lemma heeds_stops_ret {A} (a : A) : heeds_stops (ret a).
Proof. intros s r s' b [= <- <-]. exists []. by rewrite app_nil_r. Qed.

Lemma emit_hooks_events ts s r s' :
  emit_hooks ts s = (r, s') →
  ∃ calls, trace s' = trace s ++ EvEmit ts (counter ts s) :: calls ∧
           Forall (λ e, is_call_event e = true) calls ∧
           ∀ stop, r = Done stop → stop = signals_stop calls.
Proof.
  intros E.
  apply emit_hooks_run in E as (_ & _ & evs & cs & Htr & Hcalls & _ & Hdone).
  exists evs. split; [done|]. split; [by eapply calls_to_call_events|].
  intros stop ->. by destruct (Hdone stop eq_refl).
Qed.

Lemma heeds_stops_emit_hooks ts : heeds_stops (emit_hooks ts).
Proof.
  intros s r s' b E. apply emit_hooks_events in E as (calls & Htr & Hc & _).
  eexists. split; [done|]. simpl. by apply call_events.
Qed.

(** The loop body: its steps are run while no stop has been signalled,
    and when it does not leave the loop, none has been signalled. *)
Definition stop_aware (body : nat → M bool) : Prop :=
  ∀ i s r s', body i s = (r, s') →
    ∃ evs, trace s' = trace s ++ evs ∧
           steps_respect_stops false evs = true ∧
           (r = Done false → stopped_after false evs = false).

Lemma stop_aware_update_step : stop_aware update_step.
Proof.
  intros i s r s'. unfold update_step, bind at 1 2 3, get, modify, tell. simpl.
  destruct (stepper_run (world s)) as [loss w].
  unfold bind at 1 2 3 4, get, modify. simpl. intros E.
  apply emit_hooks_events in E as (calls & Htr & Hc & Hstop).
  exists (EvStep (current_update_nr s + 1)
          :: EvEmit "update" (current_update_nr s + 1) :: calls).
  simpl in Htr. split; [by rewrite Htr, <- app_assoc|].
  destruct (call_events false calls Hc) as [R S]. simpl.
  split; [done|]. intros ->. rewrite S. simpl. symmetry. by apply Hstop.
Qed.

Lemma provide_events data s r s' :
  provide data s = (r, s') → r = Done tt ∧ trace s' = trace s ++ [EvProvide data].
Proof. by intros [= <- <-]. Qed.

Lemma run_network_from_heeds_stops body i iterator s r s' :
  stop_aware body →
  run_network_from body i iterator s = (r, s') →
  ∃ evs, trace s' = trace s ++ evs ∧ steps_respect_stops false evs = true.
Proof.
  intros Hbody. revert i s.
  induction iterator as [|data rest IH]; intros i s; simpl.
  { intros [= <- <-]. exists []. by rewrite app_nil_r. }
  intros E.
  apply bind_run in E as [([] & s1 & Ep & E)|[(e & Ep & _)|[Ep _]]];
    [|by apply provide_events in Ep as [? _]..].
  apply provide_events in Ep as [_ Htr1].
  apply bind_run in E as [(brk & s2 & Eb & E)|[(e & Eb & ->)|[Eb ->]]].
  - destruct (Hbody _ _ _ _ Eb) as (evs & Htr2 & R & S).
    destruct brk.
    + injection E as <- <-. exists (EvProvide data :: evs).
      split; [by rewrite Htr2, Htr1, <- app_assoc|]. done.
    + apply IH in E as (evs' & Htr3 & R').
      exists (EvProvide data :: evs ++ evs').
      split; [rewrite Htr3, Htr2, Htr1; by rewrite <- !app_assoc|].
      simpl. by rewrite steps_respect_stops_app, R, S.
  - destruct (Hbody _ _ _ _ Eb) as (evs & Htr2 & R & _).
    exists (EvProvide data :: evs).
    split; [by rewrite Htr2, Htr1, <- app_assoc|]. done.
  - destruct (Hbody _ _ _ _ Eb) as (evs & Htr2 & R & _).
    exists (EvProvide data :: evs).
    split; [by rewrite Htr2, Htr1, <- app_assoc|]. done.
Qed.

(** One turn of the double-buffered loop: the body, with the fetch of
    the next batch on one side of it. *)
Lemma double_buffer_turn (sched : nat → bool) (body : nat → M bool) (i : nat)
    (iterator : list Batch) s r s' :
  stop_aware body →
  (if sched i then run_it iterator ;;; body i
   else let* brk := body i in run_it iterator ;;; ret brk : M bool) s = (r, s') →
  ∃ evs, trace s' = trace s ++ evs ∧
         steps_respect_stops false evs = true ∧
         (r = Done false → stopped_after false evs = false).
Proof.
  intros Hbody.
  assert (Hit : ∀ s0 r0 s0', run_it iterator s0 = (r0, s0') →
    r0 = Done tt ∧ ∃ evs, trace s0' = trace s0 ++ evs ∧
                           Forall (λ e, is_plain_event e = true) evs).
  { intros s0 r0 s0'. destruct iterator as [|data rest]; simpl.
    - intros [= <- <-]. split; [done|]. exists []. by rewrite app_nil_r.
    - intros E. apply provide_events in E as [-> Htr]. split; [done|].
      exists [EvProvide data]. split; [done|]. by repeat constructor. }
  destruct (sched i); intros E.
  - apply bind_run in E as [([] & s1 & Ep & E)|[(e & Ep & _)|[Ep _]]];
      [|by apply Hit in Ep as [? _]..].
    apply Hit in Ep as (_ & evs1 & Htr1 & Hp).
    destruct (Hbody _ _ _ _ E) as (evs & Htr2 & R & S).
    destruct (plain_events false evs1 Hp) as [R1 S1].
    exists (evs1 ++ evs). split; [by rewrite Htr2, Htr1, app_assoc|].
    rewrite steps_respect_stops_app, stopped_after_app, R1, S1. done.
  - apply bind_run in E as [(brk & s1 & Eb & E)|[(e & Eb & ->)|[Eb ->]]].
    + destruct (Hbody _ _ _ _ Eb) as (evs & Htr1 & R & S).
      apply bind_run in E as [([] & s2 & Ep & E)|[(e & Ep & _)|[Ep _]]];
        [|by apply Hit in Ep as [? _]..].
      apply Hit in Ep as (_ & evs2 & Htr2 & Hp). injection E as <- <-.
      exists (evs ++ evs2). split; [by rewrite Htr2, Htr1, app_assoc|].
      rewrite steps_respect_stops_app, stopped_after_app, R.
      destruct (plain_events (stopped_after false evs) evs2 Hp) as [-> ->].
      done.
    + destruct (Hbody _ _ _ _ Eb) as (evs & Htr1 & R & _).
      exists evs. by repeat split.
    + destruct (Hbody _ _ _ _ Eb) as (evs & Htr1 & R & _).
      exists evs. by repeat split.
Qed.

Lemma double_buffer_loop_heeds_stops sched body i iterator s r s' :
  stop_aware body →
  double_buffer_loop sched body i iterator s = (r, s') →
  ∃ evs, trace s' = trace s ++ evs ∧ steps_respect_stops false evs = true.
Proof.
  intros Hbody. revert i s.
  induction iterator as [|data rest IH]; intros i s E.
  - cbn [double_buffer_loop] in E.
    apply bind_run in E as [(brk & s1 & Et & E)|[(e & Et & ->)|[Et ->]]].
    + apply (double_buffer_turn _ _ _ _ _ _ _ Hbody) in Et as (evs & Htr & R & _).
      exists evs. destruct brk; by injection E as <- <-.
    + apply (double_buffer_turn _ _ _ _ _ _ _ Hbody) in Et as (evs & Htr & R & _).
      by exists evs.
    + apply (double_buffer_turn _ _ _ _ _ _ _ Hbody) in Et as (evs & Htr & R & _).
      by exists evs.
  - cbn [double_buffer_loop] in E.
    apply bind_run in E as [(brk & s1 & Et & E)|[(e & Et & ->)|[Et ->]]].
    + apply (double_buffer_turn _ _ _ _ _ _ _ Hbody) in Et as (evs & Htr & R & S).
      destruct brk.
      * injection E as <- <-. by exists evs.
      * apply IH in E as (evs' & Htr' & R'). exists (evs ++ evs').
        split; [by rewrite Htr', Htr, app_assoc|].
        by rewrite steps_respect_stops_app, R, S.
    + apply (double_buffer_turn _ _ _ _ _ _ _ Hbody) in Et as (evs & Htr & R & _).
      by exists evs.
    + apply (double_buffer_turn _ _ _ _ _ _ _ Hbody) in Et as (evs & Htr & R & _).
      by exists evs.
Qed.

Lemma train_epoch_heeds_stops sched s r s' :
  train_epoch sched s = (r, s') →
  ∃ evs, trace s' = trace s ++ evs ∧ steps_respect_stops false evs = true.
Proof.
  rewrite train_epoch_split. intros E.
  assert (Hup : ∀ s0 r0 s0', epoch_updates sched s0 = (r0, s0') →
    ∃ evs, trace s0' = trace s0 ++ evs ∧ steps_respect_stops false evs = true).
  { intros s0 r0 s0'. unfold epoch_updates, bind at 1 2, get, modify. simpl.
    intros E0.
    apply bind_run in E0 as [([] & s1 & Ef & E0)|[(e & Ef & ->)|[Ef ->]]].
    - assert (∃ evs, trace s1 = trace s0 ++ evs ∧
                     steps_respect_stops false evs = true) as (evs & Htr & R).
      { destruct (double_buffering s0).
        - unfold run_network_double_buffer in Ef.
          destruct (training_data_getter (world s0)) as [|data rest].
          + injection Ef as <-. exists []. by rewrite app_nil_r.
          + apply bind_run in Ef as [([] & s2 & Ep & Ef)|[(e & Ep & _)|[Ep _]]];
              [|by apply provide_events in Ep as [? _]..].
            apply provide_events in Ep as [_ Htr1].
            apply (double_buffer_loop_heeds_stops _ _ _ _ _ _ _
                     stop_aware_update_step) in Ef as (evs & Htr & R).
            exists (EvProvide data :: evs).
            split; [by rewrite Htr, Htr1, <- app_assoc|]. done.
        - by apply (run_network_from_heeds_stops _ _ _ _ _ _
                      stop_aware_update_step) in Ef. }
      unfold bind at 1, get in E0.
      apply add_log_self_run in E0 as (Htr2 & _).
      exists evs. by rewrite Htr2.
    - assert (∃ evs, trace s0' = trace s0 ++ evs ∧
                     steps_respect_stops false evs = true) as (evs & Htr & R);
        [|by exists evs].
      destruct (double_buffering s0).
      + unfold run_network_double_buffer in Ef.
        destruct (training_data_getter (world s0)) as [|data rest]; [done|].
        apply bind_run in Ef as [([] & s2 & Ep & Ef)|[(e' & Ep & _)|[Ep _]]];
          [|by apply provide_events in Ep as [? _]..].
        apply provide_events in Ep as [_ Htr1].
        apply (double_buffer_loop_heeds_stops _ _ _ _ _ _ _
                 stop_aware_update_step) in Ef as (evs & Htr & R).
        exists (EvProvide data :: evs).
        split; [by rewrite Htr, Htr1, <- app_assoc|]. done.
      + by apply (run_network_from_heeds_stops _ _ _ _ _ _
                    stop_aware_update_step) in Ef.
    - assert (∃ evs, trace s0' = trace s0 ++ evs ∧
                     steps_respect_stops false evs = true) as (evs & Htr & R);
        [|by exists evs].
      destruct (double_buffering s0).
      + unfold run_network_double_buffer in Ef.
        destruct (training_data_getter (world s0)) as [|data rest]; [done|].
        apply bind_run in Ef as [([] & s2 & Ep & Ef)|[(e' & Ep & _)|[Ep _]]];
          [|by apply provide_events in Ep as [? _]..].
        apply provide_events in Ep as [_ Htr1].
        apply (double_buffer_loop_heeds_stops _ _ _ _ _ _ _
                 stop_aware_update_step) in Ef as (evs & Htr & R).
        exists (EvProvide data :: evs).
        split; [by rewrite Htr, Htr1, <- app_assoc|]. done.
      + by apply (run_network_from_heeds_stops _ _ _ _ _ _
                    stop_aware_update_step) in Ef. }
  apply bind_run in E as [([] & s1 & Eu & E)|[(e & Eu & ->)|[Eu ->]]].
  - apply Hup in Eu as (evs1 & Htr1 & R1).
    destruct (heeds_stops_emit_hooks "epoch" _ _ _ (stopped_after false evs1) E)
      as (evs2 & Htr2 & R2).
    exists (evs1 ++ evs2). split; [by rewrite Htr2, Htr1, app_assoc|].
    by rewrite steps_respect_stops_app, R1, R2.
  - by apply Hup in Eu.
  - by apply Hup in Eu.
Qed.

Lemma heeds_stops_train_epochs sched fuel : heeds_stops (train_epochs sched fuel).
Proof.
  induction fuel as [|fuel IH]; simpl.
  - intros s r s' b [= <- <-]. exists []. by rewrite app_nil_r.
  - intros s r s' b. unfold bind at 1 2 3, get, modify, tell. simpl. intros E.
    apply bind_run in E as [(stop & s1 & Ee & E)|[(e & Ee & ->)|[Ee ->]]].
    + apply train_epoch_heeds_stops in Ee as (evs1 & Htr1 & R1). simpl in Htr1.
      assert (∃ evs2, trace s' = trace s1 ++ evs2 ∧
                steps_respect_stops (stopped_after false evs1) evs2 = true)
        as (evs2 & Htr2 & R2).
      { destruct stop.
        - injection E as <- <-. exists []. by rewrite app_nil_r.
        - exact (IH _ _ _ (stopped_after false evs1) E). }
      exists (EvEpoch (current_epoch_nr s + 1) :: evs1 ++ evs2).
      split; [rewrite Htr2, Htr1; by rewrite <- !app_assoc|].
      simpl. by rewrite steps_respect_stops_app, R1, R2.
    + apply train_epoch_heeds_stops in Ee as (evs1 & Htr1 & R1). simpl in Htr1.
      exists (EvEpoch (current_epoch_nr s + 1) :: evs1).
      split; [by rewrite Htr1, <- app_assoc|]. done.
    + apply train_epoch_heeds_stops in Ee as (evs1 & Htr1 & R1). simpl in Htr1.
      exists (EvEpoch (current_epoch_nr s + 1) :: evs1).
      split; [by rewrite Htr1, <- app_assoc|]. done.
Qed.

Lemma heeds_stops_train sched fuel : heeds_stops (train sched fuel).
Proof.
  unfold train. apply heeds_stops_bind.
  { intros s r s' b E.
    apply train_start_run in E as (_ & _ & [[_ Htr]|(starts & Htr & Hst)]).
    - exists []. by rewrite app_nil_r.
    - exists (EvStepperStart :: starts). split; [done|]. simpl.
      apply plain_events. eapply Forall_impl; [done|]. by intros []. }
  intros _. apply heeds_stops_bind; [apply heeds_stops_emit_hooks|]. intros [|].
  { apply heeds_stops_ret. }
  apply heeds_stops_bind; [apply heeds_stops_emit_hooks|]. intros [|].
  { apply heeds_stops_ret. }
  apply heeds_stops_train_epochs.
Qed.

(** X12: after a hook has raised [StopIteration], no optimisation step
    is run before the next epoch has begun: a [StopIteration] of an
    ['update'] hook ends the epoch it is raised in.  It does not end the
    training: [train] returns only after a hook has raised
    [StopIteration] in one of two ways, in the baseline dispatches,
    before the first epoch, at the counters [train] was entered with,
    or, once the loop is entered, through a hook of timescale
    ['epoch']. *)
Theorem train_returns_after_stop sched fuel s r s' :
  train sched fuel s = (r, s') →
  let new := drop (length (trace s)) (trace s') in
  steps_respect_stops false new = true ∧
  (r = Done tt →
   ∃ name hook e u,
     (name, hook) ∈ hooks s ∧
     EvHookCall name e u true ∈ new ∧
     ((e = current_epoch_nr s ∧ u = current_update_nr s) ∨
      (timescale hook = "epoch" ∧ current_epoch_nr s < e))).
Proof.
  intros E new. split.
  - destruct (heeds_stops_train sched fuel _ _ _ false E) as (evs & Htr & R).
    subst new. by rewrite Htr, drop_app_length.
  - intros ->. by apply (train_returns_through_stop sched fuel).
Qed.

(** *** Leaving the feeders early *)

Lemma consume_until_run k i s :
  ∃ s', consume_until k i s = (Done (bool_decide (i = k)), s') ∧
        provided (trace s') = provided (trace s) ∧
        yielded (trace s') = yielded (trace s) ++ [i] ∧
        world s' = world s.
Proof.
  eexists. split; [reflexivity|]. simpl.
  unfold provided, yielded. rewrite !omap_app. simpl.
  by rewrite app_nil_r.
Qed.

Lemma run_network_from_consume_until k i iterator s :
  (i ≤ k)%nat → (k - i < length iterator)%nat →
  ∃ s', run_network_from (consume_until k) i iterator s = (Done tt, s') ∧
        provided (trace s') = provided (trace s) ++ take (S (k - i)) iterator ∧
        yielded (trace s') = yielded (trace s) ++ seq i (S (k - i)) ∧
        world s' = feed (world s) (take (S (k - i)) iterator).
Proof.
  revert i s. induction iterator as [|data rest IH]; intros i s Hi Hlen.
  { simpl in Hlen. lia. }
  simpl run_network_from.
  destruct (provide_run data s) as (s1 & E1 & P1 & Y1 & W1).
  destruct (consume_until_run k i s1) as (s2 & E2 & P2 & Y2 & W2).
  unfold bind at 1. rewrite E1. unfold bind at 1. rewrite E2.
  case_bool_decide as Hk.
  - subst k. replace (i - i)%nat with 0%nat by lia. exists s2. simpl.
    rewrite P2, Y2, W2, P1, Y1, W1. done.
  - destruct (IH (S i) s2) as (s' & E' & P' & Y' & W'); [lia|simpl in Hlen; lia|].
    exists s'. split; [done|].
    replace (k - i)%nat with (S (k - S i)) by lia.
    rewrite P', Y', W', P2, Y2, W2, P1, Y1, W1.
    cbn [take seq feed foldl]. by rewrite <- !app_assoc.
Qed.

Lemma double_buffer_loop_consume_until sched k i iterator s :
  (i ≤ k)%nat → (k - i ≤ length iterator)%nat →
  ∃ s', double_buffer_loop sched (consume_until k) i iterator s = (Done tt, s') ∧
        provided (trace s') = provided (trace s) ++ take (S (k - i)) iterator ∧
        yielded (trace s') = yielded (trace s) ++ seq i (S (k - i)) ∧
        world s' = feed (world s) (take (S (k - i)) iterator).
Proof.
  revert i s. induction iterator as [|data rest IH]; intros i s Hi Hlen.
  - simpl in Hlen. assert (i = k) as -> by lia.
    replace (k - k)%nat with 0%nat by lia.
    destruct (consume_until_run k k s) as (s1 & E1 & P1 & Y1 & W1).
    rewrite bool_decide_eq_true_2 in E1 by done.
    exists s1. simpl take. rewrite app_nil_r. split; [|done].
    cbn [double_buffer_loop run_it]. unfold bind at 1.
    destruct (sched k).
    + change ((ret tt ;;; consume_until k k) s) with (consume_until k k s).
      by rewrite E1.
    + unfold bind at 1. by rewrite E1.
  - cbn [double_buffer_loop run_it].
    assert (Hstep : ∃ s2,
      (if sched i then provide data ;;; consume_until k i
       else let* brk := consume_until k i in provide data ;;; ret brk) s
      = (Done (bool_decide (i = k)), s2) ∧
      provided (trace s2) = provided (trace s) ++ [data] ∧
      yielded (trace s2) = yielded (trace s) ++ [i] ∧
      world s2 = provide_external_data data (world s)).
    { destruct (sched i).
      - destruct (provide_run data s) as (s1 & E1 & P1 & Y1 & W1).
        destruct (consume_until_run k i s1) as (s2 & E2 & P2 & Y2 & W2).
        exists s2. unfold bind at 1. rewrite E1.
        split; [done|]. by rewrite P2, Y2, W2, P1, Y1, W1.
      - destruct (consume_until_run k i s) as (s1 & E1 & P1 & Y1 & W1).
        destruct (provide_run data s1) as (s2 & E2 & P2 & Y2 & W2).
        exists s2. unfold bind at 1. rewrite E1. unfold bind at 1. rewrite E2.
        split; [done|]. by rewrite P2, Y2, W2, P1, Y1, W1. }
    destruct Hstep as (s2 & E2 & P2 & Y2 & W2).
    unfold bind at 1. rewrite E2.
    case_bool_decide as Hk.
    + subst k. replace (i - i)%nat with 0%nat by lia. exists s2. simpl.
      by rewrite P2, Y2, W2.
    + destruct (IH (S i) s2) as (s' & E' & P' & Y' & W');
        [lia|simpl in Hlen; lia|].
      exists s'. split; [done|].
      replace (k - i)%nat with (S (k - S i)) by lia.
      rewrite P', Y', W', P2, Y2, W2.
      cbn [take seq feed foldl]. by rewrite <- !app_assoc.
Qed.

(** X13: when the consumer leaves the loop at item [k], both feeders
    have yielded the indices [0] to [k]; the plain feeder has taken the
    [k+1] batches up to the one of item [k] from the iterator and the
    network holds that batch, whereas the double-buffered feeder has
    already taken and provided the batch after it, if there is one, on
    whichever side of the consumer's work the fetching thread ran. *)
Theorem feeders_on_break sched k iterator s :
  (k < length iterator)%nat →
  ∃ s_db s_st,
    run_network_double_buffer sched (consume_until k) iterator s = (Done tt, s_db) ∧
    run_network (consume_until k) iterator s = (Done tt, s_st) ∧
    yielded (trace s_db) = yielded (trace s) ++ seq 0 (S k) ∧
    yielded (trace s_st) = yielded (trace s) ++ seq 0 (S k) ∧
    provided (trace s_st) = provided (trace s) ++ take (S k) iterator ∧
    provided (trace s_db) = provided (trace s) ++ take (S (S k)) iterator ∧
    world s_st = feed (world s) (take (S k) iterator) ∧
    world s_db = feed (world s) (take (S (S k)) iterator).
Proof.
  intros Hk.
  destruct (run_network_from_consume_until k 0 iterator s)
    as (s_st & Est & Pst & Yst & Wst); [lia|lia|].
  rewrite Nat.sub_0_r in *.
  destruct iterator as [|data rest]; [simpl in Hk; lia|].
  destruct (provide_run data s) as (s1 & E1 & P1 & Y1 & W1).
  destruct (double_buffer_loop_consume_until sched k 0 rest s1)
    as (s_db & Edb & Pdb & Ydb & Wdb); [lia|simpl in Hk; lia|].
  rewrite Nat.sub_0_r in *.
  exists s_db, s_st. unfold run_network, run_network_double_buffer.
  unfold bind at 1. rewrite E1.
  split; [done|]. split; [done|].
  rewrite Pdb, Ydb, Wdb, P1, Y1, W1.
  cbn [take feed foldl]. by rewrite <- !app_assoc.
Qed.

End TrainingExtras.

(** *** The scripted run, again *)

(** A hook that raises [StopIteration] at every third update. *)
Definition stop_every_third_update : Hook (list nat) Z :=
  mkHook "update" 3 false None (λ _ _ _ w, (StopIteration HNone, w)).

(** A hook with a [start] callback that raises. *)
Definition failing_start : Hook (list nat) Z :=
  mkHook "epoch" 1 false (Some (λ _, None)) (λ _ _ _ w, (Returned HNone, w)).
Definition with_start : Hook (list nat) Z :=
  mkHook "epoch" 1 false (Some (λ w, Some w)) (λ _ _ _ w, (Returned HNone, w)).
Definition zero_interval : Hook (list nat) Z :=
  mkHook "update" 0 false None (λ _ _ _ w, (Returned HNone, w)).

Lemma start_hooks_resets_logs_witness :
  let s := set_logs {["old" := LList [1]]}
             (script_trainer false
                [("a", with_start); ("b", every_second_update);
                 ("c", failing_start); ("d", with_start)]) in
  logs (start_hooks s).2 = {["training_loss" := LList [-1]]} ∧
  last (starts_of (drop (length (trace s)) (trace (start_hooks s).2))) = Some "c".
Proof.
  intros s.
  destruct (start_hooks_resets_logs s (start_hooks s).1 (start_hooks s).2)
    as (Hl & _ & _ & Hr).
  - by destruct (start_hooks s).
  - split; [exact Hl|].
    destruct (Hr (HookError "c")) as (n & Hn & Hlast); [vm_compute; reflexivity|].
    injection Hn as <-. exact Hlast.
Defined.

Lemma emit_hooks_stop_signal_witness :
  let s := set_update_nr 3 (script_trainer false
             [("every3", stop_every_third_update); ("every2", every_second_update)]) in
  ∃ name e u,
    EvHookCall name e u true
      ∈ drop (length (trace s)) (trace (emit_hooks "update" s).2).
Proof.
  intros s.
  destruct (emit_hooks_stop_signal "update" s true (emit_hooks "update" s).2)
    as ([Hstop _] & _).
  - vm_compute. reflexivity.
  - by apply Hstop.
Defined.

Lemma emit_hooks_zero_interval_witness :
  let s := script_trainer false
             [("stop", stop_after_first_epoch); ("zero", zero_interval);
              ("every2", every_second_update)] in
  (emit_hooks "update" s).1 = Raised ZeroDivisionError.
Proof.
  intros s.
  destruct (emit_hooks_zero_interval "update" s (emit_hooks "update" s).1
              (emit_hooks "update" s).2 "zero" zero_interval) as [_ Hz].
  - apply list_elem_of_further, list_elem_of_here.
  - reflexivity.
  - reflexivity.
  - by destruct (emit_hooks "update" s).
  - destruct (Hz [("stop", stop_after_first_epoch)] [("every2", every_second_update)])
      as [Hr _]; [reflexivity|by repeat constructor|exact Hr].
Defined.

Lemma train_counts_updates_and_epochs_witness :
  let s := script_trainer true
             [("every3", stop_every_third_update); ("stop", stop_after_first_epoch)] in
  let s' := (train (λ _, false) 5 s).2 in
  let new := drop (length (trace s)) (trace s') in
  steps_of new = numbered 0 (length (steps_of new)) ∧
  current_update_nr s' = 0 + Z.of_nat (length (steps_of new)).
Proof.
  intros s s' new.
  destruct (train_counts_updates_and_epochs (λ _, false) 5 s
              (train (λ _, false) 5 s).1 s') as (Hs & Hu & _).
  - by destruct (train _ _ _).
  - by split.
Defined.

(** An ['update'] hook that raises [StopIteration] at every third
    update, and no ['epoch'] hook that does.  Entered at update count 0,
    [train] ends in the baseline dispatch.  Entered at update count 1,
    every epoch is cut short at the next multiple of three, and the
    training goes on until the model's bound on the number of epochs is
    used up. *)
Example update_stop_in_the_baseline :
  let s := script_trainer false [("every3", stop_every_third_update)] in
  let '(r, s') := train (λ _, false) 3 s in
  r = Done tt ∧ epochs_of (trace s') = [] ∧ steps_of (trace s') = [].
Proof. vm_compute. repeat split; reflexivity. Qed.

Example update_stop_ends_the_epoch_only :
  let s := set_update_nr 1 (script_trainer false [("every3", stop_every_third_update)]) in
  let '(r, s') := train (λ _, false) 3 s in
  r = OutOfFuel ∧ epochs_of (trace s') = [1; 2; 3] ∧
  steps_of (trace s') = [2; 3; 4; 5; 6; 7; 8; 9].
Proof. vm_compute. repeat split; reflexivity. Qed.

Lemma train_returns_after_stop_witness :
  let s := set_update_nr 1 (script_trainer true
             [("every3", stop_every_third_update); ("stop", stop_after_first_epoch)]) in
  let s' := (train (λ _, true) 3 s).2 in
  let new := drop (length (trace s)) (trace s') in
  steps_respect_stops false new = true ∧
  ∃ name hook e u,
    (name, hook) ∈ hooks s ∧ EvHookCall name e u true ∈ new.
Proof.
  intros s s' new.
  assert (E : train (λ _, true) 3 s = (Done tt, s')) by (vm_compute; reflexivity).
  clearbody s'.
  destruct (train_returns_after_stop (λ _, true) 3 s (Done tt) s' E) as [R Hstop].
  split; [exact R|].
  destruct (Hstop eq_refl) as (n & h & e & u & Hin & Hev & _).
  exists n, h, e, u. split; [exact Hin|exact Hev].
Defined.

(** Ten batches are there, and the epoch ends after the second one:
    the hook at every third update raises [StopIteration] at update
    count 3. *)
Example update_stop_cuts_the_epoch :
  let s := set_update_nr 1 (script_trainer true
             [("every3", stop_every_third_update); ("stop", stop_after_first_epoch)]) in
  steps_of (trace (train (λ _, true) 3 s).2) = [2; 3].
Proof. vm_compute. reflexivity. Qed.

Lemma feeders_on_break_witness :
  let s := script_trainer true [] in
  ∃ s_db s_st,
    run_network_double_buffer (λ i, Nat.even i) (consume_until 1)
      [7; 8; 9; 10]%nat s = (Done tt, s_db) ∧
    run_network (consume_until 1) [7; 8; 9; 10]%nat s = (Done tt, s_st) ∧
    provided (trace s_st) = [7; 8]%nat ∧
    provided (trace s_db) = [7; 8; 9]%nat.
Proof.
  intros s.
  destruct (feeders_on_break (λ i, Nat.even i) 1 [7; 8; 9; 10]%nat s)
    as (s_db & s_st & Edb & Est & _ & _ & Pst & Pdb & _); [simpl; lia|].
  exists s_db, s_st. by repeat split.
Defined.

(** ** [_add_log]: histories and entries of the other kind *)

Section AddLogExtras.
Context {V : Type}.
Implicit Types (val : hookval V) (logs d : gmap string (log V)).
Implicit Types (items : list (string * hookval V)) (o : option (log V)).

Lemma add_scalars_from name (vs : list V) logs (l : list V) :
  default (LList []) (logs !! name) = LList l →
  ∃ logs',
    foldl (λ acc v, acc ≫= add_log name (HScalar v)) (Some logs) vs = Some logs' ∧
    default (LList []) (logs' !! name) = LList (l ++ vs) ∧
    (∀ k, k ≠ name → logs' !! k = logs !! k).
Proof.
  revert logs l. induction vs as [|v vs IH]; intros logs l Hl.
  - exists logs. by rewrite app_nil_r.
  - cbn [foldl mbind option_bind].
    rewrite (add_log_scalar name v logs l Hl).
    destruct (IH (<[name := LList (l ++ [v])]> logs) (l ++ [v]))
      as (logs' & E & Hl' & Hfr).
    { by rewrite lookup_insert_eq. }
    exists logs'. split; [done|]. split.
    + by rewrite Hl', <- app_assoc.
    + intros k Hk. by rewrite Hfr, lookup_insert_ne.
Qed.

(** X14: scalars logged under one name, one call of [_add_log] after
    the other, are kept in the order of the calls, after what the list
    under that name held; the calls never fail when the entry is a list
    or absent, and no other entry changes. *)
Theorem add_log_keeps_history name (vs : list V) logs :
  (∀ d, logs !! name ≠ Some (LDict d)) →
  ∃ logs',
    add_scalars name vs logs = Some logs' ∧
    list_of (logs' !! name) = list_of (logs !! name) ++ vs ∧
    (vs ≠ [] → logs' !! name = Some (LList (list_of (logs !! name) ++ vs))) ∧
    (∀ k, k ≠ name → logs' !! k = logs !! k).
Proof.
  intros Hd.
  assert (Hl : default (LList []) (logs !! name) = LList (list_of (logs !! name))).
  { destruct (logs !! name) as [[l|d]|] eqn:E; [done| |done]. by destruct (Hd d). }
  destruct (add_scalars_from name vs logs _ Hl) as (logs' & E & Hl' & Hfr).
  exists logs'. split; [done|].
  split; [|split; [|done]].
  - destruct (logs' !! name) as [[l|d]|]; simpl in *; try done.
    + by injection Hl' as ->.
    + injection Hl' as Hl'. done.
  - intros Hne. destruct vs as [|v vs]; [done|].
    revert E. cbn [foldl mbind option_bind].
    rewrite (add_log_scalar name v logs _ Hl). intros E.
    destruct (add_scalars_from name vs (<[name := LList (list_of (logs !! name) ++ [v])]> logs)
                (list_of (logs !! name) ++ [v])) as (logs2 & E2 & Hl2 & _).
    { by rewrite lookup_insert_eq. }
    rewrite E in E2. injection E2 as <-.
    destruct (logs' !! name) as [[l|d]|] eqn:El; simpl in Hl2.
    + injection Hl2 as ->. by rewrite <- app_assoc.
    + done.
    + injection Hl2 as Hl2. symmetry in Hl2.
      apply app_eq_nil in Hl2 as [Hl2 _]. by apply app_eq_nil in Hl2 as [_ ?].
Qed.

(** X15: an entry of the other kind.  A scalar for a name that holds a
    mapping always fails (a [dict] has no [append]).  A mapping for a
    name that holds a list fails as soon as one of its values is not
    [None]; a mapping without such a value, the empty one among them,
    passes and leaves the logs as they are. *)
Theorem add_log_other_kind name logs :
  (∀ v d, logs !! name = Some (LDict d) →
     add_log name (HScalar v) logs = None) ∧
  (∀ items l, logs !! name = Some (LList l) →
     (Forall (λ kv, kv.2 = HNone) items →
        add_log name (HDict items) logs = Some logs) ∧
     (Exists (λ kv, kv.2 ≠ HNone) items →
        add_log name (HDict items) logs = None)).
Proof.
  split.
  - intros v d E. simpl. by rewrite E.
  - intros items l E. simpl. rewrite E. simpl.
    match goal with
    | |- (_ → match ?each items (LList l) with _ => _ end = _) ∧ _ =>
        assert (Hall : ∀ its, Forall (λ kv, kv.2 = HNone) its →
                  each its (LList l) = Some (LList l));
        [|assert (Hex : ∀ its, Exists (λ kv, kv.2 ≠ HNone) its →
                    each its (LList l) = None)]
    end.
    + induction 1 as [|[k v] rest Hv _ IH]; [done|].
      simpl in Hv. subst v. exact IH.
    + induction 1 as [[k v] rest Hv|[k v] rest _ IH].
      * simpl in Hv. by destruct v.
      * destruct v; [exact IH|done..].
    + split.
      * intros Hf. rewrite (Hall items Hf). f_equal. by apply insert_id.
      * intros He. by rewrite (Hex items He).
Qed.

End AddLogExtras.

Lemma add_log_keeps_history_witness :
  ∃ logs',
    add_scalars "loss" [4; 5; 6] ({["loss" := LList [3]]} : gmap string (log Z))
      = Some logs' ∧
    list_of (logs' !! "loss") = [3; 4; 5; 6].
Proof.
  destruct (add_log_keeps_history "loss" [4; 5; 6]
              ({["loss" := LList [3]]} : gmap string (log Z)))
    as (logs' & E & Hl & _).
  - intros d. vm_compute. discriminate.
  - exists logs'. split; [done|]. rewrite Hl. vm_compute. reflexivity.
Defined.

Lemma add_log_other_kind_witness :
  add_log "loss" (HDict [("a", HNone); ("b", HNone)])
    ({["loss" := LList [3]]} : gmap string (log Z))
  = Some {["loss" := LList [3]]} ∧
  add_log "loss" (HDict [("a", HNone); ("b", HScalar 1)])
    ({["loss" := LList [3]]} : gmap string (log Z))
  = None.
Proof.
  destruct (proj2 (add_log_other_kind "loss"
              ({["loss" := LList [3]]} : gmap string (log Z)))
              [("a", HNone); ("b", HNone)] [3]) as [Hok _].
  { vm_compute. reflexivity. }
  destruct (proj2 (add_log_other_kind "loss"
              ({["loss" := LList [3]]} : gmap string (log Z)))
              [("a", HNone); ("b", HScalar 1)] [3]) as [_ Hfail].
  { vm_compute. reflexivity. }
  split.
  - apply Hok. by repeat constructor.
  - apply Hfail. apply Exists_cons_tl, Exists_cons_hd. done.
Defined.

(** ** The trainer: what a dispatch logs, and the baseline of [train] *)

Section Baseline.
Context {World V Batch : Type} `{Collaborators World V Batch}.

Abbreviation M := (@M World V Batch).
Abbreviation Trainer := (Trainer World V Batch).
Abbreviation event := (event Batch).
Notation "'let*' x ':=' m 'in' k" := (bind m (λ x, k))
  (at level 10, x name, m at level 200, k at level 200).
Notation "m ';;;' k" := (bind m (λ _, k))
  (at level 100, right associativity).

Implicit Types (s : Trainer) (hs : list (string * Hook World V)).

(** *** Every value a hook hands back is logged *)

Lemma emit_loop_dispatched ts count hs acc s stop s' :
  emit_loop ts count hs acc s = (Done stop, s') →
  dispatched (current_epoch_nr s) (current_update_nr s)
    (filter (λ nh, is_due ts count nh.2) hs)
    (logs s) (world s) (logs s') (world s').
Proof.
  revert acc s. induction hs as [|[name hook] rest IH]; intros acc s; simpl.
  { intros [= <- <-]. constructor. }
  destruct (String.eqb (timescale hook) ts) eqn:Ets; simpl.
  2:{ rewrite filter_cons, decide_False
        by (unfold is_due; simpl; rewrite Ets; simpl; tauto).
      apply IH. }
  destruct (Z.eqb (interval hook) 0) eqn:Ei; simpl; [done|].
  destruct (Z.eqb (count `mod` interval hook) 0) eqn:Em; simpl.
  2:{ rewrite filter_cons, decide_False
        by (unfold is_due; simpl; rewrite Ets, Em; simpl; tauto).
      apply IH. }
  rewrite filter_cons, decide_True
    by (unfold is_due; simpl; rewrite Ets, Em; simpl; tauto).
  intros E.
  apply bind_run in E as [([val st] & s1 & Ec & E)|[(e & _ & [=])|[_ [=]]]].
  apply bind_run in E as [([] & s2 & El & E)|[(e & _ & [=])|[_ [=]]]].
  simpl in El, E.
  assert (Hcall : ∃ r w1,
    hook_call hook (current_epoch_nr s) (current_update_nr s) (logs s) (world s)
      = (r, w1) ∧ hook_value r = Some (val, st) ∧
    logs s1 = logs s ∧ world s1 = w1 ∧
    current_epoch_nr s1 = current_epoch_nr s ∧
    current_update_nr s1 = current_update_nr s).
  { revert Ec. unfold call_hook, bind, get, tell, modify, ret, raise. simpl.
    destruct (hook_call _ _ _ _ _) as [[v|v|] w1]; simpl; intros [= <- <- <-];
      eexists _, _; repeat split; done. }
  destruct Hcall as (r & w1 & Hr & Hv & Hl1 & Hw1 & He1 & Hu1).
  assert (Hlog : ∃ l1, add_log name val (logs s1) = Some l1 ∧
    logs s2 = l1 ∧ world s2 = world s1 ∧
    current_epoch_nr s2 = current_epoch_nr s1 ∧
    current_update_nr s2 = current_update_nr s1).
  { revert El. unfold add_log_self, bind, get, modify, raise. simpl.
    destruct (add_log name val (logs s1)) as [l1|]; intros [= <-].
    by exists l1. }
  destruct Hlog as (l1 & Hadd & Hl2 & Hw2 & He2 & Hu2).
  apply IH in E. rewrite Hl2, Hw2, Hw1, He2, Hu2, He1, Hu1 in E.
  rewrite Hl1 in Hadd.
  eapply dispatched_cons; [exact Hr|exact Hv|exact Hadd| | |exact E].
  - intros Hfit. destruct (add_log_merged val name (logs s) Hfit) as (l & El' & Hm).
    rewrite Hadd in El'. by injection El' as <-.
  - by apply (add_log_frame _ _ _ _ Hadd).
Qed.

(** C8: in every dispatch that returns, each hook that is due is handed
    the logs as they stand, and the value it returns (or the value of
    the [StopIteration] it raises) is logged under the hook's name
    before the next hook is called: when the value fits what the log
    holds under that name, it is merged there by the rule (a scalar is
    appended to the list under the name, which starts empty when the
    name is new; a mapping is merged key by key, by the same rule, into
    the mapping under the name; [None] changes nothing), and no entry
    under another name changes. *)
Theorem add_log_merge_rule ts s stop s' :
  emit_hooks ts s = (Done stop, s') →
  dispatched (current_epoch_nr s) (current_update_nr s)
    (filter (λ nh, is_due ts (counter ts s) nh.2) (hooks s))
    (logs s) (world s) (logs s') (world s').
Proof.
  unfold emit_hooks, bind at 1 2, get, tell, modify. simpl. intros E.
  apply emit_loop_dispatched in E. exact E.
Qed.

(** *** The baseline of [train] *)

Lemma train_start_cases s r s' :
  train_start s = (r, s') →
  (data_names_match (world s) = false ∧ r = Raised AssertionError ∧ s' = s) ∨
  (data_names_match (world s) = true ∧ same_counters s s' ∧
   ∃ starts, trace s' = trace s ++ EvStepperStart :: starts ∧
             Forall (λ e, is_start_event e = true) starts ∧
             (r = Done tt ∨ ∃ name, r = Raised (HookError name))).
Proof.
  unfold train_start, bind at 1, get.
  destruct (data_names_match (world s)); simpl.
  2:{ intros [= <- <-]. by left. }
  unfold start_hooks, bind at 1 2 3 4, get, tell, modify. simpl.
  intros E. right. split; [done|].
  pose proof E as E'.
  apply start_loop_run in E as (Hc & Hf & starts & Htr & Hst).
  apply start_loop_starts in E' as (_ & evs' & _ & _ & _ & Hraise).
  split; [done|]. exists starts. simpl in Htr.
  split; [by rewrite Htr, <- app_assoc|]. split; [done|].
  revert Hf Hraise. destruct r as [[]|e|]; intros Hf Hraise; [by left| |done].
  right. destruct (Hraise e eq_refl) as (n & Hn & _). exists n. by rewrite Hn.
Qed.

Lemma emit_hooks_dispatch ts s0 s1 r s2 :
  same_counters s0 s1 → emit_hooks ts s1 = (r, s2) →
  same_counters s0 s2 ∧
  ∃ calls,
    trace s2 = trace s1 ++ EvEmit ts (counter ts s0) :: calls ∧
    Forall (λ e, is_call_event e = true) calls ∧
    calls_of calls `prefix_of` due_names ts s0 ∧
    ((∃ e, r = Raised e) ∨
     ∃ stop, r = Done stop ∧ calls_of calls = due_names ts s0 ∧
             stop = signals_stop calls).
Proof.
  intros Hc0 E.
  apply emit_hooks_run in E as (Hc & Hf & evs & called & Htr & Hcalls & Hpre & Hdone).
  assert (Hcnt : counter ts s1 = counter ts s0).
  { destruct Hc0 as (He & Hu & _). unfold counter. by rewrite He, Hu. }
  assert (Hh : hooks s1 = hooks s0) by apply Hc0.
  split; [by eapply same_counters_trans|].
  exists evs. rewrite <- Hcnt. split; [done|].
  split; [by eapply calls_to_call_events|].
  rewrite (calls_to_calls_of _ _ _ Hcalls).
  unfold due_names. rewrite <- Hh, <- Hcnt.
  split.
  { destruct Hpre as [k ->]. rewrite fmap_app. by eexists. }
  destruct r as [stop|e|]; [|left; by eexists|done].
  right. exists stop. destruct (Hdone stop eq_refl) as [-> ->]. done.
Qed.

(** C7: in every call of [train] the check of the data names comes
    first; when it fails, [AssertionError] is raised and nothing has
    been done.  Otherwise the stepper is started and the [start]
    callbacks are called; unless one of them raises, the ['epoch'] hooks
    that are due at the epoch count [train] was entered with are then
    dispatched.  If this dispatch raises, or one of its hooks signals a
    stop, nothing follows: the ['update'] hooks are not dispatched, and
    on a stop [train] returns with both counters as they were.
    Otherwise the ['update'] hooks that are due at the update count
    [train] was entered with are dispatched; if this dispatch raises or
    one of its hooks signals a stop, nothing follows, and on a stop
    [train] returns with both counters as they were.  Only when both
    dispatches have returned without a stop does the training begin,
    with the increment of the epoch counter: no provision of data, no
    optimisation step and no counter increment comes before. *)
Theorem train_baseline_first sched fuel s r s' :
  train sched fuel s = (r, s') →
  (data_names_match (world s) = false ∧ r = Raised AssertionError ∧
   trace s' = trace s) ∨
  (data_names_match (world s) = true ∧
   ∃ starts after_start,
     trace s' = trace s ++ EvStepperStart :: starts ++ after_start ∧
     Forall (λ e, is_start_event e = true) starts ∧
     ((∃ name, r = Raised (HookError name) ∧ after_start = []) ∨
      ∃ calls_e after_e,
        after_start = EvEmit "epoch" (current_epoch_nr s) :: calls_e ++ after_e ∧
        Forall (λ e, is_call_event e = true) calls_e ∧
        calls_of calls_e `prefix_of` due_names "epoch" s ∧
        ((∃ e, r = Raised e ∧ after_e = []) ∨
         (calls_of calls_e = due_names "epoch" s ∧
          signals_stop calls_e = true ∧ after_e = [] ∧ r = Done tt ∧
          current_epoch_nr s' = current_epoch_nr s ∧
          current_update_nr s' = current_update_nr s) ∨
         (calls_of calls_e = due_names "epoch" s ∧
          signals_stop calls_e = false ∧
          ∃ calls_u after_u,
            after_e = EvEmit "update" (current_update_nr s) :: calls_u ++ after_u ∧
            Forall (λ e, is_call_event e = true) calls_u ∧
            calls_of calls_u `prefix_of` due_names "update" s ∧
            ((∃ e, r = Raised e ∧ after_u = []) ∨
             (calls_of calls_u = due_names "update" s ∧
              signals_stop calls_u = true ∧ after_u = [] ∧ r = Done tt ∧
              current_epoch_nr s' = current_epoch_nr s ∧
              current_update_nr s' = current_update_nr s) ∨
             (calls_of calls_u = due_names "update" s ∧
              signals_stop calls_u = false ∧
              ((r = OutOfFuel ∧ after_u = []) ∨
               ∃ rest, after_u = EvEpoch (current_epoch_nr s + 1) :: rest))))))).
Proof.
  unfold train. intros E.
  apply bind_run in E as [([] & s1 & Es & E)|[(e & Es & ->)|[Es _]]].
  3:{ by apply train_start_run in Es as (_ & ? & _). }
  2:{ apply train_start_cases in Es as [(Hm & [= ->] & ->)|(Hm & _ & starts & Htr & Hst & Hr)].
      - by left.
      - right. split; [done|]. exists starts, [].
        rewrite app_nil_r. split; [done|]. split; [done|]. left.
        destruct Hr as [[=]|[n [= ->]]]. by exists n. }
  apply train_start_cases in Es as [(_ & [=] & _)|(Hm & Hc1 & starts & Htr1 & Hst & _)].
  right. split; [done|].
  apply bind_run in E as [(stop_e & s2 & Ee & E)|[(e & Ee & ->)|[Ee _]]].
  3:{ by apply emit_hooks_run in Ee as (_ & ? & _). }
  2:{ apply (emit_hooks_dispatch _ s) in Ee
        as (Hc2 & calls_e & Htr2 & Hce & Hpe & _); [|done].
      exists starts, (EvEmit "epoch" (current_epoch_nr s) :: calls_e).
      split; [by rewrite Htr2, Htr1, <- app_assoc|]. split; [done|]. right.
      exists calls_e, []. rewrite app_nil_r. split; [done|].
      split; [done|]. split; [done|]. left. by exists e. }
  apply (emit_hooks_dispatch _ s) in Ee
    as (Hc2 & calls_e & Htr2 & Hce & Hpe & [[e [=]]|(st & [= <-] & Hde & Hse)]);
    [|done].
  change (counter "epoch" s) with (current_epoch_nr s) in Htr2.
  destruct stop_e.
  { injection E as <- <-.
    exists starts, (EvEmit "epoch" (current_epoch_nr s) :: calls_e).
    split; [by rewrite Htr2, Htr1, <- app_assoc|]. split; [done|]. right.
    exists calls_e, []. rewrite app_nil_r. split; [done|].
    split; [done|]. split; [done|]. right. left.
    destruct Hc2 as (He & Hu & _). done. }
  apply bind_run in E as [(stop_u & s3 & Eu & E)|[(e & Eu & ->)|[Eu _]]].
  3:{ by apply emit_hooks_run in Eu as (_ & ? & _). }
  2:{ apply (emit_hooks_dispatch _ s) in Eu
        as (Hc3 & calls_u & Htr3 & Hcu & Hpu & _); [|done].
      change (counter "update" s) with (current_update_nr s) in Htr3.
      exists starts, (EvEmit "epoch" (current_epoch_nr s) :: calls_e ++
                      EvEmit "update" (current_update_nr s) :: calls_u).
      split; [rewrite Htr3, Htr2, Htr1, <- !app_assoc; done|].
      split; [done|]. right.
      exists calls_e, (EvEmit "update" (current_update_nr s) :: calls_u).
      split; [done|]. split; [done|]. split; [done|]. right. right.
      split; [done|]. split; [done|].
      exists calls_u, []. rewrite app_nil_r. split; [done|].
      split; [done|]. split; [done|]. left. by exists e. }
  apply (emit_hooks_dispatch _ s) in Eu
    as (Hc3 & calls_u & Htr3 & Hcu & Hpu & [[e [=]]|(st & [= <-] & Hdu & Hsu)]);
    [|done].
  change (counter "update" s) with (current_update_nr s) in Htr3.
  destruct stop_u.
  { injection E as <- <-.
    exists starts, (EvEmit "epoch" (current_epoch_nr s) :: calls_e ++
                    EvEmit "update" (current_update_nr s) :: calls_u).
    split; [rewrite Htr3, Htr2, Htr1, <- !app_assoc; done|].
    split; [done|]. right.
    exists calls_e, (EvEmit "update" (current_update_nr s) :: calls_u).
    split; [done|]. split; [done|]. split; [done|]. right. right.
    split; [done|]. split; [done|].
    exists calls_u, []. rewrite app_nil_r. split; [done|].
    split; [done|]. split; [done|]. right. left.
    destruct Hc3 as (He & Hu & _). done. }
  assert (He3 : current_epoch_nr s3 = current_epoch_nr s) by apply Hc3.
  apply train_epochs_head in E as [[-> ->]|[rest Htr4]].
  - exists starts, (EvEmit "epoch" (current_epoch_nr s) :: calls_e ++
                    EvEmit "update" (current_update_nr s) :: calls_u).
    split; [rewrite Htr3, Htr2, Htr1, <- !app_assoc; done|].
    split; [done|]. right.
    exists calls_e, (EvEmit "update" (current_update_nr s) :: calls_u).
    split; [done|]. split; [done|]. split; [done|]. right. right.
    split; [done|]. split; [done|].
    exists calls_u, []. rewrite app_nil_r. split; [done|].
    split; [done|]. split; [done|]. right. right.
    split; [done|]. split; [done|]. by left.
  - rewrite He3 in Htr4.
    exists starts, (EvEmit "epoch" (current_epoch_nr s) :: calls_e ++
                    EvEmit "update" (current_update_nr s) :: calls_u ++
                    EvEpoch (current_epoch_nr s + 1) :: rest).
    split.
    { rewrite Htr4, Htr3, Htr2, Htr1.
      repeat (rewrite <- app_assoc; simpl). done. }
    split; [done|]. right.
    exists calls_e, (EvEmit "update" (current_update_nr s) :: calls_u ++
                     EvEpoch (current_epoch_nr s + 1) :: rest).
    split; [done|]. split; [done|]. split; [done|]. right. right.
    split; [done|]. split; [done|].
    exists calls_u, (EvEpoch (current_epoch_nr s + 1) :: rest).
    split; [done|]. split; [done|]. split; [done|]. right. right.
    split; [done|]. split; [done|]. right. by exists rest.
Qed.

End Baseline.

(** A hook of the ['epoch'] timescale that signals a stop in the
    baseline: the ['update'] hooks are never dispatched, so that not
    every call of [train] has both dispatches. *)
Lemma train_without_update_dispatch :
  ¬ ∀ (sched : nat → bool) (fuel : nat) (s : Trainer (list nat) Z nat) r s',
      train sched fuel s = (r, s') →
      ∃ count, EvEmit "update" count ∈ trace s'.
Proof.
  intros Hall.
  destruct (Hall (λ _, true) 3%nat
              (script_trainer true
                 [("every2", every_second_update); ("stop", stop_at_once)])
              _ _ eq_refl) as [count Hin].
  vm_compute in Hin.
  repeat (apply elem_of_cons in Hin as [Hin|Hin]; [discriminate Hin|]).
  by apply elem_of_nil in Hin.
Qed.

Lemma last_call_events {Batch} (evs calls : list (event Batch)) e :
  Forall (λ e, is_call_event e = true) calls →
  last (evs ++ e :: calls) = Some e ∨
  ∃ e', last (evs ++ e :: calls) = Some e' ∧ is_call_event e' = true.
Proof.
  intros Hc. rewrite last_app_cons.
  destruct calls as [|c calls _] using rev_ind; [by left|].
  right. exists c. rewrite app_comm_cons, last_snoc. split; [done|].
  apply Forall_app in Hc as [_ Hc]. by apply Forall_cons in Hc as [Hc _].
Qed.

(** One epoch of the scripted run, until the bound on the number of
    epochs is used up: the baseline is there in full, and the first
    epoch follows it. *)
Lemma train_baseline_first_witness :
  let s := script_trainer true [("every2", every_second_update)] in
  let s' := (train (λ _, true) 1 s).2 in
  ∃ starts calls_e calls_u rest,
    trace s' = trace s ++ EvStepperStart :: starts ++
               EvEmit "epoch" (current_epoch_nr s) :: calls_e ++
               EvEmit "update" (current_update_nr s) :: calls_u ++
               EvEpoch (current_epoch_nr s + 1) :: rest ∧
    calls_of calls_e = due_names "epoch" s ∧
    calls_of calls_u = due_names "update" s.
Proof.
  intros s s'.
  pose (r := (train (λ _, true) 1 s).1).
  assert (Hr : r = OutOfFuel) by (vm_compute; reflexivity).
  assert (Hlast : last (trace s') = Some (EvEmit "epoch" 1))
    by (vm_compute; reflexivity).
  assert (Hm : data_names_match (world s) = true) by reflexivity.
  assert (E : train (λ _, true) 1 s = (r, s')) by apply surjective_pairing.
  clearbody r s'.
  destruct (train_baseline_first (λ _, true) 1 s r s' E)
    as [(Hm' & _)|(_ & starts & after_start & Htr & _ & Hcases)].
  { rewrite Hm in Hm'. discriminate Hm'. }
  clear E. subst r.
  destruct Hcases as [(n & Hn & _)|(calls_e & after_e & -> & _ & _ & Hcases)];
    [discriminate Hn|].
  destruct Hcases as [(e & He & _)|[(_ & _ & _ & He & _)|Hcases]];
    [discriminate He..|].
  destruct Hcases as (Hde & _ & calls_u & after_u & -> & Hcu & _ & Hcases).
  destruct Hcases as [(e & He & _)|[(_ & _ & _ & He & _)|Hcases]];
    [discriminate He..|].
  destruct Hcases as (Hdu & _ & [[_ ->]|[rest ->]]).
  - exfalso. rewrite Htr in Hlast. clear Htr.
    rewrite app_nil_r, !app_comm_cons, !app_assoc in Hlast.
    match type of Hlast with
    | last (?evs ++ _ :: _) = _ =>
        destruct (last_call_events evs calls_u
                    (EvEmit "update" (current_update_nr s)) Hcu)
          as [E|(e' & E & Hc)]
    end; rewrite E in Hlast.
    + discriminate Hlast.
    + injection Hlast as ->. discriminate Hc.
  - exists starts, calls_e, calls_u, rest. split; [exact Htr|]. by split.
Defined.

(** The dispatch of the ['update'] hooks at update count 4. *)
Lemma add_log_merge_rule_witness :
  let s := set_update_nr 4 (script_trainer false
             [("every2", every_second_update); ("stop", stop_after_first_epoch)]) in
  let s' := (emit_hooks "update" s).2 in
  dispatched (current_epoch_nr s) (current_update_nr s)
    (filter (λ nh, is_due "update" (counter "update" s) nh.2) (hooks s))
    (logs s) (world s) (logs s') (world s').
Proof.
  intros s s'.
  assert (E : emit_hooks "update" s = (Done false, s')) by (vm_compute; reflexivity).
  exact (add_log_merge_rule "update" s false s' E).
Defined.

Example hook_value_is_logged :
  let s := set_update_nr 4 (script_trainer false
             [("every2", every_second_update); ("stop", stop_after_first_epoch)]) in
  logs (emit_hooks "update" s).2 = {["every2" := LList [4]]}.
Proof. vm_compute. reflexivity. Qed.

(** ** [backward_pass]: the context slot and the gradients *)







